(** * CircuitSimu core: a shallow embedding of [core.py] and its properties

    The development follows the source file function by function:
    the meter models, the dense linear solver, the circuit container and
    its JSON projection, the snapshot history, the MNA solver with its
    switch expansion and post-processing, and the goal-seek layer.

    Modelling conventions.
    - A Python [float] is a binary64 number: Rocq's primitive [float].
      Python's [max]/[min] on floats are the comparisons they are
      implemented with ([pymax], [pymin]); [x / y] raises
      [ZeroDivisionError] on a zero divisor ([py_div]); [int(x)] truncates
      and raises on NaN and infinities ([py_int]).
    - A Python [dict] is an insertion-ordered association list with unique
      keys ([dict_get], [dict_set]).
    - A function that can raise returns in the error monad [Exc].
    - A function that mutates a component returns the new component; a
      function that mutates the circuit returns the new circuit. *)

From Stdlib Require Import Floats ZArith List String Ascii Bool Lia.
Import ListNotations.

Set Warnings "-inexact-float".

Local Open Scope string_scope.
Local Open Scope list_scope.

(* ================================================================== *)
(** ** Python exceptions *)

Inductive PyErr : Type :=
| ZeroDivisionError
| ValueError
| OverflowError.

Inductive Exc (A : Type) : Type :=
| Ok (x : A)
| Raise (e : PyErr).

Arguments Ok {A} x.
Arguments Raise {A} e.

Definition bind {A B : Type} (m : Exc A) (k : A -> Exc B) : Exc B :=
  match m with
  | Ok x => k x
  | Raise e => Raise e
  end.

Notation "x <- m ;; k" := (bind m (fun x => k))
  (at level 61, m at next level, right associativity).
Notation "' pat <- m ;; k" := (bind m (fun x => match x with pat => k end))
  (at level 61, pat pattern, m at next level, right associativity).

(* ================================================================== *)
(** ** Python numerics on binary64 *)

(** [max(a, b)]: the first argument is kept unless the second is greater. *)
Definition pymax (x y : float) : float := if (x <? y)%float then y else x.

(** [min(a, b)]: the first argument is kept unless the second is smaller. *)
Definition pymin (x y : float) : float := if (y <? x)%float then y else x.

(** [x / y] on floats. *)
Definition py_div (x y : float) : Exc float :=
  if (y =? 0)%float then Raise ZeroDivisionError else Ok (x / y)%float.

(** [int(x)] on a float: truncation toward zero. *)
Definition py_int (x : float) : Exc Z :=
  match Prim2SF x with
  | S754_nan => Raise ValueError
  | S754_infinity _ => Raise OverflowError
  | S754_zero _ => Ok 0%Z
  | S754_finite s m e =>
      let t := Z.shiftl (Zpos m) e in
      Ok (if s then (- t)%Z else t)
  end.

(** [float(n)] on an integer that [int()] produced: exact. *)
Definition float_of_int (n : Z) : float :=
  SF2Prim (binary_normalize prec emax n 0%Z false).

(** [math.isfinite]. *)
Definition isfinite (x : float) : bool :=
  match Prim2SF x with
  | S754_nan | S754_infinity _ => false
  | _ => true
  end.

(** Truthiness of a float: [0.0] and [-0.0] are false. *)
Definition truthy (x : float) : bool := negb (x =? 0)%float.

(* ================================================================== *)
(** ** Insertion-ordered dictionaries *)

Section Dict.
Context {K V : Type}.
Variable keq : K -> K -> bool.

Definition dict : Type := list (K * V).

Fixpoint dict_get (d : dict) (k : K) : option V :=
  match d with
  | [] => None
  | (k', v) :: r => if keq k' k then Some v else dict_get r k
  end.

Definition dict_get_or (d : dict) (k : K) (dflt : V) : V :=
  match dict_get d k with
  | Some v => v
  | None => dflt
  end.

Definition dict_mem (d : dict) (k : K) : bool :=
  match dict_get d k with
  | Some _ => true
  | None => false
  end.

(** [d[k] = v]: an existing key keeps its position. *)
Fixpoint dict_set (d : dict) (k : K) (v : V) : dict :=
  match d with
  | [] => [(k, v)]
  | (k', v') :: r =>
      if keq k' k then (k', v) :: r else (k', v') :: dict_set r k v
  end.

Definition dict_keys (d : dict) : list K := map fst d.
Definition dict_values (d : dict) : list V := map snd d.
End Dict.

Arguments dict K V : clear implicits.

Definition sget {V} := @dict_get string V String.eqb.
Definition sget_or {V} := @dict_get_or string V String.eqb.
Definition sset {V} := @dict_set string V String.eqb.
Definition smem {V} := @dict_mem string V String.eqb.

(* ================================================================== *)
(** ** Points and components *)

Definition Point : Type := (Z * Z)%type.

Definition point_eqb (p q : Point) : bool :=
  (fst p =? fst q)%Z && (snd p =? snd q)%Z.

(** Tuple order: lexicographic. *)
Definition point_ltb (p q : Point) : bool :=
  (fst p <? fst q)%Z || ((fst p =? fst q)%Z && (snd p <? snd q)%Z).

Definition R_NEAR_SHORT : float := 1e-9.

Record Component : Type := mkComponent {
  cid : string;
  ctype : string;
  a : Point;
  b : Point;
  props : dict string float;
  meta : dict string string
}.

(** [float(comp.props.get(name, dflt))] *)
Definition prop (c : Component) (name : string) (dflt : float) : float :=
  sget_or (props c) name dflt.

(** [int(comp.props.get(name, dflt))] with an integer default. *)
Definition int_prop (c : Component) (name : string) (dflt : Z) : Exc Z :=
  match sget (props c) name with
  | Some x => py_int x
  | None => Ok dflt
  end.

(** [comp.props[name] = x] *)
Definition set_prop (c : Component) (name : string) (x : float) : Component :=
  mkComponent (cid c) (ctype c) (a c) (b c) (sset (props c) name x) (meta c).

(** [display_name]: the kind and the first four characters of the id. *)
Definition display_name (c : Component) : string :=
  ctype c ++ ":" ++ substring 0 4 (cid c).

Definition is_socket (c : Component) : bool := ctype c =? "socket".

(* ================================================================== *)
(** ** Meter models and effective resistance *)

Section Core.

(** [_parse_float_list] (core.py 21-46) rests on [json.loads] and on
    [float()] applied to text; the development is parametric in its
    result. *)
Variable parse_float_list : string -> list float.

Definition meter_ranges (comp : Component) : list float :=
  if ctype comp =? "ammeter" then
    parse_float_list (sget_or (meta comp) "ranges_I" (sget_or (meta comp) "ranges" ""))
  else if ctype comp =? "voltmeter" then
    parse_float_list (sget_or (meta comp) "ranges_V" (sget_or (meta comp) "ranges" ""))
  else if ctype comp =? "galvanometer" then
    parse_float_list (sget_or (meta comp) "ranges_I" (sget_or (meta comp) "ranges" ""))
  else [].

(** The [try]/[except] of the source turns a failing [int()] into 0. *)
Definition meter_range_index (comp : Component) : Z :=
  match int_prop comp "range" 0 with
  | Ok n => n
  | Raise _ => 0%Z
  end.

Definition meter_full_scale (comp : Component) : option float :=
  let ranges := meter_ranges comp in
  match ranges with
  | [] => None
  | _ =>
      let idx := meter_range_index comp in
      let idx := if (idx <? 0)%Z then 0%Z else idx in
      let idx := if (idx >=? Z.of_nat (List.length ranges))%Z
                 then (Z.of_nat (List.length ranges) - 1)%Z else idx in
      Some (nth (Z.to_nat idx) ranges 0%float)
  end.

Definition meter_effective_resistance (comp : Component) : Exc float :=
  if ctype comp =? "ammeter" then
    match meter_full_scale comp with
    | None => Ok (pymax (prop comp "Rin" 0.05) R_NEAR_SHORT)
    | Some fs =>
        let burden_v := prop comp "burden_V" 0.05 in
        q <- py_div burden_v (pymax (abs fs) 1e-15) ;;
        Ok (pymax q R_NEAR_SHORT)
    end
  else if ctype comp =? "voltmeter" then
    match meter_full_scale comp with
    | None => Ok (pymax (prop comp "Rin" 1e6) R_NEAR_SHORT)
    | Some fs =>
        let ohm_per_v := prop comp "ohm_per_V" (prop comp "sens" 1e4) in
        Ok (pymax (ohm_per_v * pymax (abs fs) 1e-15) R_NEAR_SHORT)
    end
  else if ctype comp =? "galvanometer" then
    match meter_full_scale comp with
    | None => Ok (pymax (prop comp "Rcoil" 50) R_NEAR_SHORT)
    | Some fs =>
        let Rcoil := prop comp "Rcoil" 50 in
        let Ifs := prop comp "Ifs" 50e-6 in
        if (abs Ifs <? 1e-15)%float then Ok (pymax Rcoil R_NEAR_SHORT)
        else
          ratio <- py_div (abs fs) (abs Ifs) ;;
          if (ratio <=? 1)%float then Ok (pymax Rcoil R_NEAR_SHORT)
          else
            q <- py_div Rcoil (ratio - 1) ;;
            let Rs := pymax q R_NEAR_SHORT in
            g1 <- py_div 1 Rcoil ;;
            g2 <- py_div 1 Rs ;;
            r <- py_div 1 (g1 + g2) ;;
            Ok (pymax r R_NEAR_SHORT)
    end
  else Ok 1e12%float.

Definition bulb_resistance (Vr Wr : float) : Exc float :=
  if (Wr <=? 1e-12)%float then Ok 1e12%float
  else
    q <- py_div (Vr * Vr) Wr ;;
    Ok (pymax q 1e-6).

(** [effective_resistance] returns the resistance ([None] for "open")
    together with the component as the call leaves it: a rheostat has its
    [R] overwritten with the clamped value. *)
Definition effective_resistance (comp : Component) : Exc (option float * Component) :=
  let t := ctype comp in
  if t =? "wire" then Ok (Some R_NEAR_SHORT, comp)
  else if t =? "resistor" then Ok (Some (pymax (prop comp "R" 100) 1e-6), comp)
  else if t =? "bulb" then
    let Vr := prop comp "Vr" 6 in
    let Wr := prop comp "Wr" 3 in
    r <- bulb_resistance Vr Wr ;;
    Ok (Some r, comp)
  else if t =? "rheostat" then
    let R := prop comp "R" 100 in
    let Rmin := prop comp "Rmin" 0 in
    let Rmax := prop comp "Rmax" (pymax R 100) in
    let '(Rmin, Rmax) := if (Rmax <? Rmin)%float then (Rmax, Rmin) else (Rmin, Rmax) in
    let R := pymax (pymin R Rmax) Rmin in
    let comp := set_prop comp "R" R in
    Ok (Some (pymax R 1e-6), comp)
  else if t =? "ammeter" then
    r <- meter_effective_resistance comp ;; Ok (Some r, comp)
  else if t =? "galvanometer" then
    r <- meter_effective_resistance comp ;; Ok (Some r, comp)
  else if t =? "voltmeter" then
    r <- meter_effective_resistance comp ;; Ok (Some r, comp)
  else if t =? "switch_spst" then
    state <- int_prop comp "state" 1 ;;
    Ok (if (state =? 1)%Z then Some R_NEAR_SHORT else None, comp)
  else if t =? "button_momentary" then
    pressed <- int_prop comp "pressed" 0 ;;
    Ok (if (pressed =? 1)%Z then Some R_NEAR_SHORT else None, comp)
  else Ok (None, comp).

(* ================================================================== *)
(** ** Dense linear solve *)

Definition matrix : Type := list (list float).

Definition vget (x : list float) (i : nat) : float := nth i x 0%float.
Definition mget (M : matrix) (r c : nat) : float := vget (nth r M []) c.

(** [l[i] = f(l[i])] for an index in range. *)
Fixpoint upd {X : Type} (l : list X) (i : nat) (f : X -> X) : list X :=
  match l, i with
  | [], _ => []
  | x :: r, O => f x :: r
  | x :: r, S j => x :: upd r j f
  end.

Definition mupd (M : matrix) (r c : nat) (f : float -> float) : matrix :=
  upd M r (fun row => upd row c f).

(** [l[i], l[j] = l[j], l[i]] *)
Definition swap {X : Type} (dflt : X) (l : list X) (i j : nat) : list X :=
  let xi := nth i l dflt in
  let xj := nth j l dflt in
  upd (upd l i (fun _ => xj)) j (fun _ => xi).

Definition eps : float := 1e-12.

(** The pivot search of one column: [(pivot, best)] after the scan of
    rows [col+1 .. n-1]. *)
Definition find_pivot (M : matrix) (n col : nat) : nat * float :=
  fold_left
    (fun (pb : nat * float) (r : nat) =>
       let v := abs (mget M r col) in
       if (snd pb <? v)%float then (r, v) else pb)
    (seq (col + 1) (n - (col + 1)))
    (col, abs (mget M col col)).

(** [for c in range(col, n): M[col][c] *= inv] *)
Definition scale_row (M : matrix) (n col : nat) (inv : float) : matrix :=
  fold_left (fun M c => mupd M col c (fun v => v * inv)%float)
            (seq col (n - col)) M.

(** The elimination of column [col] from every other row. *)
Definition eliminate (n col : nat) (st : matrix * list float) : matrix * list float :=
  fold_left
    (fun (st : matrix * list float) (r : nat) =>
       let '(M, x) := st in
       if Nat.eqb r col then st
       else
         let factor := mget M r col in
         if (abs factor <? eps)%float then st
         else
           let M := fold_left
                      (fun M c => mupd M r c (fun v => v - factor * mget M col c)%float)
                      (seq col (n - col)) M in
           (M, upd x r (fun v => v - factor * vget x col)%float))
    (seq 0 n) st.

(** One turn of the outer loop; [None] is the singular exit. *)
Definition elim_column (n col : nat) (st : matrix * list float)
  : Exc (option (matrix * list float)) :=
  let '(M, x) := st in
  let '(pivot, best) := find_pivot M n col in
  if (best <? eps)%float then Ok None
  else
    let '(M, x) :=
      if Nat.eqb pivot col then (M, x)
      else (swap [] M col pivot, swap 0%float x col pivot) in
    let piv := mget M col col in
    inv <- py_div 1 piv ;;
    let M := scale_row M n col inv in
    let x := upd x col (fun v => v * inv)%float in
    Ok (Some (eliminate n col (M, x))).

Fixpoint elim_columns (n : nat) (cols : list nat) (st : matrix * list float)
  : Exc (option (matrix * list float)) :=
  match cols with
  | [] => Ok (Some st)
  | col :: rest =>
      r <- elim_column n col st ;;
      match r with
      | None => Ok None
      | Some st' => elim_columns n rest st'
      end
  end.

(** [solve_linear]: Gaussian elimination with partial pivoting on the
    square system [A x = b]. *)
Definition solve_linear (A : matrix) (bv : list float) : Exc (option (list float)) :=
  let n := List.length A in
  r <- elim_columns n (seq 0 n) (A, bv) ;;
  Ok (option_map snd r).

(* ================================================================== *)
(** ** Circuit container and JSON projection *)

Record Circuit : Type := mkCircuit {
  components : dict string Component
}.

(** The values [to_json] and [from_json] exchange. *)
#[local] Unset Elimination Schemes.
Inductive json : Type :=
| JStr (s : string)
| JInt (n : Z)
| JNum (x : float)
| JList (l : list json)
| JObj (l : list (string * json)).
#[local] Set Elimination Schemes.

Definition point_to_json (p : Point) : json := JList [JInt (fst p); JInt (snd p)].

Definition comp_to_json (c : Component) : json :=
  JObj [ ("cid", JStr (cid c)); ("ctype", JStr (ctype c));
         ("a", point_to_json (a c)); ("b", point_to_json (b c));
         ("props", JObj (map (fun kv => (fst kv, JNum (snd kv))) (props c)));
         ("meta", JObj (map (fun kv => (fst kv, JStr (snd kv))) (meta c))) ].

Definition to_json (cir : Circuit) : json :=
  JObj [ ("components", JList (map comp_to_json (dict_values (components cir)))) ].

(** Readers of a JSON object; [None] where Python raises or where the
    value has no place in the typed data model. *)
Definition json_field (o : json) (k : string) : option json :=
  match o with
  | JObj l => sget l k
  | _ => None
  end.

Definition json_str (j : json) : option string :=
  match j with JStr s => Some s | _ => None end.

(** [tuple(it["a"])] as a [Point]. *)
Definition json_point (j : json) : option Point :=
  match j with
  | JList [JInt x; JInt y] => Some (x, y)
  | _ => None
  end.

Fixpoint all_some {X : Type} (l : list (option X)) : option (list X) :=
  match l with
  | [] => Some []
  | None :: _ => None
  | Some x :: r => option_map (cons x) (all_some r)
  end.

(** [dict(it.get(k, {}))] with values read by [rd]. *)
Definition json_dict {V : Type} (rd : json -> option V) (it : json) (k : string)
  : option (dict string V) :=
  match json_field it k with
  | None => Some []
  | Some (JObj l) =>
      all_some (map (fun kv => option_map (pair (fst kv)) (rd (snd kv))) l)
  | Some _ => None
  end.

Definition json_num (j : json) : option float :=
  match j with
  | JNum x => Some x
  | JInt n => Some (float_of_int n)
  | _ => None
  end.

Definition comp_of_json (it : json) : option Component :=
  match json_field it "cid", json_field it "ctype",
        json_field it "a", json_field it "b" with
  | Some jc, Some jt, Some ja, Some jb =>
      match json_str jc, json_str jt, json_point ja, json_point jb,
            json_dict json_num it "props", json_dict json_str it "meta" with
      | Some c, Some t, Some pa, Some pb, Some ps, Some ms =>
          Some (mkComponent c t pa pb ps ms)
      | _, _, _, _, _, _ => None
      end
  | _, _, _, _ => None
  end.

(** The loop shared by [from_json] and [apply_json]:
    [components[c.cid] = c] for every item. *)
Fixpoint load_items (items : list json) (d : dict string Component)
  : option (dict string Component) :=
  match items with
  | [] => Some d
  | it :: rest =>
      match comp_of_json it with
      | None => None
      | Some c => load_items rest (sset d (cid c) c)
      end
  end.

Definition json_components (obj : json) : option (list json) :=
  match json_field obj "components" with
  | None => Some []
  | Some (JList l) => Some l
  | Some _ => None
  end.

Definition from_json (obj : json) : option Circuit :=
  match json_components obj with
  | None => None
  | Some items => option_map mkCircuit (load_items items [])
  end.

(** [apply_json] clears the circuit and loads into it. *)
Definition apply_json (cir : Circuit) (obj : json) : option Circuit :=
  match json_components obj with
  | None => None
  | Some items => option_map mkCircuit (load_items items [])
  end.

(* ================================================================== *)
(** ** Snapshot history *)

(** [undo] and [redo] move snapshots between the two stacks and load
    one into the circuit; they are given here on the JSON values the
    snapshots show. [record] compares snapshots, which depends on the
    objects they share: it is given further down, in [Shared], over
    the store of these objects, with [undo] and [redo] beside it. *)

Record CircuitHistory : Type := mkHistory {
  max_len : Z;
  undo_stack : list json;
  redo_stack : list json
}.

(** [l[i:]] *)
Definition slice_from {X : Type} (l : list X) (i : Z) : list X :=
  let len := Z.of_nat (List.length l) in
  let start := if (i <? 0)%Z then Z.max (len + i) 0 else Z.min i len in
  skipn (Z.to_nat start) l.

Definition history_clear (h : CircuitHistory) : CircuitHistory :=
  mkHistory (max_len h) [] [].

Definition can_undo (h : CircuitHistory) : bool :=
  Nat.leb 2 (List.length (undo_stack h)).

Definition can_redo (h : CircuitHistory) : bool :=
  Nat.ltb 0 (List.length (redo_stack h)).

(** [undo] and [redo] return the flag together with the history and the
    circuit as the call leaves them; [None] where [apply_json] fails. *)
Definition undo (h : CircuitHistory) (cir : Circuit)
  : option (bool * CircuitHistory * Circuit) :=
  if negb (can_undo h) then Some (false, h, cir)
  else
    let cur := last (undo_stack h) (JList []) in
    let u := removelast (undo_stack h) in
    let h' := mkHistory (max_len h) u (redo_stack h ++ [cur]) in
    let prev := last u (JList []) in
    option_map (fun cir' => (true, h', cir')) (apply_json cir prev).

Definition redo (h : CircuitHistory) (cir : Circuit)
  : option (bool * CircuitHistory * Circuit) :=
  if negb (can_redo h) then Some (false, h, cir)
  else
    let nxt := last (redo_stack h) (JList []) in
    let h' := mkHistory (max_len h) (undo_stack h ++ [nxt]) (removelast (redo_stack h)) in
    option_map (fun cir' => (true, h', cir')) (apply_json cir nxt).

(* ================================================================== *)
(** ** Solve results *)

(** The three messages [solve_circuit] can append, kept as the template
    and its arguments: the singular-matrix message, the per-source
    overcurrent message (display name and [abs(I)]) and the
    "likely open loop" message. *)
Inductive Warning : Type :=
| WarnSingular
| WarnSourceOvercurrent (name : string) (absI : float)
| WarnQuietLoop.

Record SolveResult : Type := mkSolveResult {
  ok : bool;
  node_v : dict Point float;
  comp_i : dict string float;
  warnings : list Warning;
  singular : bool;
  comp_flags : dict string string;
  comp_branch_i : dict string (dict string float)
}.

Definition pget {V} := @dict_get Point V point_eqb.
Definition pget_or {V} := @dict_get_or Point V point_eqb.
Definition pset {V} := @dict_set Point V point_eqb.

(* ================================================================== *)
(** ** Switch expansion *)

Record Expansion : Type := mkExpansion {
  expanded : list Component;
  solver_parent : dict string string;
  solver_label : dict string string
}.

Definition surrogate (scid : string) (pa pb : Point) (state : Z) (variant : string)
  : Component :=
  mkComponent scid "switch_spst" pa pb
              [("state", float_of_int state)] [("variant", variant)].

(** [solver_parent[cc.cid] = parent; solver_label[cc.cid] = lab;
    expanded.append(cc)] *)
Definition add_solver (e : Expansion) (cc : Component) (parent lab : string)
  : Expansion :=
  mkExpansion (expanded e ++ [cc])
              (sset (solver_parent e) (cid cc) parent)
              (sset (solver_label e) (cid cc) lab).

(** [f"t{throw}"] for a throw in 0..2. *)
Definition throw_label (throw : Z) : string :=
  if (throw =? 0)%Z then "t0" else if (throw =? 1)%Z then "t1" else "t2".

(** The solver components one circuit component contributes, each with
    its branch label; a component that is no compound switch passes
    through as itself under the label ["main"]. *)
Definition solver_items (c : Component) : Exc (list (Component * string)) :=
  let t := ctype c in
  if t =? "switch_spdt" then
    throw <- int_prop c "throw" 0 ;;
    c_x <- int_prop c "c_x" (fst (b c)) ;;
    c_y <- int_prop c "c_y" (snd (b c) + 2) ;;
    let c2 := (c_x, c_y) in
    if (throw =? 0)%Z then
      Ok [(surrogate (cid c ++ ":t0") (a c) (b c) 1 "spdt->b", "t0")]
    else
      Ok [(surrogate (cid c ++ ":t1") (a c) c2 1 "spdt->c2", "t1")]
  else if t =? "switch_sp3t" then
    throw <- int_prop c "throw" 0 ;;
    let t1 := b c in
    c_x <- int_prop c "c_x" (fst (b c)) ;;
    c_y <- int_prop c "c_y" (snd (b c) + 2) ;;
    d_x <- int_prop c "d_x" (fst (b c)) ;;
    d_y <- int_prop c "d_y" (snd (b c) + 4) ;;
    let t2 := (c_x, c_y) in
    let t3 := (d_x, d_y) in
    let throw := if (throw <? 0)%Z then 0%Z else throw in
    let throw := if (throw >? 2)%Z then 2%Z else throw in
    let target := if (throw =? 0)%Z then t1 else if (throw =? 1)%Z then t2 else t3 in
    Ok [(surrogate (cid c ++ ":" ++ throw_label throw) (a c) target 1
                   ("sp3t->" ++ throw_label throw),
         throw_label throw)]
  else if t =? "switch_dpst" then
    state <- int_prop c "state" 1 ;;
    c_x <- int_prop c "c_x" (fst (a c)) ;;
    c_y <- int_prop c "c_y" (snd (a c) + 2) ;;
    d_x <- int_prop c "d_x" (fst (b c)) ;;
    d_y <- int_prop c "d_y" (snd (b c) + 2) ;;
    let p2a := (c_x, c_y) in
    let p2b := (d_x, d_y) in
    let c1 := surrogate (cid c ++ ":p1") (a c) (b c) state "dpst:p1" in
    let c2 := surrogate (cid c ++ ":p2") p2a p2b state "dpst:p2" in
    Ok [(c1, "p1"); (c2, "p2")]
  else if t =? "switch_dpdt" then
    throw <- int_prop c "throw" 0 ;;
    let throw := if (throw <? 0)%Z then 0%Z else throw in
    let throw := if (throw >? 1)%Z then 1%Z else throw in
    let t1_0 := b c in
    c_x <- int_prop c "c_x" (fst (b c)) ;;
    c_y <- int_prop c "c_y" (snd (b c) + 2) ;;
    let t1_1 := (c_x, c_y) in
    d_x <- int_prop c "d_x" (fst (a c)) ;;
    d_y <- int_prop c "d_y" (snd (a c) + 4) ;;
    let com2 := (d_x, d_y) in
    e_x <- int_prop c "e_x" (fst com2 + 6) ;;
    e_y <- int_prop c "e_y" (snd com2) ;;
    let t2_0 := (e_x, e_y) in
    f_x <- int_prop c "f_x" (fst t2_0) ;;
    f_y <- int_prop c "f_y" (snd t2_0 + 2) ;;
    let t2_1 := (f_x, f_y) in
    let pole1_target := if (throw =? 0)%Z then t1_0 else t1_1 in
    let pole2_target := if (throw =? 0)%Z then t2_0 else t2_1 in
    let c1 := surrogate (cid c ++ ":p1") (a c) pole1_target 1
                        ("dpdt:p1:" ++ throw_label throw) in
    let c2 := surrogate (cid c ++ ":p2") com2 pole2_target 1
                        ("dpdt:p2:" ++ throw_label throw) in
    Ok [(c1, "p1"); (c2, "p2")]
  else if t =? "button_momentary" then
    pressed <- int_prop c "pressed" 0 ;;
    Ok [(surrogate (cid c ++ ":m") (a c) (b c) (if (pressed =? 1)%Z then 1 else 0)
                   "momentary", "m")]
  else
    Ok [(c, "main")].

(** One turn of the expansion loop: the items of [c] are registered under
    the parent [c.cid], in order. *)
Definition expand_component (e : Expansion) (c : Component) : Exc Expansion :=
  items <- solver_items c ;;
  Ok (fold_left (fun e it => add_solver e (fst it) (cid c) (snd it)) items e).

Fixpoint expand_all (comps : list Component) (e : Expansion) : Exc Expansion :=
  match comps with
  | [] => Ok e
  | c :: rest => e' <- expand_component e c ;; expand_all rest e'
  end.

(** How many solver components a compound kind contributes; [None] for a
    kind that passes through as itself. *)
Definition surrogate_count (c : Component) : option nat :=
  let t := ctype c in
  if t =? "switch_spdt" then Some 1
  else if t =? "switch_sp3t" then Some 1
  else if t =? "switch_dpst" then Some 2
  else if t =? "switch_dpdt" then Some 2
  else if t =? "button_momentary" then Some 1
  else None.

(** The circuit's components as the solver list leaves them: a
    pass-through entry of [expanded] is the circuit's own object, so the
    state it ends in is the component's. *)
Fixpoint rebuild (comps : dict string Component) (ex : list Component)
  : dict string Component :=
  match comps with
  | [] => []
  | (k, c) :: rest =>
      match surrogate_count c with
      | Some n => (k, c) :: rebuild rest (skipn n ex)
      | None =>
          match ex with
          | c' :: ex' => (k, c') :: rebuild rest ex'
          | [] => (k, c) :: rebuild rest []
          end
      end
  end.

(* ================================================================== *)
(** ** MNA assembly *)

Definition point_min (p q : Point) : Point := if point_ltb q p then q else p.

(** Ground: the [b] endpoint of the first socket, else the least endpoint,
    else the origin. *)
Definition find_ground (comps : list Component) : Point :=
  match find is_socket comps with
  | Some c => b c
  | None =>
      match flat_map (fun c => [a c; b c]) comps with
      | [] => (0%Z, 0%Z)
      | p :: ps => fold_left point_min ps p
      end
  end.

(** [sorted(node_set)]: distinct points in increasing order. *)
Fixpoint insert_node (p : Point) (l : list Point) : list Point :=
  match l with
  | [] => [p]
  | q :: r =>
      if point_eqb p q then l
      else if point_ltb p q then p :: l
      else q :: insert_node p r
  end.

Definition sorted_nodes (ex : list Component) : list Point :=
  fold_left (fun s c => insert_node (b c) (insert_node (a c) s)) ex [].

Fixpoint index_nodes (nodes : list Point) (ground : Point) (idx : nat)
  : dict Point nat :=
  match nodes with
  | [] => []
  | n :: r =>
      if point_eqb n ground then index_nodes r ground idx
      else (n, idx) :: index_nodes r ground (S idx)
  end.

(** The conductance stamps. Every non-source solver component has its
    resistance resolved, which leaves a rheostat clamped; the list
    returned is [expanded] as the loop leaves it. *)
Fixpoint stamp_components (node_index : dict Point nat) (ex : list Component)
         (A : matrix) : Exc (matrix * list Component) :=
  match ex with
  | [] => Ok (A, [])
  | c :: rest =>
      if is_socket c then
        '(A', rest') <- stamp_components node_index rest A ;;
        Ok (A', c :: rest')
      else
        '(R, c') <- effective_resistance c ;;
        match R with
        | None =>
            '(A', rest') <- stamp_components node_index rest A ;;
            Ok (A', c' :: rest')
        | Some R =>
            g <- py_div 1 R ;;
            let ia := pget node_index (a c) in
            let ib := pget node_index (b c) in
            let A := match ia with
                     | Some i => mupd A i i (fun v => v + g)%float
                     | None => A
                     end in
            let A := match ib with
                     | Some i => mupd A i i (fun v => v + g)%float
                     | None => A
                     end in
            let A := match ia, ib with
                     | Some i, Some j =>
                         mupd (mupd A i j (fun v => v - g)%float) j i (fun v => v - g)%float
                     | _, _ => A
                     end in
            '(A', rest') <- stamp_components node_index rest A ;;
            Ok (A', c' :: rest')
        end
  end.

(** The voltage-source stamps, source [k] on auxiliary row [n + k]. *)
Fixpoint stamp_sources (node_index : dict Point nat) (n : nat)
         (vs : list Component) (k : nat) (Ab : matrix * list float)
  : matrix * list float :=
  match vs with
  | [] => Ab
  | c :: rest =>
      let '(A, bvec) := Ab in
      let row := n + k in
      let ia := pget node_index (a c) in
      let ib := pget node_index (b c) in
      let V := prop c "V" 5 in
      let A := match ia with
               | Some i => mupd (mupd A i row (fun v => v + 1)%float) row i (fun v => v + 1)%float
               | None => A
               end in
      let A := match ib with
               | Some i => mupd (mupd A i row (fun v => v - 1)%float) row i (fun v => v - 1)%float
               | None => A
               end in
      stamp_sources node_index n rest (S k) (A, upd bvec row (fun _ => V))
  end.

(* ================================================================== *)
(** ** Post-processing *)

(** Python's [==] on two mappings. *)
Definition dict_eqb {V : Type} (veq : V -> V -> bool) (d1 d2 : dict string V) : bool :=
  Nat.eqb (List.length d1) (List.length d2) &&
  forallb (fun kv => match sget d2 (fst kv) with
                     | Some v => veq (snd kv) v
                     | None => false
                     end) d1.

(** The dataclass equality of [Component]. *)
Definition comp_eqb (c d : Component) : bool :=
  (cid c =? cid d) && (ctype c =? ctype d) &&
  point_eqb (a c) (a d) && point_eqb (b c) (b d) &&
  dict_eqb PrimFloat.eqb (props c) (props d) &&
  dict_eqb String.eqb (meta c) (meta d).

(** [vsources.index(c)] for the source standing at position [k0]: the
    first position holding an equal component, [k0] itself at the latest. *)
Definition source_index (vs : list Component) (k0 : nat) : nat :=
  match nth_error vs k0 with
  | None => k0
  | Some c =>
      match find (fun j => match nth_error vs j with
                           | Some d => comp_eqb d c
                           | None => false
                           end) (seq 0 k0) with
      | Some j => j
      | None => k0
      end
  end.

(** The per-solver-component currents ([solver_comp_i]); [k0] counts the
    sources met so far. *)
Fixpoint solver_currents (nv : dict Point float) (sol : list float) (n : nat)
         (vs : list Component) (ex : list Component) (k0 : nat)
         (sci : dict string float)
  : Exc (dict string float * list Component) :=
  match ex with
  | [] => Ok (sci, [])
  | c :: rest =>
      let Va := pget_or nv (a c) 0%float in
      let Vb := pget_or nv (b c) 0%float in
      if is_socket c then
        let k := source_index vs k0 in
        let I := vget sol (n + k) in
        '(sci', rest') <- solver_currents nv sol n vs rest (S k0) (sset sci (cid c) I) ;;
        Ok (sci', c :: rest')
      else
        '(R, c') <- effective_resistance c ;;
        match R with
        | None =>
            '(sci', rest') <- solver_currents nv sol n vs rest k0 (sset sci (cid c) 0%float) ;;
            Ok (sci', c' :: rest')
        | Some R =>
            I <- py_div (Va - Vb) R ;;
            '(sci', rest') <- solver_currents nv sol n vs rest k0 (sset sci (cid c) I) ;;
            Ok (sci', c' :: rest')
        end
  end.

(** Position of the first solver component with a given id. *)
Fixpoint find_cid (ex : list Component) (scid : string) : option nat :=
  match ex with
  | [] => None
  | c :: rest =>
      if cid c =? scid then Some O else option_map S (find_cid rest scid)
  end.

(** The loop over [solver_parent.items()]: branch currents and the
    [open] flag. *)
Fixpoint branch_loop (items : list (string * string)) (labels : dict string string)
         (sci : dict string float) (ex : list Component)
         (flags : dict string string) (cbi : dict string (dict string float))
  : Exc (dict string string * dict string (dict string float) * list Component) :=
  match items with
  | [] => Ok (flags, cbi, ex)
  | (scid, parent) :: rest =>
      let lab := sget_or labels scid "main" in
      let cbi := sset cbi parent (sset (sget_or cbi parent []) lab (sget_or sci scid 0%float)) in
      match find_cid ex scid with
      | None => branch_loop rest labels sci ex flags cbi
      | Some i =>
          match nth_error ex i with
          | None => branch_loop rest labels sci ex flags cbi
          | Some sc =>
              if is_socket sc then branch_loop rest labels sci ex flags cbi
              else
                '(R, sc') <- effective_resistance sc ;;
                let ex := upd ex i (fun _ => sc') in
                match R with
                | None => branch_loop rest labels sci ex (sset flags parent "open") cbi
                | Some _ => branch_loop rest labels sci ex flags cbi
                end
          end
      end
  end.

(** [sorted(keys)[0]] of a non-empty mapping. *)
Definition first_key (d : dict string float) : string :=
  match dict_keys d with
  | [] => ""
  | k :: ks => fold_left (fun m k' => if String.ltb k' m then k' else m) ks k
  end.

(** The per-original-component currents ([comp_i]). *)
Definition component_currents (comps : list Component) (sci : dict string float)
           (cbi : dict string (dict string float)) : dict string float :=
  fold_left
    (fun (ci : dict string float) (oc : Component) =>
       if is_socket oc then sset ci (cid oc) (sget_or sci (cid oc) 0%float)
       else
         match sget cbi (cid oc) with
         | Some ((_ :: _) as branches) =>
             match sget branches "main" with
             | Some v => sset ci (cid oc) v
             | None => sset ci (cid oc) (sget_or branches (first_key branches) 0%float)
             end
         | _ => sset ci (cid oc) (sget_or sci (cid oc) 0%float)
         end)
    comps [].

(** Sources over their [Iwarn]: a warning and a flag each. *)
Definition source_overcurrent (vs : list Component) (sci ci : dict string float)
           (wf : list Warning * dict string string)
  : list Warning * dict string string :=
  fold_left
    (fun (wf : list Warning * dict string string) (c : Component) =>
       let I := sget_or sci (cid c) (sget_or ci (cid c) 0%float) in
       if (prop c "Iwarn" 5 <? abs I)%float then
         (fst wf ++ [WarnSourceOvercurrent (display_name c) (abs I)],
          sset (snd wf) (cid c) "source_overcurrent")
       else wf)
    vs wf.

Definition max_source_iwarn (vs : list Component) : option float :=
  fold_left
    (fun (mx : option float) (c : Component) =>
       Some (pymax (prop c "Iwarn" 5)
                   (match mx with
                    | Some m => if truthy m then m else 0%float
                    | None => 0%float
                    end)))
    vs None.

Definition flag_overcurrent (comps : list Component) (ci : dict string float)
           (thr : float) (flags : dict string string) : dict string string :=
  fold_left
    (fun (flags : dict string string) (c : Component) =>
       if smem flags (cid c) then flags
       else if is_socket c then flags
       else if (thr <? abs (sget_or ci (cid c) 0%float))%float
            then sset flags (cid c) "overcurrent"
            else flags)
    comps flags.

Definition flag_is (flags : dict string string) (k v : string) : bool :=
  match sget flags k with
  | Some s => s =? v
  | None => false
  end.

(** [vsources and all(abs(comp_i.get(c.cid, 0.0)) < 1e-6 for c in vsources)] *)
Definition quiet_loop (vs : list Component) (ci : dict string float) : bool :=
  match vs with
  | [] => false
  | _ => forallb (fun c => (abs (sget_or ci (cid c) 0%float) <? 1e-6)%float) vs
  end.

(* ================================================================== *)
(** ** solve_circuit *)

(** The node numbering and the sources of a solver list. *)
Definition node_numbering (ground : Point) (ex : list Component) : dict Point nat :=
  index_nodes (sorted_nodes ex) ground 0.

Definition sources (ex : list Component) : list Component := filter is_socket ex.

(** The assembled system [(A, bvec)] of size [N], with the solver list as
    the stamping leaves it. *)
Definition mna_system (node_index : dict Point nat) (vsources : list Component)
           (ex : list Component) : Exc (matrix * list float * list Component) :=
  let n := List.length node_index in
  let N := n + List.length vsources in
  let A := repeat (repeat 0%float N) N in
  let bvec := repeat 0%float N in
  '(A, ex) <- stamp_components node_index ex A ;;
  let '(A, bvec) := stamp_sources node_index n vsources 0 (A, bvec) in
  Ok (A, bvec, ex).

(** Node voltages: ground pinned to 0, then one entry per numbered node. *)
Definition node_voltages (ground : Point) (node_index : dict Point nat)
           (sol : list float) : dict Point float :=
  fold_left (fun nv ni => pset nv (fst ni) (vget sol (snd ni)))
            node_index [(ground, 0%float)].

(** The flags and warnings that close the solve, and the result record
    of a successful one. *)
Definition report (comps vsources : list Component) (nv : dict Point float)
           (sci : dict string float) (flags : dict string string)
           (cbi : dict string (dict string float)) : SolveResult :=
  let ci := component_currents comps sci cbi in
  let wf := source_overcurrent vsources sci ci ([], flags) in
  let warns := fst wf in
  let flags := snd wf in
  let flags :=
    match max_source_iwarn vsources with
    | Some thr =>
        if existsb (fun c => flag_is flags (cid c) "source_overcurrent") vsources
        then flag_overcurrent comps ci thr flags
        else flags
    | None => flags
    end in
  let warns := if quiet_loop vsources ci then warns ++ [WarnQuietLoop] else warns in
  mkSolveResult true nv ci warns false flags cbi.

(** Everything after the expansion, on the solver list of [e]. The second
    component of the value is that list as the run leaves it. *)
Definition solve_expanded (comps : list Component) (ground : Point) (e : Expansion)
  : Exc (SolveResult * list Component) :=
  let ex := expanded e in
  let node_index := node_numbering ground ex in
  let vsources := sources ex in
  let n := List.length node_index in
  let N := n + List.length vsources in
  if Nat.eqb N 0 then Ok (mkSolveResult true [] [] [] false [] [], ex)
  else
    '(A, bvec, ex) <- mna_system node_index vsources ex ;;
    sol <- solve_linear A bvec ;;
    match sol with
    | None => Ok (mkSolveResult false [] [] [WarnSingular] true [] [], ex)
    | Some sol =>
        let nv := node_voltages ground node_index sol in
        '(sci, ex) <- solver_currents nv sol n vsources ex 0 [] ;;
        '(flags, cbi, ex) <- branch_loop (solver_parent e) (solver_label e) sci ex [] [] ;;
        Ok (report comps vsources nv sci flags cbi, ex)
    end.

(** [solve_circuit] returns the result and the circuit as the call leaves
    it. *)
Definition solve_circuit (cir : Circuit) : Exc (SolveResult * Circuit) :=
  let comps := dict_values (components cir) in
  let ground := find_ground comps in
  e <- expand_all comps (mkExpansion [] [] []) ;;
  '(res, ex) <- solve_expanded comps ground e ;;
  Ok (res, mkCircuit (rebuild (components cir) ex)).

(** The system [solve_circuit] hands to [solve_linear]; [None] for the
    empty system, which is never assembled. *)
Definition assembled_system (cir : Circuit) : Exc (option (matrix * list float)) :=
  let comps := dict_values (components cir) in
  let ground := find_ground comps in
  e <- expand_all comps (mkExpansion [] [] []) ;;
  let node_index := node_numbering ground (expanded e) in
  let vsources := sources (expanded e) in
  if Nat.eqb (List.length node_index + List.length vsources) 0 then Ok None
  else
    '(A, bvec, _) <- mna_system node_index vsources (expanded e) ;;
    Ok (Some (A, bvec)).

(** The solver components of a circuit, as [solve_circuit] expands it. *)
Definition solver_components (cir : Circuit) : Exc Expansion :=
  expand_all (dict_values (components cir)) (mkExpansion [] [] []).

(** The current [solve_circuit] reports for a solver component: the entry
    of the labeled branch mapping under its parent and its label. *)
Definition reported_current (res : SolveResult) (e : Expansion) (c : Component)
  : option float :=
  match sget (solver_parent e) (cid c), sget (solver_label e) (cid c) with
  | Some parent, Some lab => sget (sget_or (comp_branch_i res) parent []) lab
  | _, _ => None
  end.

(* ================================================================== *)
(** ** Measurements *)

(** [component_metrics]: the metrics mapping, and the component as the
    call to [effective_resistance] leaves it. *)
Definition component_metrics (result : SolveResult) (comp : Component)
  : Exc (dict string float * Component) :=
  let Va := pget_or (node_v result) (a comp) 0%float in
  let Vb := pget_or (node_v result) (b comp) 0%float in
  let Vab := (Va - Vb)%float in
  let Iab := sget_or (comp_i result) (cid comp) 0%float in
  let P := (Vab * Iab)%float in
  let out := [("Va", Va); ("Vb", Vb); ("Vab", Vab); ("Iab", Iab); ("P", P)] in
  '(R, comp') <- effective_resistance comp ;;
  match R with
  | Some R => Ok (sset out "R" R, comp')
  | None => Ok (out, comp')
  end.

(** The measurement descriptor: one field per key the code reads, [None]
    for an absent key. *)
Record MeasureSpec : Type := mkMeasure {
  m_kind : option string;
  m_node : option Point;
  m_cid : option string;
  m_field : option string;
  m_branch : option string;
  m_abs : bool
}.

(** [cir.components[k] = c] for a key already present. *)
Definition replace_component (cir : Circuit) (k : string) (c : Component) : Circuit :=
  mkCircuit (map (fun kc => if fst kc =? k then (fst kc, c) else kc) (components cir)).

Definition _goal_measure (result : SolveResult) (cir : Circuit) (spec : MeasureSpec)
  : Exc (option float * Circuit) :=
  let fin (v : float) := if m_abs spec then abs v else v in
  let kind := match m_kind spec with Some k => k | None => "comp" end in
  if kind =? "node" then
    match m_node spec with
    | None => Ok (None, cir)
    | Some n => Ok (Some (fin (pget_or (node_v result) n 0%float)), cir)
    end
  else
    let field_name := match m_field spec with Some f => f | None => "Iab" end in
    match m_cid spec with
    | None => Ok (None, cir)
    | Some k =>
        let by_branch :=
          match m_branch spec with
          | Some br =>
              if field_name =? "Iab"
              then sget (sget_or (comp_branch_i result) k []) br
              else None
          | None => None
          end in
        match by_branch with
        | Some v => Ok (Some (fin v), cir)
        | None =>
            match sget (components cir) k with
            | None => Ok (None, cir)
            | Some comp =>
                '(m, comp') <- component_metrics result comp ;;
                let cir := replace_component cir k comp' in
                match sget m field_name with
                | None => Ok (None, cir)
                | Some v => Ok (Some (fin v), cir)
                end
            end
        end
    end.

(* ================================================================== *)
(** ** Goal seek *)

Record GoalSeekResult : Type := mkGoalSeekResult {
  gs_ok : bool;
  gs_value : float;
  gs_achieved : float;
  gs_target : float;
  gs_error : float;
  gs_iterations : nat;
  gs_message : string;
  gs_history : list (float * float)
}.

Record GoalSeekRequest : Type := mkRequest {
  var_cid : string;
  var_prop : string;
  target : float;
  measure : MeasureSpec;
  lo : float;
  hi : float;
  tol_abs : float;
  tol_rel : float;
  max_iter : Z;
  method : string;
  reject_if_overcurrent : bool
}.

(** The memo of [eval_err]: keyed by the evaluation point, holding the
    pair [(err, measured)], or [None] for the pair [(None, None)]. *)
Definition Cache : Type := dict float (option (float * float)).

Definition fget := @dict_get float (option (float * float)) PrimFloat.eqb.
Definition fset := @dict_set float (option (float * float)) PrimFloat.eqb.

(** [cir.components[k].props[name] = x] *)
Definition set_component_prop (cir : Circuit) (k name : string) (x : float) : Circuit :=
  match sget (components cir) k with
  | Some c => replace_component cir k (set_prop c name x)
  | None => cir
  end.

(** [cir.components[k].props.get(name)] *)
Definition component_prop (cir : Circuit) (k name : string) : option float :=
  match sget (components cir) k with
  | Some c => sget (props c) name
  | None => None
  end.

Section GoalSeek.

Variable rq : GoalSeekRequest.

Definition eval_err (x : float) (st : Circuit * Cache)
  : Exc (option (float * float) * (Circuit * Cache)) :=
  let '(cir, cache) := st in
  match fget cache x with
  | Some r => Ok (r, st)
  | None =>
      let cir := set_component_prop cir (var_cid rq) (var_prop rq) x in
      '(res, cir) <- solve_circuit cir ;;
      if negb (ok res) then Ok (None, (cir, fset cache x None))
      else if reject_if_overcurrent rq &&
              existsb (fun v => v =? "source_overcurrent") (dict_values (comp_flags res))
      then Ok (None, (cir, fset cache x None))
      else
        '(mv, cir) <- _goal_measure res cir (measure rq) ;;
        match mv with
        | None => Ok (None, (cir, fset cache x None))
        | Some mvf =>
            if negb (isfinite mvf) then Ok (None, (cir, fset cache x None))
            else
              let err := (mvf - target rq)%float in
              if negb (isfinite err) then Ok (None, (cir, fset cache x None))
              else Ok (Some (err, mvf), (cir, fset cache x (Some (err, mvf))))
        end
  end.

Definition is_done (err achieved : float) : bool :=
  let tol := pymax (tol_abs rq)
                   (tol_rel rq * pymax (pymax 1 (abs (target rq))) (abs achieved)) in
  (abs err <=? tol)%float.

(** [(e_lo == 0.0) or (e_hi == 0.0) or (e_lo < 0.0 < e_hi) or (e_hi < 0.0 < e_lo)] *)
Definition straddles (e_lo e_hi : float) : bool :=
  (e_lo =? 0)%float || (e_hi =? 0)%float ||
  ((e_lo <? 0)%float && (0 <? e_hi)%float) ||
  ((e_hi <? 0)%float && (0 <? e_lo)%float).

(** [str(var_prop).upper() == "R"] *)
Definition is_resistance_prop : bool :=
  (var_prop rq =? "R") || (var_prop rq =? "r").

(** The bracketing phase: what the 12-turn loop tracks. *)
Record Bracket : Type := mkBracket {
  lo2 : float; hi2 : float;
  e_lo0 : float; e_hi0 : float;
  m_lo0 : float; m_hi0 : float
}.

(** The loop returns [Some] of the bracket found at a [break], [None] when
    the 12 turns run out. *)
Fixpoint bracket_loop (turns : nat) (bk : Bracket) (st : Circuit * Cache)
  : Exc (option Bracket * (Circuit * Cache)) :=
  match turns with
  | O => Ok (None, st)
  | S turns' =>
      if straddles (e_lo0 bk) (e_hi0 bk) then Ok (Some bk, st)
      else
        let '(l2, h2) :=
          if (0 <? lo2 bk)%float && (0 <? hi2 bk)%float && is_resistance_prop then
            (pymax (lo2 bk / 10) 1e-12, (hi2 bk * 10)%float)
          else
            let c := (0.5 * (lo2 bk + hi2 bk))%float in
            let w := (hi2 bk - lo2 bk)%float in
            let w := if (abs w <? 1e-15)%float then pymax (abs c) 1 else w in
            ((c - 2 * w)%float, (c + 2 * w)%float) in
        '(r_lo, st) <- eval_err l2 st ;;
        '(r_hi, st) <- eval_err h2 st ;;
        let '(el, ml) := match r_lo with
                         | Some em => em
                         | None => (e_lo0 bk, m_lo0 bk)
                         end in
        let '(eh, mh) := match r_hi with
                         | Some em => em
                         | None => (e_hi0 bk, m_hi0 bk)
                         end in
        bracket_loop turns' (mkBracket l2 h2 el eh ml mh) st
  end.

(** The variables of the main loop. *)
Record Seek : Type := mkSeek {
  x0 : float; x1 : float;
  y0 : float; y1 : float;
  m0 : float; m1 : float;
  sa : float; sb : float;
  fa : float; fb : float;
  best_x : float; best_m : float; best_err : float;
  history : list (float * float);
  iterations : nat
}.

(** How the main loop ends: by [return out], or by falling out of the
    loop (a [break] or the end of the range) with a [fail_reason]. *)
Inductive LoopExit : Type :=
| Returned (out : GoalSeekResult)
| FellOut (fail_reason : string) (s : Seek).

Definition better (s : Seek) (x m y : float) : Seek :=
  if (abs y <? abs (best_err s))%float then
    mkSeek (x0 s) (x1 s) (y0 s) (y1 s) (m0 s) (m1 s) (sa s) (sb s) (fa s) (fb s)
           x m y (history s) (iterations s)
  else s.

Fixpoint seek_loop (use_bisect : bool) (lo' hi' : float) (its : list nat) (s : Seek)
         (st : Circuit * Cache) : Exc (LoopExit * (Circuit * Cache)) :=
  match its with
  | [] => Ok (FellOut "failed" s, st)
  | it :: rest =>
      let s := mkSeek (x0 s) (x1 s) (y0 s) (y1 s) (m0 s) (m1 s) (sa s) (sb s)
                      (fa s) (fb s) (best_x s) (best_m s) (best_err s)
                      (history s) (it + 1) in
      let s := better s (x0 s) (m0 s) (y0 s) in
      let s := better s (x1 s) (m1 s) (y1 s) in
      if use_bisect then
        let mid := (0.5 * (sa s + sb s))%float in
        '(r, st) <- eval_err mid st ;;
        match r with
        | None => Ok (FellOut "evaluation failed during bisection" s, st)
        | Some (fm, mm) =>
            let s := mkSeek (x0 s) (x1 s) (y0 s) (y1 s) (m0 s) (m1 s) (sa s) (sb s)
                            (fa s) (fb s) (best_x s) (best_m s) (best_err s)
                            (history s ++ [(mid, mm)]) (iterations s) in
            let s := better s mid mm fm in
            if is_done fm mm then
              Ok (Returned (mkGoalSeekResult true mid mm (target rq) fm
                              (iterations s) "ok" (history s)), st)
            else
              let '(a', b', fa', fb') :=
                if (fa s =? 0)%float then (mid, sb s, fm, fb s)
                else if (fb s =? 0)%float then (sa s, mid, fa s, fm)
                else if ((fa s <? 0)%float && (0 <? fm)%float) ||
                        ((0 <? fa s)%float && (fm <? 0)%float)
                     then (sa s, mid, fa s, fm)
                     else (mid, sb s, fm, fb s) in
              seek_loop use_bisect lo' hi' rest
                (mkSeek (x0 s) (x1 s) (y0 s) (y1 s) (m0 s) (m1 s) a' b' fa' fb'
                        (best_x s) (best_m s) (best_err s) (history s) (iterations s))
                st
        end
      else
        if (y1 s - y0 s =? 0)%float then Ok (FellOut "secant slope is zero" s, st)
        else
          (* the divisor was just tested against zero *)
          let x2 := (x1 s - y1 s * (x1 s - x0 s) / (y1 s - y0 s))%float in
          let x2 := if (x2 <? lo')%float then lo' else x2 in
          let x2 := if (hi' <? x2)%float then hi' else x2 in
          let x2 := if (abs (x2 - x1 s) <=? pymax 1e-15 (1e-12 * pymax 1 (abs (x1 s))))%float
                    then (0.5 * (x0 s + x1 s))%float else x2 in
          '(r, st) <- eval_err x2 st ;;
          match r with
          | None => Ok (FellOut "evaluation failed during secant" s, st)
          | Some (y2, m2) =>
              let s := mkSeek (x0 s) (x1 s) (y0 s) (y1 s) (m0 s) (m1 s) (sa s) (sb s)
                              (fa s) (fb s) (best_x s) (best_m s) (best_err s)
                              (history s ++ [(x2, m2)]) (iterations s) in
              let s := better s x2 m2 y2 in
              if is_done y2 m2 then
                Ok (Returned (mkGoalSeekResult true x2 m2 (target rq) y2
                                (iterations s) "ok" (history s)), st)
              else
                seek_loop use_bisect lo' hi' rest
                  (mkSeek (x1 s) x2 (y1 s) y2 (m1 s) m2 (sa s) (sb s) (fa s) (fb s)
                          (best_x s) (best_m s) (best_err s) (history s) (iterations s))
                  st
          end
  end.

(** [goal_seek_parameter], with the circuit and the memo as the call
    leaves them. *)
Definition goal_seek_run (cir : Circuit) : Exc (GoalSeekResult * (Circuit * Cache)) :=
  match sget (components cir) (var_cid rq) with
  | None =>
      Ok (mkGoalSeekResult false 0 0 0 0 0 ("unknown var_cid: " ++ var_cid rq) [],
          (cir, []))
  | Some comp =>
      if (lo rq =? hi rq)%float then
        Ok (mkGoalSeekResult false 0 0 0 0 0 "lo == hi" [], (cir, []))
      else
        let '(lo', hi') := if (hi rq <? lo rq)%float then (hi rq, lo rq) else (lo rq, hi rq) in
        let prev := match sget (props comp) (var_prop rq) with
                    | Some v => v
                    | None => 0%float
                    end in
        let st := (cir, @nil (float * option (float * float))) in
        '(r_lo, st) <- eval_err lo' st ;;
        '(r_hi, st) <- eval_err hi' st ;;
        '(bounds, st) <-
          (if (method rq =? "auto") &&
              (match r_lo, r_hi with Some _, Some _ => false | _, _ => true end)
           then
             let mid0 := (0.5 * (lo' + hi'))%float in
             '(r_mid, st) <- eval_err mid0 st ;;
             match r_mid with
             | Some em =>
                 match r_lo, r_hi with
                 | None, _ => Ok ((mid0, hi', Some em, r_hi), st)
                 | Some _, None => Ok ((lo', mid0, r_lo, Some em), st)
                 | Some _, Some _ => Ok ((lo', hi', r_lo, r_hi), st)
                 end
             | None => Ok ((lo', hi', r_lo, r_hi), st)
             end
           else Ok ((lo', hi', r_lo, r_hi), st)) ;;
        let '(lo', hi', r_lo, r_hi) := bounds in
        match r_lo, r_hi with
        | Some (e_lo, m_lo), Some (e_hi, m_hi) =>
            let hist := [(lo', m_lo); (hi', m_hi)] in
            let bracketed := straddles e_lo e_hi in
            '(found, st) <-
              (if (method rq =? "auto") && negb bracketed
               then bracket_loop 12 (mkBracket lo' hi' e_lo e_hi m_lo m_hi) st
               else Ok (None, st)) ;;
            let '(lo', hi', e_lo, e_hi, m_lo, m_hi, bracketed) :=
              match found with
              | Some bk => (lo2 bk, hi2 bk, e_lo0 bk, e_hi0 bk, m_lo0 bk, m_hi0 bk, true)
              | None => (lo', hi', e_lo, e_hi, m_lo, m_hi, bracketed)
              end in
            let use_bisect := ((method rq =? "auto") || (method rq =? "bisect")) && bracketed in
            let s := mkSeek lo' hi' e_lo e_hi m_lo m_hi lo' hi' e_lo e_hi
                            lo' m_lo e_lo hist 0 in
            '(ex, st) <- seek_loop use_bisect lo' hi' (seq 0 (Z.to_nat (max_iter rq))) s st ;;
            match ex with
            | Returned out => Ok (out, st)
            | FellOut fail_reason s =>
                let cir := set_component_prop (fst st) (var_cid rq) (var_prop rq) prev in
                Ok (mkGoalSeekResult false (best_x s) (best_m s) (target rq) (best_err s)
                      (iterations s)
                      (if (method rq =? "auto") && negb bracketed
                       then "failed: not bracketed" else fail_reason)
                      (history s),
                    (cir, snd st))
            end
        | _, _ =>
            let cir := set_component_prop (fst st) (var_cid rq) (var_prop rq) prev in
            Ok (mkGoalSeekResult false 0 0 0 0 0 "evaluation failed at bounds" [],
                (cir, snd st))
        end
  end.

Definition goal_seek_parameter (cir : Circuit) : Exc (GoalSeekResult * Circuit) :=
  '(out, st) <- goal_seek_run cir ;;
  Ok (out, fst st).

End GoalSeek.

End Core.

(* ================================================================== *)
(** ** The history over the shared objects *)

(** [to_json] puts the [props] and [meta] mappings of every component
    into the snapshot as they are, without copying them: a snapshot on
    a stack shares them with the components it was taken from, an
    in-place write to a property shows in every snapshot that holds the
    mapping, and [==], which tests identity before value at every
    level, finds a shared mapping or a shared float equal to itself
    whatever it holds. [apply_json] copies the two mappings of every
    item ([dict(...)]), and the copies hold the floats of the
    originals. The history is therefore modelled over a store of
    floats and mappings, and the components and the items of the
    snapshots hold addresses into it. *)
Module Shared.

Definition addr : Type := nat.

(** The objects with an identity of their own: floats, [props] mappings
    (from names to floats) and [meta] mappings. An address is a
    position in its list. *)
Record Store : Type := mkStore {
  floats : list float;
  props_at : list (dict string addr);
  meta_at : list (dict string string)
}.

(** A [Component] object, and equally an item of a snapshot: the
    identifier, the kind, the two end points and the two mappings. *)
Record Item : Type := mkItem {
  cid : string;
  ctype : string;
  a : Point;
  b : Point;
  props : addr;
  meta : addr
}.

(** [Circuit.components] *)
Definition LiveCircuit : Type := dict string Item.

(** The list under ["components"] of a snapshot. *)
Definition Snapshot : Type := list Item.

Definition float_at (s : Store) (x : addr) : float := nth x (floats s) 0%float.

Definition props_of (s : Store) (it : Item) : dict string addr :=
  nth (props it) (props_at s) [].

Definition meta_of (s : Store) (it : Item) : dict string string :=
  nth (meta it) (meta_at s) [].

(** [to_json]: one item per component, in the order of the circuit, each
    holding the component's own mappings. *)
Definition to_json (cir : LiveCircuit) : Snapshot := dict_values cir.

(** [Component(cid=..., props=dict(it["props"]), meta=dict(it["meta"]))]:
    a component with two new mappings, which hold the floats and the
    strings of the item's. *)
Definition copy_item (s : Store) (it : Item) : Store * Item :=
  (mkStore (floats s) (props_at s ++ [props_of s it]) (meta_at s ++ [meta_of s it]),
   mkItem (cid it) (ctype it) (a it) (b it)
          (List.length (props_at s)) (List.length (meta_at s))).

(** [components[c.cid] = c] for every item. *)
Fixpoint load_items (items : Snapshot) (s : Store) (d : LiveCircuit)
  : Store * LiveCircuit :=
  match items with
  | [] => (s, d)
  | it :: rest =>
      let sc := copy_item s it in
      load_items rest (fst sc) (sset d (cid (snd sc)) (snd sc))
  end.

(** [apply_json] clears the circuit and loads into it. *)
Definition apply_json (s : Store) (cir : LiveCircuit) (obj : Snapshot)
  : Store * LiveCircuit :=
  load_items obj s [].

(** The write [c.props[name] = x] of a new float [x] into the mapping
    the component holds. *)
Definition write_prop (s : Store) (c : Item) (name : string) (x : float) : Store :=
  mkStore (floats s ++ [x])
          (upd (props_at s) (props c) (fun d => sset d name (List.length (floats s))))
          (meta_at s).

(** [x == y] for two values of a container: [x is y or x == y]. *)
Definition float_equal (s : Store) (x y : addr) : bool :=
  (x =? y)%nat || (float_at s x =? float_at s y)%float.

(** [d1 == d2] for two mappings: as many keys, and every key of [d1] in
    [d2] with an equal value. *)
Definition props_equal (s : Store) (d1 d2 : dict string addr) : bool :=
  Nat.eqb (List.length d1) (List.length d2) &&
  forallb (fun kv => match sget d2 (fst kv) with
                     | Some y => float_equal s (snd kv) y
                     | None => false
                     end) d1.

Definition meta_equal (d1 d2 : dict string string) : bool :=
  Nat.eqb (List.length d1) (List.length d2) &&
  forallb (fun kv => match sget d2 (fst kv) with
                     | Some y => String.eqb (snd kv) y
                     | None => false
                     end) d1.

(** [==] on two items: key by key, the two mappings by identity first. *)
Definition item_equal (s : Store) (i j : Item) : bool :=
  String.eqb (cid i) (cid j) && String.eqb (ctype i) (ctype j) &&
  point_eqb (a i) (a j) && point_eqb (b i) (b j) &&
  ((props i =? props j)%nat || props_equal s (props_of s i) (props_of s j)) &&
  ((meta i =? meta j)%nat || meta_equal (meta_of s i) (meta_of s j)).

(** [==] on two snapshots: the two lists, item by item. *)
Fixpoint snapshot_equal (s : Store) (x y : Snapshot) : bool :=
  match x, y with
  | [], [] => true
  | i :: x', j :: y' => item_equal s i j && snapshot_equal s x' y'
  | _, _ => false
  end.

Record CircuitHistory : Type := mkHistory {
  max_len : Z;
  undo_stack : list Snapshot;
  redo_stack : list Snapshot
}.

Definition record (s : Store) (h : CircuitHistory) (cir : LiveCircuit)
  : CircuitHistory :=
  let snap := to_json cir in
  let unchanged :=
    match undo_stack h with
    | [] => false
    | _ => snapshot_equal s (last (undo_stack h) []) snap
    end in
  if unchanged then h
  else
    let u := undo_stack h ++ [snap] in
    let u := if (Z.of_nat (List.length u) >? max_len h)%Z
             then slice_from u (- max_len h) else u in
    mkHistory (max_len h) u [].

Definition can_undo (h : CircuitHistory) : bool :=
  Nat.leb 2 (List.length (undo_stack h)).

Definition can_redo (h : CircuitHistory) : bool :=
  Nat.ltb 0 (List.length (redo_stack h)).

(** [undo] and [redo] return the flag together with the store, the
    history and the circuit as the call leaves them. *)
Definition undo (s : Store) (h : CircuitHistory) (cir : LiveCircuit)
  : bool * Store * CircuitHistory * LiveCircuit :=
  if negb (can_undo h) then (false, s, h, cir)
  else
    let cur := last (undo_stack h) [] in
    let u := removelast (undo_stack h) in
    let h' := mkHistory (max_len h) u (redo_stack h ++ [cur]) in
    let sc := apply_json s cir (last u []) in
    (true, fst sc, h', snd sc).

Definition redo (s : Store) (h : CircuitHistory) (cir : LiveCircuit)
  : bool * Store * CircuitHistory * LiveCircuit :=
  if negb (can_redo h) then (false, s, h, cir)
  else
    let nxt := last (redo_stack h) [] in
    let h' := mkHistory (max_len h) (undo_stack h ++ [nxt]) (removelast (redo_stack h)) in
    let sc := apply_json s cir nxt in
    (true, fst sc, h', snd sc).

End Shared.

(* ================================================================== *)
(** ** Vocabulary of the statements *)

(** The bounds a rheostat clamps into: [Rmin] and [Rmax] with their
    defaults, swapped when inverted. *)
Definition rheostat_bounds (c : Component) : float * float :=
  let R := prop c "R" 100 in
  let Rmin := prop c "Rmin" 0 in
  let Rmax := prop c "Rmax" (pymax R 100) in
  if (Rmax <? Rmin)%float then (Rmax, Rmin) else (Rmin, Rmax).

(** "[x] clamped into [[lo, hi]]", as the specification words it. *)
Definition clamp_into (lo hi x : float) : float :=
  if (x <? lo)%float then lo else if (hi <? x)%float then hi else x.

(** The clamp as the code computes it, from [R], [Rmin] and the optional
    [Rmax] entry. *)
Definition clampR (R Rmin : float) (oRmax : option float) : float :=
  let Rmax := match oRmax with Some v => v | None => pymax R 100 end in
  let bounds := if (Rmax <? Rmin)%float then (Rmax, Rmin) else (Rmin, Rmax) in
  pymax (pymin R (snd bounds)) (fst bounds).

Definition rheostat_R (c : Component) : float :=
  clampR (prop c "R" 100) (prop c "Rmin" 0) (sget (props c) "Rmax").


(** [record] pushes the snapshot of the circuit: the undo stack is empty,
    or its top is not [==] to the snapshot. *)
Definition pushes (s : Shared.Store) (h : Shared.CircuitHistory)
           (cir : Shared.LiveCircuit) : bool :=
  match Shared.undo_stack h with
  | [] => true
  | _ => negb (Shared.snapshot_equal s (last (Shared.undo_stack h) [])
                                     (Shared.to_json cir))
  end.

(** The last [n] elements of a list. *)
Definition newest {X : Type} (n : nat) (l : list X) : list X :=
  skipn (List.length l - n) l.

(** What a store shows: the component an item stands for, the circuit,
    and the JSON value of a snapshot. *)
Definition shown_props (s : Shared.Store) (it : Shared.Item) : dict string float :=
  map (fun kv => (fst kv, Shared.float_at s (snd kv))) (Shared.props_of s it).

Definition component_of (s : Shared.Store) (it : Shared.Item) : Component :=
  mkComponent (Shared.cid it) (Shared.ctype it) (Shared.a it) (Shared.b it)
              (shown_props s it) (Shared.meta_of s it).

Definition circuit_of (s : Shared.Store) (cir : Shared.LiveCircuit) : Circuit :=
  mkCircuit (map (fun kc => (fst kc, component_of s (snd kc))) cir).

Definition shown (s : Shared.Store) (snap : Shared.Snapshot) : json :=
  JObj [ ("components", JList (map (fun it => comp_to_json (component_of s it)) snap)) ].

Definition history_shown (s : Shared.Store) (h : Shared.CircuitHistory) : CircuitHistory :=
  mkHistory (Shared.max_len h) (map (shown s) (Shared.undo_stack h))
            (map (shown s) (Shared.redo_stack h)).

(** The two mappings of an item are in the store; so are those of every
    snapshot of a history. *)
Definition item_in (s : Shared.Store) (it : Shared.Item) : Prop :=
  Shared.props it < List.length (Shared.props_at s) /\
  Shared.meta it < List.length (Shared.meta_at s).

Definition history_in (s : Shared.Store) (h : Shared.CircuitHistory) : Prop :=
  Forall (Forall (item_in s)) (Shared.undo_stack h) /\
  Forall (Forall (item_in s)) (Shared.redo_stack h).

(** The store [s'] holds what [s] holds, and new mappings. *)
Definition extends (s s' : Shared.Store) : Prop :=
  Shared.floats s' = Shared.floats s /\
  (exists P, Shared.props_at s' = Shared.props_at s ++ P) /\
  (exists M, Shared.meta_at s' = Shared.meta_at s ++ M).

(** A circuit keyed as [add], [from_json] and [apply_json] key it: every
    component sits under its own identifier. *)
Definition well_keyed (cir : Circuit) : Prop :=
  NoDup (dict_keys (components cir)) /\
  Forall (fun kc => cid (snd kc) = fst kc) (components cir).

(* ================================================================== *)
(** ** Example inputs *)

(** A reader for the range texts of the examples: unsigned decimal
    integers separated by commas or semicolons. On such a text it returns
    what [_parse_float_list] returns; it drops every other token. *)
Definition digit_value (ch : ascii) : option Z :=
  let n := Z.of_nat (nat_of_ascii ch) in
  if (48 <=? n)%Z && (n <=? 57)%Z then Some (n - 48)%Z else None.

Fixpoint digits_value (s : string) (acc : Z) : option Z :=
  match s with
  | EmptyString => Some acc
  | String ch r =>
      match digit_value ch with
      | Some d => digits_value r (10 * acc + d)%Z
      | None => None
      end
  end.

Fixpoint lstrip (s : string) : string :=
  match s with
  | String " " r => lstrip r
  | _ => s
  end.

Fixpoint rev_string (s acc : string) : string :=
  match s with
  | EmptyString => acc
  | String ch r => rev_string r (String ch acc)
  end.

Definition strip (s : string) : string :=
  rev_string (lstrip (rev_string (lstrip s) "")) "".

(** Split at [","] and [";"]; [cur] is the token being read, reversed. *)
Fixpoint split_list (s cur : string) : list string :=
  match s with
  | EmptyString => [rev_string cur ""]
  | String ch r =>
      if (Ascii.eqb ch ",") || (Ascii.eqb ch ";")
      then rev_string cur "" :: split_list r ""
      else split_list r (String ch cur)
  end.

Definition parse_unsigned_list (s : string) : list float :=
  if strip s =? "" then []
  else
    flat_map (fun p => match strip p with
                       | EmptyString => []
                       | q => match digits_value q 0 with
                              | Some n => [float_of_int n]
                              | None => []
                              end
                       end)
             (split_list (strip s) "").

Definition part (id kind : string) (pa pb : Point) (ps : dict string float)
  : string * Component :=
  (id, mkComponent id kind pa pb ps []).

(** A galvanometer with a range configured and a coil of zero ohms. *)
Definition shorted_galvanometer : Component :=
  mkComponent "g" "galvanometer" (0, 0)%Z (4, 0)%Z
              [("Rcoil", 0%float)] [("ranges_I", "1")].

Definition galvanometer_loop : Circuit :=
  mkCircuit [ part "s" "socket" (0, 0)%Z (0, 4)%Z [("V", 5%float)];
              ("g", shorted_galvanometer);
              part "w" "wire" (4, 0)%Z (0, 4)%Z [] ].

(** Two sources of different voltage across the same pair of nodes. *)
Definition conflicting_sources : Circuit :=
  mkCircuit [ part "s1" "socket" (0, 0)%Z (0, 4)%Z [("V", 5%float)];
              part "s2" "socket" (0, 0)%Z (0, 4)%Z [("V", 3%float)] ].

(** A source, a resistor and an open switch in series. *)
Definition open_loop : Circuit :=
  mkCircuit [ part "s" "socket" (0, 0)%Z (0, 4)%Z [("V", 5%float)];
              part "r" "resistor" (0, 0)%Z (4, 0)%Z [("R", 100%float)];
              part "k" "switch_spst" (4, 0)%Z (0, 4)%Z [("state", 0%float)] ].

(** A lone resistor: a circuit without sources. *)
Definition lone_resistor : Circuit :=
  mkCircuit [ part "r" "resistor" (0, 0)%Z (4, 0)%Z [("R", 100%float)] ].

Definition lone_resistor_changed : Circuit :=
  mkCircuit [ part "r" "resistor" (0, 0)%Z (4, 0)%Z [("R", 220%float)] ].

(** The lone resistor in a store, and the store and the circuit after a
    second resistor was added: the first resistor is the same object
    in both. *)
Definition lone_store : Shared.Store :=
  Shared.mkStore [100%float] [[("R", 0)]] [[]].

Definition lone_live : Shared.LiveCircuit :=
  [ ("r", Shared.mkItem "r" "resistor" (0, 0)%Z (4, 0)%Z 0 0) ].

Definition pair_store : Shared.Store :=
  Shared.mkStore [100%float; 47%float] [[("R", 0)]; [("R", 1)]] [[]; []].

Definition pair_live : Shared.LiveCircuit :=
  [ ("r", Shared.mkItem "r" "resistor" (0, 0)%Z (4, 0)%Z 0 0);
    ("q", Shared.mkItem "q" "resistor" (4, 0)%Z (4, 4)%Z 1 1) ].

(** The lone resistor with a NaN for its resistance. *)
Definition nan_store : Shared.Store :=
  Shared.mkStore [nan] [[("R", 0)]] [[]].

(** A loop driven through a rheostat set above its range. *)
Definition rheostat_loop : Circuit :=
  mkCircuit [ part "s" "socket" (0, 0)%Z (0, 4)%Z [("V", 5%float)];
              part "rh" "rheostat" (0, 0)%Z (4, 0)%Z
                   [("R", 500%float); ("Rmin", 10%float); ("Rmax", 100%float)];
              part "k" "switch_spdt" (4, 0)%Z (0, 4)%Z [] ].

(** A rheostat set above its range. *)
Definition sample_rheostat : Component :=
  mkComponent "rh" "rheostat" (0, 0)%Z (4, 0)%Z
              [("R", 500%float); ("Rmin", 10%float); ("Rmax", 100%float)] [].

(** The size [N] of the system [solve_circuit] sets up for a circuit: the
    nodes besides ground plus the sources. The system with [N = 0] is
    never assembled: the solve returns [ok = true] with empty mappings. *)
Definition system_size (cir : Circuit) : Exc nat :=
  let comps := dict_values (components cir) in
  e <- expand_all comps (mkExpansion [] [] []) ;;
  Ok (List.length (node_numbering (find_ground comps) (expanded e)) +
      List.length (sources (expanded e))).

(** A resistor with both ends on one point: the only node is ground. *)
Definition grounded_resistor : Circuit :=
  mkCircuit [ part "r" "resistor" (0, 0)%Z (0, 0)%Z [("R", 100%float)] ].

(** A resistor that bears the identifier of the surrogate of the switch
    ["k"]: the closed switch feeds 100 ohms, the resistor ["k:t0"] lies
    across the source. *)
Definition colliding_ids : Circuit :=
  mkCircuit [ part "s" "socket" (0, 0)%Z (0, 4)%Z [("V", 10%float)];
              part "k" "switch_spdt" (0, 0)%Z (4, 0)%Z [];
              part "r" "resistor" (4, 0)%Z (0, 4)%Z [("R", 100%float)];
              part "k:t0" "resistor" (0, 0)%Z (0, 4)%Z [("R", 50%float)] ].

(** The sockets of a circuit, in iteration order. *)
Definition circuit_sockets (cir : Circuit) : list Component :=
  filter is_socket (dict_values (components cir)).

(** What marks a surrogate of the compound switch [c]: its kind, a branch
    label other than ["main"], and an identifier made of the parent's
    identifier and the label. *)
Definition surrogate_of (c : Component) (it : Component * string) : Prop :=
  ctype (fst it) = "switch_spst" /\ snd it <> "main" /\
  cid (fst it) = (cid c ++ ":" ++ snd it)%string.

(** The identifier of the solver component registered under a parent and
    a label. *)
Definition solver_id (parent lab : string) : string :=
  if lab =? "main" then parent else (parent ++ ":" ++ lab)%string.

(** The expansion as a list of entries [(solver component, parent, label)]. *)
Definition Entry : Type := (Component * string * string)%type.

Definition entry_comp (t : Entry) : Component := fst (fst t).
Definition entry_parent (t : Entry) : string := snd (fst t).
Definition entry_label (t : Entry) : string := snd t.

(** What the two mappings of the expansion keep of an entry. *)
Definition entry_key (t : Entry) : string * string * string :=
  (cid (entry_comp t), entry_parent t, entry_label t).

Fixpoint expansion_entries (comps : list Component) : Exc (list Entry) :=
  match comps with
  | [] => Ok []
  | c :: rest =>
      items <- solver_items c ;;
      ents <- expansion_entries rest ;;
      Ok (map (fun it => (fst it, cid c, snd it)) items ++ ents)
  end.

Definition register (e : Expansion) (ents : list Entry) : Expansion :=
  fold_left (fun e t => add_solver e (entry_comp t) (entry_parent t) (entry_label t))
            ents e.

(** Two components that differ at most in their properties. *)
Definition same_shape (c c' : Component) : Prop :=
  cid c' = cid c /\ ctype c' = ctype c /\ a c' = a c /\ b c' = b c /\ meta c' = meta c.

(** Ohm's law for a solver component of resistance [R] ([None]: open)
    under the node voltages [nv]. *)
Definition ohm_current (nv : dict Point float) (c : Component) (R : option float)
  : float :=
  match R with
  | Some r => ((pget_or nv (a c) 0 - pget_or nv (b c) 0) / r)%float
  | None => 0%float
  end.

Section Vocabulary.
Variable parse_float_list : string -> list float.

(** [c1] is [c] after one resolution of its resistance (a socket is never
    resolved). *)
Definition stepped (c c1 : Component) : Prop :=
  if is_socket c then c1 = c
  else exists R, effective_resistance parse_float_list c = Ok (R, c1).

(** A component that a resolution of its resistance leaves as it is. *)
Definition settled (c : Component) : Prop :=
  exists R, effective_resistance parse_float_list c = Ok (R, c).

(** How one call of [solve_circuit] changes a component of the circuit:
    only a component that is its own solver component is touched. *)
Definition evolved (c c' : Component) : Prop :=
  match surrogate_count c with
  | None => stepped c c'
  | Some _ => c' = c
  end.

End Vocabulary.



Section Vocabulary2.
Variable parse_float_list : string -> list float.

(** [c'] is [c], or [c] after a resolution of its resistance. *)
Definition resolved (c c' : Component) : Prop :=
  c' = c \/ exists R, effective_resistance parse_float_list c = Ok (R, c').

End Vocabulary2.

(** Two facts the goal seek keeps about its state [(circuit, memo)]: the
    variable component stays in the circuit; and, when its property is
    not clamped by the solve, the property holds the point solved last. *)
Definition variable_present (rq : GoalSeekRequest) (st : Circuit * Cache) : Prop :=
  exists c, sget (components (fst st)) (var_cid rq) = Some c.


(** The goal-seek scenario of the test suite: a 10 V source, a fixed
    100 ohm resistor and the variable resistor in series; the source
    current is driven to 0.05 A. *)
Definition series_loop : Circuit :=
  mkCircuit [ part "s" "socket" (0, 0)%Z (0, 6)%Z [("V", 10%float); ("Iwarn", 5%float)];
              part "rf" "resistor" (0, 0)%Z (6, 0)%Z [("R", 100%float)];
              part "rv" "resistor" (6, 0)%Z (12, 0)%Z [("R", 50%float)];
              part "w1" "wire" (12, 0)%Z (12, 6)%Z [];
              part "w2" "wire" (12, 6)%Z (0, 6)%Z [] ].

Definition seek_series_current : GoalSeekRequest :=
  mkRequest "rv" "R" 0.05
            (mkMeasure (Some "comp") None (Some "s") (Some "Iab") None true)
            1 1000 1e-9 1e-4 80 "auto" false.

(** A source across one resistor; the measurement is the resistor's own
    resistance. *)
Definition resistor_loop : Circuit :=
  mkCircuit [ part "s" "socket" (0, 0)%Z (0, 4)%Z [("V", 10%float)];
              part "r" "resistor" (0, 0)%Z (0, 4)%Z [("R", 50%float)] ].

(** The same loop with the resistor's [R] left to its default. *)
Definition bare_resistor_loop : Circuit :=
  mkCircuit [ part "s" "socket" (0, 0)%Z (0, 4)%Z [("V", 10%float)];
              part "r" "resistor" (0, 0)%Z (0, 4)%Z [] ].

Definition measure_own_resistance (k : string) : MeasureSpec :=
  mkMeasure (Some "comp") None (Some k) (Some "R") None false.

(** A target outside the search range, three iterations allowed. *)
Definition seek_out_of_reach : GoalSeekRequest :=
  mkRequest "r" "R" 5 (measure_own_resistance "r") 1 2 1e-9 1e-6 3 "secant" false.

(** A target met exactly at the lower bound, by the secant method. *)
Definition seek_at_lower_bound : GoalSeekRequest :=
  mkRequest "r" "R" 1 (measure_own_resistance "r") 1 2 1e-9 1e-6 60 "secant" false.






(* ================================================================== *)
(** ** The rest of the container: [add], [delete_at], [find_near] *)

(** [del d[k]] *)
Definition sdel {V : Type} (d : dict string V) (k : string) : dict string V :=
  filter (fun kv => negb (fst kv =? k)) d.

(** [Circuit.add]: the identifier [uuid.uuid4().hex] is an input of the
    model; the keyword arguments arrive as the property mapping. *)
Definition add (cir : Circuit) (fresh : string) (kind : string) (pa pb : Point)
           (ps : dict string float) : string * Circuit :=
  (fresh, mkCircuit (sset (components cir) fresh (mkComponent fresh kind pa pb ps []))).

(** [n / 2] on an integer: the quotient rounded to binary64; a quotient
    beyond the range of a float raises. *)
Definition int_half (n : Z) : Exc float :=
  let q := SF2Prim (binary_normalize prec emax n (-1) false) in
  if isfinite q then Ok q else Raise OverflowError.

(** [round(x)] on a float: the nearest integer, a tie going to the even
    one. *)
Definition py_round (x : float) : Exc Z :=
  match Prim2SF x with
  | S754_nan => Raise ValueError
  | S754_infinity _ => Raise OverflowError
  | S754_zero _ => Ok 0%Z
  | S754_finite s m e =>
      let n :=
        if (0 <=? e)%Z then Z.shiftl (Zpos m) e
        else
          let d := Z.shiftl 1 (- e) in
          let q := (Zpos m / d)%Z in
          let r := (Zpos m mod d)%Z in
          if (2 * r <? d)%Z then q
          else if (d <? 2 * r)%Z then (q + 1)%Z
          else if Z.even q then q else (q + 1)%Z in
      Ok (if s then (- n)%Z else n)
  end.

(** The midpoint test of [delete_at]:
    [int(round(mx)) == p[0] and int(round(my)) == p[1]]. *)
Definition midpoint_hit (c : Component) (p : Point) : Exc bool :=
  mx <- int_half (fst (a c) + fst (b c)) ;;
  my <- int_half (snd (a c) + snd (b c)) ;;
  rx <- py_round mx ;;
  if (rx =? fst p)%Z then
    ry <- py_round my ;;
    Ok (ry =? snd p)%Z
  else Ok false.

(** The loop of [delete_at] over [components.items()]: the key of the
    first component hit at an endpoint or at its rounded midpoint. *)
Fixpoint delete_scan (items : dict string Component) (p : Point) : Exc (option string) :=
  match items with
  | [] => Ok None
  | (k, c) :: rest =>
      if point_eqb (a c) p || point_eqb (b c) p then Ok (Some k)
      else
        hit <- midpoint_hit c p ;;
        if hit then Ok (Some k) else delete_scan rest p
  end.

Definition delete_at (cir : Circuit) (p : Point) : Exc (option string * Circuit) :=
  r <- delete_scan (components cir) p ;;
  match r with
  | Some k => Ok (Some k, mkCircuit (sdel (components cir) k))
  | None => Ok (None, cir)
  end.

Definition manhattan (q p : Point) : Z :=
  (Z.abs (fst q - fst p) + Z.abs (snd q - snd p))%Z.

(** The points [find_near] tries for a component: both endpoints and the
    midpoint by floor division. *)
Definition near_points (c : Component) : list Point :=
  [a c; b c; ((fst (a c) + fst (b c)) / 2, (snd (a c) + snd (b c)) / 2)%Z].

(** The scan of [find_near]: [(best, bestd)] after the points of the
    components in [comps]. *)
Definition near_scan (comps : list Component) (p : Point) (st : option Component * Z)
  : option Component * Z :=
  fold_left
    (fun (st : option Component * Z) (c : Component) =>
       fold_left
         (fun (st : option Component * Z) (q : Point) =>
            let d := manhattan q p in
            if (d <? snd st)%Z then (Some c, d) else st)
         (near_points c) st)
    comps st.

Definition find_near (cir : Circuit) (p : Point) : option Component :=
  let '(best, bestd) :=
    near_scan (dict_values (components cir)) p (None, (10 ^ 9)%Z) in
  if (bestd <=? 1)%Z then best else None.

(* ================================================================== *)
(** ** The native full scale of a meter, and the finiteness test *)

Section Meters.
Variable parse_float_list : string -> list float.

Definition meter_native_full_scale (comp : Component) : option float :=
  match meter_full_scale parse_float_list comp with
  | Some fs => Some fs
  | None =>
      if ctype comp =? "galvanometer" then Some (prop comp "Ifs" 50e-6) else None
  end.

End Meters.

Definition _is_finite (x : float) : bool :=
  if negb (x =? x)%float then false
  else if (x =? infinity)%float || (x =? neg_infinity)%float then false
  else true.

(* ================================================================== *)
(** ** Further vocabulary *)

Section Vocabulary3.
Variable parse_float_list : string -> list float.

(** A component whose resistance is resolved without an exception. *)
Definition resolves (c : Component) : Prop :=
  exists R c', effective_resistance parse_float_list c = Ok (R, c').

End Vocabulary3.

(** [c'] is [c], or the rheostat [c] with its [R] overwritten by the
    clamped value. *)
Definition clamp_written (c c' : Component) : Prop :=
  c' = c \/ (ctype c = "rheostat" /\ c' = set_prop c "R" (rheostat_R c)).

(** The result [solve_circuit] returns for a singular system. *)
Definition singular_result : SolveResult :=
  mkSolveResult false [] [] [WarnSingular] true [] [].

(** The current [comp_i] holds for a component of the circuit: a source
    reads its solver current; any other component reads its ["main"]
    branch, else the branch with the least label, else its solver
    current. *)
Definition component_current (sci : dict string float)
           (cbi : dict string (dict string float)) (oc : Component) : float :=
  if is_socket oc then sget_or sci (cid oc) 0%float
  else
    match sget cbi (cid oc) with
    | Some ((_ :: _) as branches) =>
        match sget branches "main" with
        | Some v => v
        | None => sget_or branches (first_key branches) 0%float
        end
    | _ => sget_or sci (cid oc) 0%float
    end.

(** A 10 V source that warns above 10 mA, across 100 ohms. *)
Definition overdriven_socket : Component :=
  mkComponent "s" "socket" (0, 0)%Z (0, 4)%Z [("V", 10%float); ("Iwarn", 0.01%float)] [].

Definition overdriven_loop : Circuit :=
  mkCircuit [ ("s", overdriven_socket);
              part "r" "resistor" (0, 0)%Z (0, 4)%Z [("R", 100%float)] ].

(** A snapshot that lists the identifier ["r"] twice. *)
Definition repeated_id_snapshot : json :=
  JObj [ ("components",
          JList [ comp_to_json (snd (part "r" "resistor" (0, 0)%Z (4, 0)%Z [("R", 100%float)]));
                  comp_to_json (snd (part "r" "resistor" (0, 0)%Z (4, 0)%Z [("R", 220%float)])) ]) ].

(** Two circuits with the same keys, in order, whose components differ at
    most in their properties. *)
Definition same_layout (cir cir' : Circuit) : Prop :=
  dict_keys (components cir') = dict_keys (components cir) /\
  Forall2 same_shape (dict_values (components cir)) (dict_values (components cir')).

(** What every pair in the memo of [eval_err] satisfies: the error is the
    measured value minus the target, and both are finite. *)
Definition sound_pair (rq : GoalSeekRequest) (r : option (float * float)) : Prop :=
  match r with
  | Some (e, m) => e = (m - target rq)%float /\ isfinite m = true /\ isfinite e = true
  | None => True
  end.

Definition memo_sound (rq : GoalSeekRequest) (st : Circuit * Cache) : Prop :=
  Forall (fun kv => sound_pair rq (snd kv)) (snd st).

(** How the main loop of the goal seek may end within [n] iterations: by
    returning a result that meets the tolerance, or by falling out. *)
Definition seek_exit_ok (rq : GoalSeekRequest) (n : nat) (ex : LoopExit) : Prop :=
  match ex with
  | Returned out =>
      gs_ok out = true /\
      is_done rq (gs_error out) (gs_achieved out) = true /\
      gs_error out = (gs_achieved out - target rq)%float /\
      isfinite (gs_achieved out) = true /\
      gs_target out = target rq /\
      gs_message out = "ok" /\
      In (gs_value out, gs_achieved out) (gs_history out) /\
      gs_iterations out <= n
  | FellOut _ s => iterations s <= n
  end.
Lemma SFcompare_lt_trans (x y z : spec_float) :
  SFcompare x y = Some Lt -> SFcompare y z = Some Lt -> SFcompare x z = Some Lt.
Proof.
  destruct x as [sx|sx| |sx mx ex], y as [sy|sy| |sy my ey], z as [sz|sz| |sz mz ez];
    simpl; try discriminate; try (intros; assumption);
    repeat match goal with s : bool |- _ => destruct s end;
    simpl; try discriminate; try reflexivity; try (intros; assumption).
  all: change (Pos.compare_cont Eq) with Pos.compare.
  all: destruct (Z.compare_spec ex ey), (Z.compare_spec ey ez), (Z.compare_spec ex ez);
    try discriminate; try reflexivity; try lia;
    destruct (Pos.compare_spec mx my), (Pos.compare_spec my mz), (Pos.compare_spec mx mz);
    simpl; try discriminate; try reflexivity; try lia.
Qed.

Lemma SFcompare_lt_irrefl (x : spec_float) : SFcompare x x <> Some Lt.
Proof.
  destruct x as [s|s| |s m e]; simpl; try discriminate;
    destruct s; try discriminate;
    rewrite Z.compare_refl; change (Pos.compare_cont Eq) with Pos.compare;
    rewrite Pos.compare_refl; discriminate.
Qed.

Lemma SFcompare_lt_asym (x y : spec_float) :
  SFcompare x y = Some Lt -> SFcompare y x <> Some Lt.
Proof.
  intros H1 H2. exact (SFcompare_lt_irrefl x (SFcompare_lt_trans _ _ _ H1 H2)).
Qed.

Lemma ltb_lt (x y : float) : (x <? y)%float = true <-> SFcompare (Prim2SF x) (Prim2SF y) = Some Lt.
Proof.
  rewrite ltb_spec. unfold SFltb.
  destruct (SFcompare (Prim2SF x) (Prim2SF y)) as [[| |]|]; split; congruence.
Qed.

Lemma ltb_irrefl (x : float) : (x <? x)%float = false.
Proof.
  destruct (x <? x)%float eqn:E; [|reflexivity].
  apply ltb_lt in E. now apply SFcompare_lt_irrefl in E.
Qed.

Lemma ltb_trans (x y z : float) :
  (x <? y)%float = true -> (y <? z)%float = true -> (x <? z)%float = true.
Proof.
  rewrite !ltb_lt. apply SFcompare_lt_trans.
Qed.

Lemma ltb_asym (x y : float) : (x <? y)%float = true -> (y <? x)%float = false.
Proof.
  intros H. destruct (y <? x)%float eqn:E; [|reflexivity].
  pose proof (ltb_trans _ _ _ H E) as T. rewrite ltb_irrefl in T. discriminate.
Qed.

(* dict lemmas *)
Lemma sget_sset_same {V} (d : dict string V) k v : sget (sset d k v) k = Some v.
Proof.
  unfold sget, sset. induction d as [|[k' v'] d IH]; simpl.
  - now rewrite String.eqb_refl.
  - destruct (String.eqb k' k) eqn:E; simpl; rewrite E; auto.
Qed.

Lemma sget_sset_other {V} (d : dict string V) k k' v :
  k' <> k -> sget (sset d k v) k' = sget d k'.
Proof.
  unfold sget, sset. intros N. induction d as [|[k0 v0] d IH]; simpl.
  - destruct (String.eqb k k') eqn:E; [apply String.eqb_eq in E; congruence|reflexivity].
  - destruct (String.eqb k0 k) eqn:E; simpl.
    + apply String.eqb_eq in E. subst k0.
      destruct (String.eqb k k') eqn:E'; [apply String.eqb_eq in E'; congruence|reflexivity].
    + destruct (String.eqb k0 k'); auto.
Qed.

Lemma sset_sset_same {V} (d : dict string V) k v v' :
  sset (sset d k v) k v' = sset d k v'.
Proof.
  unfold sset. induction d as [|[k0 v0] d IH]; simpl.
  - now rewrite String.eqb_refl.
  - destruct (String.eqb k0 k) eqn:E; simpl; rewrite E; [reflexivity|now rewrite IH].
Qed.

Section Proofs.
Variable parse_float_list : string -> list float.
Local Abbreviation eff := (effective_resistance parse_float_list).

Lemma eff_rheostat (c : Component) :
  ctype c = "rheostat"%string ->
  eff c =
  let Rc := pymax (pymin (prop c "R" 100) (snd (rheostat_bounds c))) (fst (rheostat_bounds c)) in
  Ok (Some (pymax Rc 1e-6), set_prop c "R" Rc).
Proof.
  intros Hc. unfold effective_resistance, rheostat_bounds. rewrite Hc. cbn [String.eqb Ascii.eqb Bool.eqb].
  destruct (_ <? _)%float; reflexivity.
Qed.

Lemma rheostat_bounds_ordered (c : Component) :
  (snd (rheostat_bounds c) <? fst (rheostat_bounds c))%float = false.
Proof.
  unfold rheostat_bounds. cbv zeta.
  destruct (prop c "Rmax" _ <? prop c "Rmin" _)%float eqn:E; simpl;
    [now apply ltb_asym | exact E].
Qed.

Lemma code_clamp_is_clamp_into (lo hi x : float) :
  (hi <? lo)%float = false -> pymax (pymin x hi) lo = clamp_into lo hi x.
Proof.
  intros Hb. unfold pymax, pymin, clamp_into.
  destruct (hi <? x)%float eqn:E1.
  - rewrite Hb. destruct (x <? lo)%float eqn:E2; [|reflexivity].
    rewrite (ltb_trans _ _ _ E1 E2) in Hb. discriminate.
  - reflexivity.
Qed.

Lemma clamp_into_range (lo hi x : float) :
  (hi <? lo)%float = false ->
  (clamp_into lo hi x <? lo)%float = false /\ (hi <? clamp_into lo hi x)%float = false.
Proof.
  intros Hb. unfold clamp_into.
  destruct (x <? lo)%float eqn:E1.
  - now rewrite ltb_irrefl.
  - destruct (hi <? x)%float eqn:E2.
    + now rewrite ltb_irrefl.
    + now split.
Qed.

Theorem rheostat_clamps_and_writes_back (c : Component) :
  ctype c = "rheostat"%string ->
  let lo := fst (rheostat_bounds c) in
  let hi := snd (rheostat_bounds c) in
  let Rc := clamp_into lo hi (prop c "R" 100) in
  eff c = Ok (Some (pymax Rc 1e-6), set_prop c "R" Rc) /\
  sget (props (set_prop c "R" Rc)) "R" = Some Rc /\
  (Rc <? lo)%float = false /\ (hi <? Rc)%float = false.
Proof.
  intros Hc lo hi Rc.
  pose proof (rheostat_bounds_ordered c) as Hb.
  split; [|split].
  - rewrite (eff_rheostat c Hc). cbv zeta.
    now rewrite (code_clamp_is_clamp_into _ _ _ Hb).
  - apply sget_sset_same.
  - apply clamp_into_range, Hb.
Qed.

Ltac flt_sat :=
  repeat match goal with
  | H1 : (?x <? ?y)%float = true, H2 : (?y <? ?z)%float = true |- _ =>
      lazymatch goal with
      | _ : (x <? z)%float = true |- _ => fail
      | _ => pose proof (ltb_trans x y z H1 H2)
      end
  end.

Ltac flt_done :=
  flt_sat;
  try match goal with
      | H : (?x <? ?x)%float = true |- _ => rewrite ltb_irrefl in H; discriminate
      end;
  try congruence.

Ltac flt_step :=
  match goal with
  | |- context [(?x <? ?y)%float] =>
      lazymatch x with
      | context [if _ then _ else _] => fail
      | _ =>
          lazymatch y with
          | context [if _ then _ else _] => fail
          | _ => let E := fresh "E" in destruct (x <? y)%float eqn:E
          end
      end
  end.

Ltac flt_cases :=
  cbn [fst snd];
  repeat (flt_step; cbn [fst snd]);
  try reflexivity; flt_done.

Lemma clampR_idem (R Rmin : float) (o : option float) :
  clampR (clampR R Rmin o) Rmin o = clampR R Rmin o.
Proof.
  unfold clampR, pymax, pymin. destruct o as [Rmax|]; cbv zeta.
  - flt_cases.
  - flt_cases.
Qed.

Lemma prop_set_same (c : Component) k v d : prop (set_prop c k v) k d = v.
Proof. unfold prop, sget_or, dict_get_or, set_prop; simpl. fold (@sget float). fold (@sset float).
  now rewrite sget_sset_same. Qed.

Lemma prop_set_other (c : Component) k k' v d :
  k' <> k -> prop (set_prop c k v) k' d = prop c k' d.
Proof. intros N. unfold prop, sget_or, dict_get_or, set_prop; simpl. fold (@sget float). fold (@sset float).
  now rewrite sget_sset_other. Qed.



Lemma set_prop_set_prop (c : Component) k v v' :
  set_prop (set_prop c k v) k v' = set_prop c k v'.
Proof. unfold set_prop; simpl. now rewrite sset_sset_same. Qed.

Lemma eff_rheostat' (c : Component) :
  ctype c = "rheostat"%string ->
  eff c = Ok (Some (pymax (rheostat_R c) 1e-6), set_prop c "R" (rheostat_R c)).
Proof.
  intros Hc. rewrite (eff_rheostat c Hc). cbv zeta. unfold rheostat_R, clampR, rheostat_bounds.
  cbv zeta.
  assert (HR : forall d, prop c "Rmax" d =
                         match sget (props c) "Rmax" with Some v => v | None => d end)
    by reflexivity.
  rewrite !HR. destruct (sget (props c) "Rmax"); reflexivity.
Qed.

Lemma rheostat_R_settled (c : Component) :
  rheostat_R (set_prop c "R" (rheostat_R c)) = rheostat_R c.
Proof.
  unfold rheostat_R at 1. rewrite prop_set_same.
  rewrite prop_set_other by discriminate.
  replace (sget (props (set_prop c "R" (rheostat_R c))) "Rmax") with (sget (props c) "Rmax").
  - unfold rheostat_R. apply clampR_idem.
  - unfold set_prop; simpl. fold (@sset float). now rewrite sget_sset_other by discriminate.
Qed.

Lemma eff_cases (c : Component) R c' :
  eff c = Ok (R, c') ->
  c' = c \/
  (ctype c = "rheostat"%string /\ c' = set_prop c "R" (rheostat_R c) /\
   R = Some (pymax (rheostat_R c) 1e-6)).
Proof.
  intros H. destruct (String.eqb_spec (ctype c) "rheostat") as [Hc|Hc].
  - right. rewrite (eff_rheostat' c Hc) in H. inversion H; subst. auto.
  - left. apply String.eqb_neq in Hc. unfold effective_resistance in H.
    rewrite Hc in H.
    repeat match type of H with
           | (if ?t then _ else _) = _ => destruct t
           | bind ?m _ = _ => destruct m; simpl in H
           end; inversion H; reflexivity.
Qed.

Lemma eff_idem (c : Component) R c' :
  eff c = Ok (R, c') -> eff c' = Ok (R, c').
Proof.
  intros H. destruct (eff_cases c R c' H) as [->|(Hc & -> & ->)]; [exact H|].
  rewrite eff_rheostat' by exact Hc.
  rewrite rheostat_R_settled, set_prop_set_prop. reflexivity.
Qed.

Lemma eff_fields (c : Component) R c' :
  eff c = Ok (R, c') ->
  cid c' = cid c /\ ctype c' = ctype c /\ a c' = a c /\ b c' = b c /\ meta c' = meta c.
Proof.
  intros H. destruct (eff_cases c R c' H) as [->|(Hc & -> & ->)]; simpl; auto.
Qed.
End Proofs.
Section MeterProofs.
Variable parse_float_list : string -> list float.

(** C10 (code bug): a galvanometer with a range configured and a coil
    resistance of exactly zero makes [effective_resistance] raise
    [ZeroDivisionError]: it returns neither "open" nor a resistance floored
    at [R_NEAR_SHORT]. *)
Theorem galvanometer_zero_coil_raises :
  parse_float_list "1" = [1%float] ->
  effective_resistance parse_float_list shorted_galvanometer = Raise ZeroDivisionError.
Proof.
  intros Hp.
  unfold effective_resistance, meter_effective_resistance, meter_full_scale,
    meter_ranges. cbn. rewrite Hp. vm_compute. reflexivity.
Qed.
End MeterProofs.

Lemma galvanometer_zero_coil_raises_witness :
  effective_resistance parse_unsigned_list shorted_galvanometer = Raise ZeroDivisionError.
Proof.
  apply (galvanometer_zero_coil_raises parse_unsigned_list). reflexivity.
Defined.

(** The same component inside a loop: the solve raises while stamping. *)
Example galvanometer_loop_raises :
  solve_circuit parse_unsigned_list galvanometer_loop = Raise ZeroDivisionError.
Proof. vm_compute. reflexivity. Qed.

Lemma rheostat_clamps_and_writes_back_witness :
  effective_resistance parse_unsigned_list sample_rheostat
  = Ok (Some 100%float, set_prop sample_rheostat "R" 100%float).
Proof.
  pose proof (rheostat_clamps_and_writes_back parse_unsigned_list sample_rheostat eq_refl) as H.
  cbv zeta in H. destruct H as [H _]. exact H.
Defined.

(* ------------------------------------------------------------------ *)
(** ** The linear solver *)

Lemma find_pivot_fold (M : matrix) (col : nat) (l : list nat) (p0 : nat) (lo hi : nat) :
  lo <= p0 < hi ->
  Forall (fun r => lo <= r < hi) l ->
  forall b0, b0 = abs (mget M p0 col) ->
  let pb := fold_left
              (fun (pb : nat * float) (r : nat) =>
                 let v := abs (mget M r col) in
                 if (snd pb <? v)%float then (r, v) else pb)
              l (p0, b0) in
  lo <= fst pb < hi /\ snd pb = abs (mget M (fst pb) col).
Proof.
  intros Hp Hl. revert p0 Hp. induction Hl as [|r l Hr Hl IH]; intros p0 Hp b0 Hb; simpl.
  - auto.
  - destruct (b0 <? abs (mget M r col))%float.
    + apply IH; auto.
    + apply IH; auto.
Qed.

Lemma find_pivot_candidate (M : matrix) (n col : nat) :
  col < n ->
  col <= fst (find_pivot M n col) < n /\
  snd (find_pivot M n col) = abs (mget M (fst (find_pivot M n col)) col).
Proof.
  intros Hc. unfold find_pivot.
  apply find_pivot_fold; [lia| |reflexivity].
  apply Forall_forall. intros r Hr. apply in_seq in Hr. lia.
Qed.

Lemma elim_column_singular (n col : nat) (M : matrix) (x : list float) :
  col < n ->
  (forall r, col <= r < n -> (abs (mget M r col) <? eps)%float = true) ->
  elim_column n col (M, x) = Ok None.
Proof.
  intros Hc Hall. unfold elim_column.
  destruct (find_pivot_candidate M n col Hc) as [Hr Hb].
  destruct (find_pivot M n col) as [pivot best]. simpl in Hr, Hb.
  rewrite Hb, (Hall pivot Hr). reflexivity.
Qed.

Lemma elim_columns_app (n : nat) (l1 l2 : list nat) (st : matrix * list float) :
  elim_columns n (l1 ++ l2) st =
  (r <- elim_columns n l1 st ;;
   match r with
   | None => Ok None
   | Some st' => elim_columns n l2 st'
   end).
Proof.
  revert st. induction l1 as [|c l1 IH]; intros st; simpl.
  - reflexivity.
  - destruct (elim_column n c st) as [[st'|]|e]; simpl; auto.
Qed.

Lemma solve_linear_singular (A : matrix) (bv : list float) (col : nat) M x :
  col < List.length A ->
  elim_columns (List.length A) (seq 0 col) (A, bv) = Ok (Some (M, x)) ->
  (forall r, col <= r < List.length A -> (abs (mget M r col) <? eps)%float = true) ->
  solve_linear A bv = Ok None.
Proof.
  intros Hc Hreach Hall. unfold solve_linear.
  replace (seq 0 (List.length A))
    with (seq 0 col ++ col :: seq (S col) (List.length A - S col)).
  - rewrite elim_columns_app, Hreach. cbn [bind elim_columns].
    rewrite (elim_column_singular _ _ _ _ Hc Hall). reflexivity.
  - replace (List.length A) with (col + S (List.length A - S col)) at 2 by lia.
    rewrite seq_app. simpl. reflexivity.
Qed.

Section SolveProofs.
Variable parse_float_list : string -> list float.
Local Abbreviation eff := (effective_resistance parse_float_list).
Local Abbreviation solve := (solve_circuit parse_float_list).

(** C2: when the elimination of the assembled system reaches a column in
    which every candidate pivot is below [1e-12] in absolute value,
    [solve_circuit] returns [ok = false], [singular = true], the singular
    warning as the only warning, and empty voltage and current maps. *)
Theorem singular_pivot_reported (cir : Circuit) (A : matrix) (bv : list float)
        (col : nat) (M : matrix) (x : list float) :
  assembled_system parse_float_list cir = Ok (Some (A, bv)) ->
  col < List.length A ->
  elim_columns (List.length A) (seq 0 col) (A, bv) = Ok (Some (M, x)) ->
  (forall r, col <= r < List.length A -> (abs (mget M r col) <? eps)%float = true) ->
  exists res cir',
    solve cir = Ok (res, cir') /\
    ok res = false /\ singular res = true /\
    warnings res = [WarnSingular] /\ node_v res = [] /\ comp_i res = [].
Proof.
  intros Hsys Hc Hreach Hall.
  pose proof (solve_linear_singular A bv col M x Hc Hreach Hall) as Hsing.
  unfold assembled_system in Hsys. unfold solve_circuit, solve_expanded.
  destruct (expand_all _ _) as [e|err]; simpl in *; [|discriminate].
  destruct (Nat.eqb _ 0); [discriminate|].
  destruct (mna_system parse_float_list _ _ _) as [[[A' bv'] ex]|err]; simpl in *;
    [|discriminate].
  inversion Hsys; subst A' bv'. rewrite Hsing. simpl.
  eexists _, _. repeat split.
Qed.

End SolveProofs.

Lemma singular_pivot_reported_witness :
  exists res cir',
    solve_circuit parse_unsigned_list conflicting_sources = Ok (res, cir') /\
    ok res = false /\ singular res = true /\
    warnings res = [WarnSingular] /\ node_v res = [] /\ comp_i res = [].
Proof.
  apply (singular_pivot_reported parse_unsigned_list conflicting_sources
           [[0; 1; 1]; [1; 0; 0]; [1; 0; 0]]%float [0; 5; 3]%float 2
           [[1; 0; 0]; [0; 1; 1]; [0; 0; 0]]%float [5; 0; -2]%float).
  - vm_compute. reflexivity.
  - simpl. lia.
  - vm_compute. reflexivity.
  - intros r Hr. simpl in Hr. assert (r = 2) by lia. subst r. vm_compute. reflexivity.
Defined.

(* ------------------------------------------------------------------ *)
(** ** JSON projection *)

Lemma all_some_props (ps : dict string float) :
  all_some (map (fun kv => option_map (pair (fst kv)) (json_num (snd kv)))
                (map (fun kv => (fst kv, JNum (snd kv))) ps)) = Some ps.
Proof.
  induction ps as [|[k v] ps IH]; simpl; [reflexivity|]. now rewrite IH.
Qed.

Lemma all_some_meta (ms : dict string string) :
  all_some (map (fun kv => option_map (pair (fst kv)) (json_str (snd kv)))
                (map (fun kv => (fst kv, JStr (snd kv))) ms)) = Some ms.
Proof.
  induction ms as [|[k v] ms IH]; simpl; [reflexivity|]. now rewrite IH.
Qed.

Lemma comp_of_json_to_json (c : Component) : comp_of_json (comp_to_json c) = Some c.
Proof.
  destruct c as [i t [ax ay] [bx by_] ps ms].
  unfold comp_of_json, comp_to_json, json_dict. cbn.
  rewrite all_some_props, all_some_meta. reflexivity.
Qed.

Lemma sset_fresh {V} (d : dict string V) (k : string) (v : V) :
  ~ In k (map fst d) -> sset d k v = d ++ [(k, v)].
Proof.
  unfold sset. induction d as [|[k' v'] d IH]; simpl; intros N; [reflexivity|].
  destruct (String.eqb_spec k' k) as [->|Hne].
  - exfalso. apply N. now left.
  - rewrite IH; [reflexivity|]. intros H. apply N. now right.
Qed.

Lemma sset_keys_in {V : Type} (d : dict string V) (k : string) (v : V) (x : string) :
  In x (map fst (sset d k v)) -> x = k \/ In x (map fst d).
Proof.
  unfold sset. induction d as [|[k' v'] d IH]; cbn.
  - intuition.
  - destruct (String.eqb k' k); cbn; intuition.
Qed.

Lemma sset_nodup {V : Type} (d : dict string V) (k : string) (v : V) :
  NoDup (map fst d) -> NoDup (map fst (sset d k v)).
Proof.
  unfold sset. induction d as [|[k' v'] d IH]; cbn; intros Hnd.
  - repeat constructor. intros [].
  - inversion Hnd as [|? ? Hn Hnd']; subst.
    destruct (String.eqb_spec k' k) as [->|Hne]; cbn; constructor; auto.
    intros Hin. apply sset_keys_in in Hin. destruct Hin as [->|Hin]; auto.
Qed.

Lemma sget_in {V : Type} (d : dict string V) (k : string) (v : V) :
  sget d k = Some v -> In (k, v) d.
Proof.
  unfold sget. induction d as [|[k' v'] d IH]; cbn; [discriminate|].
  destruct (String.eqb_spec k' k) as [->|Hne]; intros H.
  - left. congruence.
  - right. auto.
Qed.

Lemma load_items_values (l d : dict string Component) :
  NoDup (map fst (d ++ l)) ->
  Forall (fun kc => cid (snd kc) = fst kc) l ->
  load_items (map comp_to_json (map snd l)) d = Some (d ++ l).
Proof.
  revert d. induction l as [|[k c] l IH]; intros d Hnd Hk; simpl.
  - now rewrite app_nil_r.
  - rewrite comp_of_json_to_json. inversion Hk as [|? ? Hc Hk']; subst. simpl in Hc.
    rewrite Hc. rewrite sset_fresh.
    + rewrite IH; [now rewrite <- app_assoc| |assumption].
      now rewrite <- app_assoc.
    + rewrite map_app in Hnd. simpl in Hnd.
      apply NoDup_remove_2 in Hnd. intros H. apply Hnd. apply in_or_app. now left.
Qed.

(** C7: serialising a circuit and loading the result back gives the same
    circuit: the same identifiers in the same order and, under each, the
    same kind, endpoints, properties and metadata. *)
Theorem json_round_trip (cir : Circuit) :
  well_keyed cir -> from_json (to_json cir) = Some cir.
Proof.
  intros [Hnd Hk]. unfold from_json, to_json. cbn.
  unfold dict_values. rewrite (load_items_values (components cir) []); simpl.
  - now destruct cir.
  - exact Hnd.
  - exact Hk.
Qed.

Lemma json_round_trip_witness : from_json (to_json open_loop) = Some open_loop.
Proof.
  apply json_round_trip. split.
  - repeat constructor; simpl; intuition discriminate.
  - repeat constructor.
Defined.

(* ------------------------------------------------------------------ *)
(** ** Snapshot history *)

(** The snapshot [to_json] takes shows the JSON value of the circuit. *)
Lemma to_json_shown (s : Shared.Store) (cir : Shared.LiveCircuit) :
  shown s (Shared.to_json cir) = to_json (circuit_of s cir).
Proof.
  unfold shown, to_json, Shared.to_json, circuit_of, dict_values. cbn [components].
  now rewrite !map_map.
Qed.

(** [record] returns at once when it does not push, and appends the
    snapshot, cuts the stack and clears the redo stack when it does. *)
Lemma record_unchanged (s : Shared.Store) (h : Shared.CircuitHistory)
      (cir : Shared.LiveCircuit) :
  pushes s h cir = false -> Shared.record s h cir = h.
Proof.
  unfold pushes, Shared.record. intros H.
  destruct (Shared.undo_stack h); [discriminate|].
  apply negb_false_iff in H. now rewrite H.
Qed.

Lemma record_pushed (s : Shared.Store) (h : Shared.CircuitHistory)
      (cir : Shared.LiveCircuit) :
  pushes s h cir = true ->
  Shared.record s h cir
  = Shared.mkHistory (Shared.max_len h)
      (if (Z.of_nat (List.length (Shared.undo_stack h ++ [Shared.to_json cir]))
           >? Shared.max_len h)%Z
       then slice_from (Shared.undo_stack h ++ [Shared.to_json cir]) (- Shared.max_len h)
       else Shared.undo_stack h ++ [Shared.to_json cir])
      [].
Proof.
  unfold pushes, Shared.record. intros H.
  destruct (Shared.undo_stack h); [reflexivity|].
  apply negb_true_iff in H. now rewrite H.
Qed.

(** C5, as the code has it: [record] clears the redo stack when it pushes,
    that is when the undo stack is empty or its top is not [==] to the
    snapshot of the circuit; [can_redo] is then false. *)
Theorem record_push_clears_redo (s : Shared.Store) (h : Shared.CircuitHistory)
        (cir : Shared.LiveCircuit) :
  pushes s h cir = true ->
  Shared.can_redo (Shared.record s h cir) = false.
Proof.
  intros H. rewrite (record_pushed s h cir H). reflexivity.
Qed.

Lemma record_push_clears_redo_witness :
  Shared.can_redo (Shared.mkHistory 200 [Shared.to_json lone_live]
                                    [Shared.to_json pair_live]) = true /\
  Shared.can_redo
    (Shared.record pair_store
       (Shared.mkHistory 200 [Shared.to_json lone_live] [Shared.to_json pair_live])
       pair_live) = false.
Proof.
  split; [reflexivity|].
  apply record_push_clears_redo. vm_compute. reflexivity.
Defined.

(** C5 as stated fails: after an undo, recording the circuit the undo
    restored leaves the redo stack as it is. A resistor is recorded, a
    second one is added and recorded, and the undo loads the first
    snapshot: the circuit then holds a copy of the first resistor, whose
    mapping holds the float of the original, the top of the undo stack
    is [==] to its snapshot, and [record] returns before it clears the
    redo stack. *)
Lemma record_keeps_redo_counterexample :
  exists s h cir,
    Shared.undo pair_store
      (Shared.record pair_store
         (Shared.record lone_store (Shared.mkHistory 200 [] []) lone_live)
         pair_live)
      pair_live = (true, s, h, cir) /\
    circuit_of s cir = lone_resistor /\
    pushes s h cir = false /\
    Shared.can_redo (Shared.record s h cir) = true.
Proof.
  eexists _, _, _. split; [vm_compute; reflexivity|].
  repeat split; vm_compute; reflexivity.
Qed.

(** The snapshot on the stack shares the mapping of the live component:
    a write to the property in place shows in the snapshot, and the
    next [record] finds the top equal and pushes nothing. *)
Example record_after_write_in_place :
  exists h s,
    h = Shared.record lone_store (Shared.mkHistory 200 [] []) lone_live /\
    s = Shared.write_prop lone_store
          (Shared.mkItem "r" "resistor" (0, 0)%Z (4, 0)%Z 0 0) "R" 220 /\
    map (shown lone_store) (Shared.undo_stack h) = [to_json lone_resistor] /\
    circuit_of s lone_live = lone_resistor_changed /\
    map (shown s) (Shared.undo_stack h) = [to_json lone_resistor_changed] /\
    Shared.record s h lone_live = h.
Proof.
  eexists _, _. split; [reflexivity|]. split; [reflexivity|].
  repeat split; vm_compute; reflexivity.
Qed.

(** A NaN is equal to itself for [==] on snapshots: the snapshot of an
    unchanged circuit that holds one is equal to the top, through the
    shared mapping, and so is the snapshot of the copy an undo loads,
    through the shared float. *)
Example record_nan_unchanged :
  exists h s cir,
    h = Shared.record nan_store (Shared.mkHistory 200 [] []) lone_live /\
    pushes nan_store h lone_live = false /\
    Shared.apply_json nan_store lone_live (Shared.to_json lone_live) = (s, cir) /\
    Shared.to_json cir <> Shared.to_json lone_live /\
    pushes s h cir = false.
Proof.
  eexists _, _, _. split; [reflexivity|]. split; [vm_compute; reflexivity|].
  split; [vm_compute; reflexivity|]. split; [|vm_compute; reflexivity].
  intros H. vm_compute in H. discriminate.
Qed.


(** *** [undo] and [redo] over the store show [undo] and [redo] on values *)

Lemma extends_refl (s : Shared.Store) : extends s s.
Proof.
  split; [reflexivity|]. split; exists []; now rewrite app_nil_r.
Qed.

Lemma extends_trans (s1 s2 s3 : Shared.Store) :
  extends s1 s2 -> extends s2 s3 -> extends s1 s3.
Proof.
  intros (Hf & [P HP] & [M HM]) (Hf' & [P' HP'] & [M' HM']).
  split; [congruence|]. split.
  - exists (P ++ P'). now rewrite HP', HP, app_assoc.
  - exists (M ++ M'). now rewrite HM', HM, app_assoc.
Qed.

Lemma item_in_extends (s s' : Shared.Store) (it : Shared.Item) :
  extends s s' -> item_in s it -> item_in s' it.
Proof.
  intros (_ & [P HP] & [M HM]) [H1 H2]. unfold item_in.
  rewrite HP, HM, !length_app. lia.
Qed.

Lemma component_of_extends (s s' : Shared.Store) (it : Shared.Item) :
  extends s s' -> item_in s it -> component_of s' it = component_of s it.
Proof.
  intros (Hf & [P HP] & [M HM]) [H1 H2].
  unfold component_of, shown_props, Shared.props_of, Shared.meta_of, Shared.float_at.
  rewrite Hf, HP, HM, !app_nth1 by assumption. reflexivity.
Qed.

Lemma shown_extends (s s' : Shared.Store) (snap : Shared.Snapshot) :
  extends s s' -> Forall (item_in s) snap -> shown s' snap = shown s snap.
Proof.
  intros He Hin. unfold shown.
  assert (E : map (fun it => comp_to_json (component_of s' it)) snap
              = map (fun it => comp_to_json (component_of s it)) snap).
  { apply map_ext_in. intros it Hit. rewrite (component_of_extends s s'); auto.
    rewrite Forall_forall in Hin. auto. }
  now rewrite E.
Qed.

Lemma history_shown_extends (s s' : Shared.Store) (h : Shared.CircuitHistory) :
  extends s s' -> history_in s h -> history_shown s' h = history_shown s h.
Proof.
  intros He [Hu Hr]. unfold history_shown. f_equal; apply map_ext_in; intros x Hx;
    apply shown_extends; auto; rewrite Forall_forall in Hu, Hr; auto.
Qed.

Lemma copy_item_extends (s : Shared.Store) (it : Shared.Item) :
  extends s (fst (Shared.copy_item s it)).
Proof. split; [reflexivity|]. split; eexists; reflexivity. Qed.

Lemma copy_item_in (s : Shared.Store) (it : Shared.Item) :
  item_in (fst (Shared.copy_item s it)) (snd (Shared.copy_item s it)).
Proof. unfold item_in. cbn. rewrite !length_app. cbn. lia. Qed.

Lemma component_of_copy (s : Shared.Store) (it : Shared.Item) :
  component_of (fst (Shared.copy_item s it)) (snd (Shared.copy_item s it))
  = component_of s it.
Proof.
  unfold component_of, shown_props, Shared.props_of, Shared.meta_of, Shared.float_at. cbn.
  rewrite !nth_middle. reflexivity.
Qed.

Lemma map_sset {V W : Type} (f : V -> W) (d : dict string V) (k : string) (v : V) :
  map (fun kc => (fst kc, f (snd kc))) (sset d k v)
  = sset (map (fun kc => (fst kc, f (snd kc))) d) k (f v).
Proof.
  unfold sset. induction d as [|[k' v'] d IH]; cbn; [reflexivity|].
  destruct (String.eqb k' k); cbn; [reflexivity|]. now rewrite IH.
Qed.

Lemma sset_Forall {V : Type} (P : V -> Prop) (d : dict string V) (k : string) (v : V) :
  Forall (fun kc => P (snd kc)) d -> P v -> Forall (fun kc => P (snd kc)) (sset d k v).
Proof.
  unfold sset. intros Hd Hv. induction Hd as [|[k' v'] d Hx Hd IH]; cbn.
  - constructor; [exact Hv|constructor].
  - destruct (String.eqb k' k); constructor; auto.
Qed.

(** Loading a snapshot over the store shows the loading of the value the
    snapshot shows. *)
Lemma load_items_shown (items : Shared.Snapshot) (s : Shared.Store)
      (d : Shared.LiveCircuit) :
  Forall (item_in s) items ->
  Forall (fun kc => item_in s (snd kc)) d ->
  extends s (fst (Shared.load_items items s d)) /\
  load_items (map (fun it => comp_to_json (component_of s it)) items)
             (components (circuit_of s d))
  = Some (components (circuit_of (fst (Shared.load_items items s d))
                                 (snd (Shared.load_items items s d)))).
Proof.
  revert s d. induction items as [|it rest IH]; intros s d Hin Hd.
  - split; [apply extends_refl|reflexivity].
  - inversion Hin as [|? ? Hit Hrest]; subst. cbn [Shared.load_items map load_items].
    rewrite comp_of_json_to_json.
    pose proof (copy_item_extends s it) as He.
    set (sc := Shared.copy_item s it) in *.
    assert (Hrest1 : Forall (item_in (fst sc)) rest).
    { eapply Forall_impl; [|exact Hrest]. intros x. now apply item_in_extends. }
    assert (Hd1 : Forall (fun kc => item_in (fst sc) (snd kc))
                         (sset d (Shared.cid (snd sc)) (snd sc))).
    { apply sset_Forall; [|apply copy_item_in].
      eapply Forall_impl; [|exact Hd]. intros x. now apply item_in_extends. }
    destruct (IH (fst sc) _ Hrest1 Hd1) as [He1 Hl]. split.
    + eapply extends_trans; eassumption.
    + rewrite <- Hl. f_equal.
      * apply map_ext_in. intros x Hx. f_equal. symmetry.
        apply component_of_extends; [exact He|]. rewrite Forall_forall in Hrest. auto.
      * unfold circuit_of. cbn [components]. rewrite map_sset.
        assert (Hc : component_of (fst sc) (snd sc) = component_of s it)
          by apply component_of_copy.
        rewrite Hc.
        replace (Shared.cid (snd sc)) with (cid (component_of s it)) by reflexivity.
        f_equal. apply map_ext_in. intros [k x] Hx. cbn [fst snd]. f_equal. symmetry.
        apply component_of_extends; [exact He|].
        rewrite Forall_forall in Hd. exact (Hd _ Hx).
Qed.

Lemma apply_json_shown (s : Shared.Store) (cir : Shared.LiveCircuit)
      (cir0 : Circuit) (snap : Shared.Snapshot) :
  Forall (item_in s) snap ->
  extends s (fst (Shared.apply_json s cir snap)) /\
  apply_json cir0 (shown s snap)
  = Some (circuit_of (fst (Shared.apply_json s cir snap))
                     (snd (Shared.apply_json s cir snap))).
Proof.
  intros Hin. unfold Shared.apply_json, apply_json, shown. cbn.
  destruct (load_items_shown snap s [] Hin (Forall_nil _)) as [He Hl]. split; [exact He|].
  change (components (circuit_of s [])) with (@nil (string * Component)) in Hl.
  rewrite Hl. reflexivity.
Qed.

Lemma last_map_shown (s : Shared.Store) (l : list Shared.Snapshot) :
  l <> [] -> last (map (shown s) l) (JList []) = shown s (last l []).
Proof.
  induction l as [|x [|y l] IH]; intros H; [congruence|reflexivity|].
  cbn [map last] in *. apply IH. discriminate.
Qed.

Lemma removelast_map {X Y : Type} (f : X -> Y) (l : list X) :
  removelast (map f l) = map f (removelast l).
Proof.
  induction l as [|x [|y l] IH]; [reflexivity|reflexivity|].
  cbn [map removelast] in *. now rewrite IH.
Qed.

Lemma last_Forall {X : Type} (P : X -> Prop) (l : list X) (d : X) :
  Forall P l -> l <> [] -> P (last l d).
Proof.
  intros H Hne. destruct (exists_last Hne) as (l' & x & ->).
  rewrite last_last. apply Forall_app in H. destruct H as [_ H]. now inversion H.
Qed.

(** [undo] over the store, seen through what the store shows, is [undo]
    on the JSON values; so is [redo]. *)
Lemma undo_shown (s : Shared.Store) (h : Shared.CircuitHistory) (cir : Shared.LiveCircuit) :
  history_in s h ->
  let r := Shared.undo s h cir in
  undo (history_shown s h) (circuit_of s cir)
  = Some (fst (fst (fst r)),
          history_shown (snd (fst (fst r))) (snd (fst r)),
          circuit_of (snd (fst (fst r))) (snd r)).
Proof.
  intros [Hu Hr] r. subst r. unfold Shared.undo, undo, Shared.can_undo, can_undo.
  cbn [history_shown undo_stack redo_stack max_len]. rewrite length_map.
  destruct (Nat.leb 2 (List.length (Shared.undo_stack h))) eqn:E; cbn [negb fst snd].
  - apply Nat.leb_le in E.
    assert (Hne : Shared.undo_stack h <> []) by (intros H0; rewrite H0 in E; cbn in E; lia).
    assert (Hne' : removelast (Shared.undo_stack h) <> []).
    { destruct (Shared.undo_stack h) as [|x [|y l]]; cbn in E; try lia. discriminate. }
    assert (Hu' : Forall (Forall (item_in s)) (removelast (Shared.undo_stack h))).
    { rewrite Forall_forall in *. intros x Hx. apply Hu.
      destruct (exists_last Hne) as (l' & y & El). rewrite El in *.
      rewrite removelast_last in Hx. apply in_or_app. now left. }
    rewrite removelast_map, (last_map_shown s _ Hne'), (last_map_shown s _ Hne).
    destruct (apply_json_shown s cir (circuit_of s cir) (last (removelast (Shared.undo_stack h)) [])
                (last_Forall _ _ _ Hu' Hne')) as [He Ha].
    rewrite Ha. cbn [option_map]. do 3 f_equal.
    rewrite (history_shown_extends s _ _ He).
    + unfold history_shown. cbn. now rewrite map_app.
    + split; cbn; [exact Hu'|]. apply Forall_app. split; [exact Hr|].
      constructor; [|constructor]. now apply last_Forall.
  - reflexivity.
Qed.

Lemma redo_shown (s : Shared.Store) (h : Shared.CircuitHistory) (cir : Shared.LiveCircuit) :
  history_in s h ->
  let r := Shared.redo s h cir in
  redo (history_shown s h) (circuit_of s cir)
  = Some (fst (fst (fst r)),
          history_shown (snd (fst (fst r))) (snd (fst r)),
          circuit_of (snd (fst (fst r))) (snd r)).
Proof.
  intros [Hu Hr] r. subst r. unfold Shared.redo, redo, Shared.can_redo, can_redo.
  cbn [history_shown undo_stack redo_stack max_len]. rewrite length_map.
  destruct (Nat.ltb 0 (List.length (Shared.redo_stack h))) eqn:E; cbn [negb fst snd].
  - apply Nat.ltb_lt in E.
    assert (Hne : Shared.redo_stack h <> []) by (intros H0; rewrite H0 in E; cbn in E; lia).
    assert (Hr' : Forall (Forall (item_in s)) (removelast (Shared.redo_stack h))).
    { rewrite Forall_forall in *. intros x Hx. apply Hr.
      destruct (exists_last Hne) as (l' & y & El). rewrite El in *.
      rewrite removelast_last in Hx. apply in_or_app. now left. }
    rewrite removelast_map, (last_map_shown s _ Hne).
    destruct (apply_json_shown s cir (circuit_of s cir) (last (Shared.redo_stack h) [])
                (last_Forall _ _ _ Hr Hne)) as [He Ha].
    rewrite Ha. cbn [option_map]. do 3 f_equal.
    rewrite (history_shown_extends s _ _ He).
    + unfold history_shown. cbn. now rewrite map_app.
    + split; cbn; [|exact Hr']. apply Forall_app. split; [exact Hu|].
      constructor; [|constructor]. now apply last_Forall.
  - reflexivity.
Qed.

(* ------------------------------------------------------------------ *)
(** ** Switch expansion *)

Lemma register_items_expanded (items : list (Component * string)) (parent : string)
      (e : Expansion) :
  expanded (fold_left (fun e it => add_solver e (fst it) parent (snd it)) items e)
  = expanded e ++ map fst items.
Proof.
  revert e. induction items as [|it items IH]; intros e; simpl.
  - now rewrite app_nil_r.
  - rewrite IH. simpl. now rewrite <- app_assoc.
Qed.

Ltac split_pair x :=
  lazymatch type of x with
  | (_ * _)%type =>
      let x1 := fresh "v" in
      let x2 := fresh "v" in
      destruct x as [x1 x2]; try split_pair x1
  | _ => idtac
  end.

Ltac bind_inv H :=
  repeat match type of H with
         | bind ?m _ = Ok _ =>
             let E := fresh "E" in
             let x := fresh "v" in
             destruct m as [x|] eqn:E; cbn [bind] in H; [split_pair x|discriminate H]
         end.

Ltac bind_step H x E :=
  match type of H with
  | bind ?m _ = Ok _ =>
      destruct m as [x|] eqn:E; cbn [bind] in H; [|discriminate H]
  end.

Lemma surrogate_not_socket scid pa pb st v : is_socket (surrogate scid pa pb st v) = false.
Proof. reflexivity. Qed.

(** What [solver_items] returns: the component itself under ["main"], or
    one or two [switch_spst] surrogates when the kind is compound. *)
Lemma solver_items_shape (c : Component) (items : list (Component * string)) :
  solver_items c = Ok items ->
  (surrogate_count c = None /\ items = [(c, "main")]) \/
  (exists n, surrogate_count c = Some n /\ List.length items = n /\
             is_socket c = false /\ Forall (surrogate_of c) items).
Proof.
  unfold solver_items, surrogate_count, is_socket. intros H.
  destruct (String.eqb_spec (ctype c) "switch_spdt") as [E1|E1].
  { right. rewrite E1. bind_inv H. exists 1.
    match type of H with (if ?t then _ else _) = _ => destruct t end;
      inversion H; subst; repeat split; repeat constructor; simpl; discriminate. }
  destruct (String.eqb_spec (ctype c) "switch_sp3t") as [E2|E2].
  { right. rewrite E2. bind_inv H. exists 1. inversion H; subst.
    repeat split; repeat constructor; simpl.
    unfold throw_label. repeat match goal with |- context [if ?t then _ else _] => destruct t end;
      discriminate. }
  destruct (String.eqb_spec (ctype c) "switch_dpst") as [E3|E3].
  { right. rewrite E3. bind_inv H. exists 2. inversion H; subst.
    repeat split; repeat constructor; simpl; discriminate. }
  destruct (String.eqb_spec (ctype c) "switch_dpdt") as [E4|E4].
  { right. rewrite E4. bind_inv H. exists 2. inversion H; subst.
    repeat split; repeat constructor; simpl; discriminate. }
  destruct (String.eqb_spec (ctype c) "button_momentary") as [E5|E5].
  { right. rewrite E5. bind_inv H. exists 1. inversion H; subst.
    repeat split; repeat constructor; simpl; discriminate. }
  left. inversion H. auto.
Qed.

Lemma solver_items_sockets (c : Component) (items : list (Component * string)) :
  solver_items c = Ok items ->
  filter is_socket (map fst items) = filter is_socket [c].
Proof.
  intros H. destruct (solver_items_shape c items H) as [[_ ->]|(n & _ & _ & Hs & Hall)].
  - reflexivity.
  - simpl. rewrite Hs. clear -Hall. induction Hall as [|it items [Ht _] _ IH]; simpl.
    + reflexivity.
    + unfold is_socket at 1. rewrite Ht. simpl. exact IH.
Qed.

Lemma expand_component_inv (e0 e1 : Expansion) (c : Component) :
  expand_component e0 c = Ok e1 ->
  exists items,
    solver_items c = Ok items /\
    e1 = fold_left (fun e it => add_solver e (fst it) (cid c) (snd it)) items e0.
Proof.
  unfold expand_component. intros H. bind_inv H. inversion H. eauto.
Qed.

Lemma expand_all_sources (comps : list Component) (e0 e : Expansion) :
  expand_all comps e0 = Ok e ->
  sources (expanded e) = sources (expanded e0) ++ filter is_socket comps.
Proof.
  revert e0. induction comps as [|c comps IH]; intros e0 H; simpl in H.
  - inversion H. now rewrite app_nil_r.
  - bind_inv H. apply expand_component_inv in E as (items & Hi & ->).
    rewrite (IH _ H). rewrite register_items_expanded.
    unfold sources. rewrite filter_app, (solver_items_sockets c items Hi), <- app_assoc.
    change (c :: comps) with ([c] ++ comps). now rewrite filter_app.
Qed.

(* ------------------------------------------------------------------ *)
(** ** The stages of a solve *)

Section StageProofs.
Variable parse_float_list : string -> list float.
Local Abbreviation eff := (effective_resistance parse_float_list).
Local Abbreviation solve := (solve_circuit parse_float_list).

Lemma solve_circuit_inv (cir : Circuit) (res : SolveResult) (cir' : Circuit) :
  solve cir = Ok (res, cir') ->
  exists e exf,
    expand_all (dict_values (components cir)) (mkExpansion [] [] []) = Ok e /\
    solve_expanded parse_float_list (dict_values (components cir))
                   (find_ground (dict_values (components cir))) e = Ok (res, exf) /\
    cir' = mkCircuit (rebuild (components cir) exf).
Proof.
  unfold solve_circuit. intros H. bind_inv H.
  inversion H; subst. eauto.
Qed.

(** A successful solve of a non-empty system went through every stage. *)
Lemma solve_expanded_ok (comps : list Component) (ground : Point) (e : Expansion)
      (res : SolveResult) (exf : list Component) :
  solve_expanded parse_float_list comps ground e = Ok (res, exf) ->
  ok res = true ->
  let nidx := node_numbering ground (expanded e) in
  let vs := sources (expanded e) in
  (List.length nidx + List.length vs = 0 /\
   res = mkSolveResult true [] [] [] false [] [] /\ exf = expanded e) \/
  (List.length nidx + List.length vs <> 0 /\
   exists A bv ex1 sol sci ex2 flags cbi,
     mna_system parse_float_list nidx vs (expanded e) = Ok (A, bv, ex1) /\
     solve_linear A bv = Ok (Some sol) /\
     solver_currents parse_float_list (node_voltages ground nidx sol) sol
                     (List.length nidx) vs ex1 0 [] = Ok (sci, ex2) /\
     branch_loop parse_float_list (solver_parent e) (solver_label e) sci ex2 [] []
       = Ok (flags, cbi, exf) /\
     res = report comps vs (node_voltages ground nidx sol) sci flags cbi).
Proof.
  intros H Hok nidx vs. unfold solve_expanded in H. cbv zeta in H. fold nidx vs in H.
  destruct (Nat.eqb_spec (List.length nidx + List.length vs) 0) as [E0|E0].
  - left. inversion H. auto.
  - right. split; [exact E0|].
    bind_inv H.
    match type of H with match ?o with _ => _ end = _ => destruct o as [sol|] end;
      [|inversion H; subst; discriminate Hok].
    bind_inv H. inversion H; subst. eexists _, _, _, _, _, _, _, _. repeat split; eassumption.
Qed.

Lemma report_warnings_quiet (comps vs : list Component) nv sci flags cbi :
  quiet_loop vs (component_currents comps sci cbi) = true ->
  In WarnQuietLoop (warnings (report comps vs nv sci flags cbi)).
Proof.
  intros Hq. unfold report. cbn [warnings]. rewrite Hq.
  apply in_or_app. right. now left.
Qed.

Lemma report_comp_i (comps vs : list Component) nv sci flags cbi :
  comp_i (report comps vs nv sci flags cbi) = component_currents comps sci cbi.
Proof. reflexivity. Qed.

(** C9, as the code has it: when a circuit with at least one socket
    solves and every socket is reported with [|I| < 1e-6], the
    "likely open loop" warning is among the warnings. *)
Theorem quiet_sources_warned (cir : Circuit) (res : SolveResult) (cir' : Circuit) :
  solve cir = Ok (res, cir') ->
  ok res = true ->
  circuit_sockets cir <> [] ->
  (forall c, In c (circuit_sockets cir) ->
             (abs (sget_or (comp_i res) (cid c) 0) <? 1e-6)%float = true) ->
  In WarnQuietLoop (warnings res).
Proof.
  intros Hs Hok Hne Hall.
  destruct (solve_circuit_inv _ _ _ Hs) as (e & exf & He & Hx & _).
  pose proof (expand_all_sources _ _ _ He) as Hsrc. simpl in Hsrc.
  fold (circuit_sockets cir) in Hsrc.
  destruct (solve_expanded_ok _ _ _ _ _ Hx Hok) as [(HN & _)|(_ & A & bv & ex1 & sol & sci & ex2 & flags & cbi & _ & _ & _ & _ & Hres)].
  - exfalso. rewrite Hsrc in HN. destruct (circuit_sockets cir); [now apply Hne|simpl in HN; lia].
  - rewrite Hsrc in Hres. subst res. apply report_warnings_quiet.
    rewrite report_comp_i in Hall. unfold quiet_loop.
    destruct (circuit_sockets cir) as [|c0 l] eqn:El; [now elim Hne|].
    apply forallb_forall. exact Hall.
Qed.

End StageProofs.

Lemma quiet_sources_warned_witness :
  exists res cir',
    solve_circuit parse_unsigned_list open_loop = Ok (res, cir') /\
    In WarnQuietLoop (warnings res).
Proof.
  eexists _, _. split; [vm_compute; reflexivity|].
  eapply (quiet_sources_warned parse_unsigned_list open_loop).
  - vm_compute. reflexivity.
  - reflexivity.
  - discriminate.
  - intros c [<-|[]]. vm_compute. reflexivity.
Defined.

(** C9 as stated fails on a circuit without sockets: "every socket is
    quiet" holds of it, the solve succeeds, and no warning is emitted. *)
Lemma quiet_sources_counterexample :
  exists res cir',
    solve_circuit parse_unsigned_list lone_resistor = Ok (res, cir') /\
    ok res = true /\
    (forall c, In c (circuit_sockets lone_resistor) ->
               (abs (sget_or (comp_i res) (cid c) 0) <? 1e-6)%float = true) /\
    ~ In WarnQuietLoop (warnings res).
Proof.
  eexists _, _. split; [vm_compute; reflexivity|].
  split; [reflexivity|]. split.
  - intros c [].
  - intros [].
Qed.

(* ------------------------------------------------------------------ *)
(** ** Entries of the expansion *)

Lemma register_app (e : Expansion) (l1 l2 : list Entry) :
  register e (l1 ++ l2) = register (register e l1) l2.
Proof. unfold register. apply fold_left_app. Qed.

Lemma register_tagged (e : Expansion) (c : Component) (items : list (Component * string)) :
  register e (map (fun it => (fst it, cid c, snd it)) items)
  = fold_left (fun e it => add_solver e (fst it) (cid c) (snd it)) items e.
Proof.
  unfold register. revert e. induction items as [|it items IH]; intros e; simpl; auto.
Qed.

Lemma expand_all_register (comps : list Component) (e0 : Expansion) :
  expand_all comps e0 = (ents <- expansion_entries comps ;; Ok (register e0 ents)).
Proof.
  revert e0. induction comps as [|c comps IH]; intros e0; simpl; [reflexivity|].
  unfold expand_component. destruct (solver_items c) as [items|err]; simpl; [|reflexivity].
  rewrite IH. destruct (expansion_entries comps) as [ents|err]; simpl; [|reflexivity].
  now rewrite register_app, register_tagged.
Qed.

Lemma register_expanded (e : Expansion) (ents : list Entry) :
  expanded (register e ents) = expanded e ++ map entry_comp ents.
Proof.
  revert e. induction ents as [|t ents IH]; intros e; simpl.
  - now rewrite app_nil_r.
  - unfold register in *. simpl. rewrite IH. simpl. now rewrite <- app_assoc.
Qed.

(** The two mappings of the expansion depend on the entries only through
    their identifiers, parents and labels. *)
Lemma register_maps (e e' : Expansion) (ents ents' : list Entry) :
  solver_parent e' = solver_parent e ->
  solver_label e' = solver_label e ->
  map entry_key ents' = map entry_key ents ->
  solver_parent (register e' ents') = solver_parent (register e ents) /\
  solver_label (register e' ents') = solver_label (register e ents).
Proof.
  revert e e' ents'. induction ents as [|t ents IH]; intros e e' [|t' ents'] Hp Hl Hm;
    simpl in Hm; try discriminate.
  - auto.
  - inversion Hm as [[Hc Hpar Hlab Hrest]]. unfold register. simpl.
    apply IH; simpl; [| |exact Hrest]; congruence.
Qed.

(* ------------------------------------------------------------------ *)
(** ** Resolved components stay resolved *)

Lemma upd_same {X : Type} (l : list X) (i : nat) (x : X) :
  nth_error l i = Some x -> upd l i (fun _ => x) = l.
Proof.
  revert i. induction l as [|y l IH]; intros [|i] H; simpl in *; try discriminate.
  - now inversion H.
  - now rewrite IH.
Qed.

Section SettledProofs.
Variable parse : string -> list float.
Local Abbreviation eff := (effective_resistance parse).

Lemma eff_socket (c : Component) : is_socket c = true -> eff c = Ok (None, c).
Proof.
  unfold is_socket. intros H. apply String.eqb_eq in H.
  unfold effective_resistance. rewrite H. reflexivity.
Qed.

Lemma stepped_shape (c c1 : Component) : stepped parse c c1 -> same_shape c c1.
Proof.
  unfold stepped, same_shape. destruct (is_socket c).
  - intros ->. auto.
  - intros [R H]. apply (eff_fields parse) in H. tauto.
Qed.

Lemma stepped_socket (c c1 : Component) : stepped parse c c1 -> is_socket c1 = is_socket c.
Proof.
  intros H. apply stepped_shape in H. unfold is_socket.
  destruct H as (_ & -> & _). reflexivity.
Qed.

Lemma stepped_settled (c c1 : Component) : stepped parse c c1 -> settled parse c1.
Proof.
  unfold stepped, settled. destruct (is_socket c) eqn:Hs.
  - intros ->. exists None. now apply eff_socket.
  - intros [R H]. exists R. now apply (eff_idem parse) in H.
Qed.

Lemma settled_eff (c c' : Component) R :
  settled parse c -> eff c = Ok (R, c') -> c' = c.
Proof.
  intros [R0 H0] H. rewrite H0 in H. now inversion H.
Qed.

Lemma stamp_components_stepped (nidx : dict Point nat) (ex ex1 : list Component)
      (A A' : matrix) :
  stamp_components parse nidx ex A = Ok (A', ex1) ->
  Forall2 (stepped parse) ex ex1.
Proof.
  revert A A' ex1. induction ex as [|c ex IH]; intros A A' ex1 H; simpl in H.
  - inversion H. constructor.
  - destruct (is_socket c) eqn:Hs.
    + bind_step H r E. destruct r as [A1 rest]. inversion H; subst.
      constructor; [|eauto]. unfold stepped. now rewrite Hs.
    + bind_step H r E. destruct r as [[R|] c1].
      * bind_step H g Eg. bind_step H r' E'. destruct r' as [A1 rest].
        inversion H; subst. constructor; [|eauto].
        unfold stepped. rewrite Hs. eauto.
      * bind_step H r' E'. destruct r' as [A1 rest].
        inversion H; subst. constructor; [|eauto].
        unfold stepped. rewrite Hs. eauto.
Qed.

Lemma stamp_components_again (nidx : dict Point nat) (ex ex1 : list Component)
      (A A' : matrix) :
  stamp_components parse nidx ex A = Ok (A', ex1) ->
  stamp_components parse nidx ex1 A = Ok (A', ex1).
Proof.
  revert A A' ex1. induction ex as [|c ex IH]; intros A A' ex1 H; simpl in H.
  - inversion H. reflexivity.
  - destruct (is_socket c) eqn:Hs.
    + bind_step H r E. destruct r as [A1 rest]. inversion H; subst. simpl. rewrite Hs.
      rewrite (IH _ _ _ E). reflexivity.
    + bind_step H r E. destruct r as [R c1].
      pose proof (eff_idem parse _ _ _ E) as Hidem.
      destruct (eff_fields parse _ _ _ E) as (_ & Ht & Ha & Hb & _).
      assert (Hs1 : is_socket c1 = false) by (unfold is_socket in *; now rewrite Ht).
      destruct R as [R|].
      * bind_step H g Eg. bind_step H r' E'. destruct r' as [A1 rest].
        inversion H; subst. simpl. rewrite Hs1, Hidem. cbn [bind].
        rewrite Eg. cbn [bind]. rewrite Ha, Hb.
        rewrite (IH _ _ _ E'). reflexivity.
      * bind_step H r' E'. destruct r' as [A1 rest].
        inversion H; subst. simpl. rewrite Hs1, Hidem. cbn [bind].
        rewrite (IH _ _ _ E'). reflexivity.
Qed.

Lemma solver_currents_settled (nv : dict Point float) (sol : list float) (n : nat)
      (vs ex ex' : list Component) (k0 : nat) (sci0 sci : dict string float) :
  Forall (settled parse) ex ->
  solver_currents parse nv sol n vs ex k0 sci0 = Ok (sci, ex') ->
  ex' = ex.
Proof.
  intros Hall. revert k0 sci0 sci ex'.
  induction Hall as [|c ex Hc Hall IH]; intros k0 sci0 sci ex' H; simpl in H.
  - now inversion H.
  - destruct (is_socket c).
    + bind_step H r E. destruct r as [sci1 rest]. inversion H; subst. f_equal. eauto.
    + bind_step H r E. destruct r as [R c1].
      pose proof (settled_eff _ _ _ Hc E) as ->.
      destruct R as [R|].
      * bind_step H cur Ecur. bind_step H r' E'. destruct r' as [sci1 rest].
        inversion H; subst. f_equal. eauto.
      * bind_step H r' E'. destruct r' as [sci1 rest].
        inversion H; subst. f_equal. eauto.
Qed.

Lemma find_cid_nth (ex : list Component) (scid : string) (i : nat) :
  find_cid ex scid = Some i ->
  exists c, nth_error ex i = Some c /\ cid c = scid /\ In c ex.
Proof.
  revert i. induction ex as [|c ex IH]; intros i H; simpl in H; [discriminate|].
  destruct (String.eqb_spec (cid c) scid) as [E|E].
  - inversion H; subst. exists c. simpl. auto.
  - destruct (find_cid ex scid) as [j|]; [|discriminate]. inversion H; subst.
    destruct (IH j eq_refl) as (c' & Hn & Hc & Hi). exists c'. simpl. auto.
Qed.

Lemma branch_loop_settled (items : list (string * string)) (labels : dict string string)
      (sci : dict string float) (ex ex' : list Component)
      (flags0 flags : dict string string) (cbi0 cbi : dict string (dict string float)) :
  Forall (settled parse) ex ->
  branch_loop parse items labels sci ex flags0 cbi0 = Ok (flags, cbi, ex') ->
  ex' = ex.
Proof.
  intros Hall. revert flags0 cbi0.
  induction items as [|[scid parent] items IH]; intros flags0 cbi0 H; simpl in H.
  - now inversion H.
  - destruct (find_cid ex scid) as [i|] eqn:Hf; [|eauto].
    destruct (find_cid_nth _ _ _ Hf) as (sc & Hn & _ & Hin). rewrite Hn in H.
    destruct (is_socket sc); [eauto|].
    bind_step H r E. destruct r as [R sc'].
    assert (sc' = sc) as ->.
    { eapply settled_eff; [|exact E]. rewrite Forall_forall in Hall. auto. }
    rewrite (upd_same _ _ _ Hn) in H.
    destruct R; eauto.
Qed.

End SettledProofs.

(* ------------------------------------------------------------------ *)
(** ** The circuit a solve leaves behind *)

Lemma solver_items_passthrough (c : Component) :
  surrogate_count c = None -> solver_items c = Ok [(c, "main")].
Proof.
  unfold surrogate_count, solver_items.
  repeat match goal with
         | |- context [if ?t then _ else _] => destruct t; try discriminate
         end.
  reflexivity.
Qed.

Lemma surrogate_count_shape (c c' : Component) :
  same_shape c c' -> surrogate_count c' = surrogate_count c.
Proof.
  intros (_ & Ht & _). unfold surrogate_count. now rewrite Ht.
Qed.

Section RebuildProofs.
Variable parse : string -> list float.

Lemma stepped_spst (s s' : Component) :
  ctype s = "switch_spst" -> stepped parse s s' -> s' = s.
Proof.
  intros Ht. unfold stepped, is_socket. rewrite Ht. simpl.
  intros [R H]. destruct (eff_cases parse _ _ _ H) as [->|(Hr & _)]; [reflexivity|].
  rewrite Ht in Hr. discriminate.
Qed.

Lemma stepped_block (c : Component) (items : list (Component * string))
      (blk : list Component) :
  Forall (surrogate_of c) items ->
  Forall2 (stepped parse) (map fst items) blk ->
  blk = map fst items.
Proof.
  intros Hall. revert blk. induction Hall as [|it items [Ht _] _ IH]; intros blk H;
    inversion H; subst; simpl.
  - reflexivity.
  - f_equal; [now apply stepped_spst|auto].
Qed.

Lemma evolved_shape (c c' : Component) : evolved parse c c' -> same_shape c c'.
Proof.
  unfold evolved. destruct (surrogate_count c).
  - intros ->. unfold same_shape. auto.
  - apply stepped_shape.
Qed.

Lemma rebuild_expansion (d : dict string Component) (ents : list Entry)
      (exf : list Component) :
  expansion_entries (dict_values d) = Ok ents ->
  Forall2 (stepped parse) (map entry_comp ents) exf ->
  exists ents',
    expansion_entries (dict_values (rebuild d exf)) = Ok ents' /\
    map entry_comp ents' = exf /\
    map entry_key ents' = map entry_key ents /\
    Forall2 (evolved parse) (dict_values d) (dict_values (rebuild d exf)) /\
    rebuild (rebuild d exf) exf = rebuild d exf.
Proof.
  revert ents exf. induction d as [|[k c] d IH]; intros ents exf He Hs; simpl in He.
  - inversion He; subst. inversion Hs; subst. exists []. simpl. repeat split; constructor.
  - bind_step He items Ei. bind_step He ents_r Er. inversion He; subst ents. clear He.
    rewrite map_app in Hs. apply Forall2_app_inv_l in Hs.
    destruct Hs as (blk & exr & Hblk & Hrest & ->).
    destruct (IH _ _ eq_refl Hrest) as (ents' & He' & Hc' & Hk' & Hev & Hrr).
    assert (Htag : map entry_comp (map (fun it => (fst it, cid c, snd it)) items)
                   = map fst items) by (rewrite map_map; reflexivity).
    unfold Entry in *. rewrite Htag in Hblk.
    destruct (solver_items_shape c items Ei) as [[Hn ->]|(n & Hn & Hlen & Hsock & Hall)].
    + (* the component is its own solver component *)
      inversion Hblk as [|c0 c1 l0 l1 Hc1 Hnil Heq0 Heq1]. subst c0 l0 blk.
      inversion Hnil. subst l1. clear Hblk Hnil.
      pose proof (stepped_shape parse _ _ Hc1) as Hsh.
      assert (Hn1 : surrogate_count c1 = None)
        by (rewrite (surrogate_count_shape _ _ Hsh); exact Hn).
      simpl. rewrite Hn. simpl.
      exists ((c1, cid c1, "main") :: ents').
      rewrite (solver_items_passthrough c1 Hn1). cbn [bind]. rewrite He'. cbn [bind].
      repeat split.
      * simpl. now rewrite Hc'.
      * simpl. unfold entry_key at 1 3. cbn [entry_comp entry_parent entry_label fst snd].
        destruct Hsh as (-> & _). now rewrite Hk'.
      * constructor; [|exact Hev]. unfold evolved. now rewrite Hn.
      * rewrite Hn1. now rewrite Hrr.
    + (* a compound switch: its surrogates are fresh and stay as they are *)
      pose proof (stepped_block c items blk Hall) as Hb.
      specialize (Hb Hblk). subst blk.
      assert (Hskip : skipn n (map fst items ++ exr) = exr).
      { rewrite <- Hlen, <- (length_map fst items). rewrite skipn_app, skipn_all, Nat.sub_diag.
        reflexivity. }
      simpl. rewrite Hn, Hskip. simpl.
      exists (map (fun it => (fst it, cid c, snd it)) items ++ ents').
      rewrite Ei. cbn [bind]. rewrite He'. cbn [bind].
      repeat split.
      * rewrite map_app, Hc', Htag. reflexivity.
      * rewrite !map_app. now rewrite Hk'.
      * constructor; [|exact Hev]. unfold evolved. now rewrite Hn.
      * rewrite Hn, Hskip. now rewrite Hrr.
Qed.

End RebuildProofs.

(* ------------------------------------------------------------------ *)
(** ** What the solve reads of a component *)

Lemma is_socket_shape (c c' : Component) : same_shape c c' -> is_socket c' = is_socket c.
Proof. intros (_ & Ht & _). unfold is_socket. now rewrite Ht. Qed.

Lemma find_socket_shape (l l' : list Component) :
  Forall2 same_shape l l' ->
  match find is_socket l, find is_socket l' with
  | Some c, Some c' => b c' = b c
  | None, None => True
  | _, _ => False
  end.
Proof.
  induction 1 as [|c c' l l' Hs _ IH]; simpl; [exact I|].
  rewrite (is_socket_shape _ _ Hs). destruct Hs as (_ & _ & _ & Hb & _).
  destruct (is_socket c); [exact Hb|exact IH].
Qed.

Lemma points_shape (l l' : list Component) :
  Forall2 same_shape l l' ->
  flat_map (fun c => [a c; b c]) l' = flat_map (fun c => [a c; b c]) l.
Proof.
  induction 1 as [|c c' l l' Hs _ IH]; simpl; [reflexivity|].
  destruct Hs as (_ & _ & -> & -> & _). now rewrite IH.
Qed.

Lemma find_ground_shape (l l' : list Component) :
  Forall2 same_shape l l' -> find_ground l' = find_ground l.
Proof.
  intros H. unfold find_ground. pose proof (find_socket_shape l l' H) as Hf.
  rewrite (points_shape l l' H).
  destruct (find is_socket l), (find is_socket l'); try contradiction; auto.
Qed.

Lemma sorted_nodes_shape (ex ex' : list Component) :
  Forall2 same_shape ex ex' -> sorted_nodes ex' = sorted_nodes ex.
Proof.
  unfold sorted_nodes. generalize (@nil Point).
  intros s H. revert s. induction H as [|c c' l l' Hs _ IH]; intros s; simpl; [reflexivity|].
  destruct Hs as (_ & _ & -> & -> & _). apply IH.
Qed.

Lemma component_currents_shape (comps comps' : list Component) sci cbi :
  Forall2 same_shape comps comps' ->
  component_currents comps' sci cbi = component_currents comps sci cbi.
Proof.
  unfold component_currents. generalize (@nil (string * float)).
  intros ci H. revert ci. induction H as [|c c' l l' Hs _ IH]; intros ci; simpl; [reflexivity|].
  rewrite (is_socket_shape _ _ Hs). destruct Hs as (Hc & _). rewrite Hc. apply IH.
Qed.

Lemma flag_overcurrent_shape (comps comps' : list Component) ci thr flags :
  Forall2 same_shape comps comps' ->
  flag_overcurrent comps' ci thr flags = flag_overcurrent comps ci thr flags.
Proof.
  unfold flag_overcurrent. intros H. revert flags.
  induction H as [|c c' l l' Hs _ IH]; intros flags; simpl; [reflexivity|].
  rewrite (is_socket_shape _ _ Hs). destruct Hs as (Hc & _). rewrite Hc. apply IH.
Qed.

Lemma report_shape (comps comps' vs : list Component) nv sci flags cbi :
  Forall2 same_shape comps comps' ->
  report comps' vs nv sci flags cbi = report comps vs nv sci flags cbi.
Proof.
  intros H. unfold report. rewrite (component_currents_shape _ _ _ _ H).
  destruct (max_source_iwarn vs); [|reflexivity].
  now rewrite (flag_overcurrent_shape _ _ _ _ _ H).
Qed.

Lemma rebuild_unchanged (d : dict string Component) (ents : list Entry) :
  expansion_entries (dict_values d) = Ok ents ->
  rebuild d (map entry_comp ents) = d.
Proof.
  revert ents. induction d as [|[k c] d IH]; intros ents He; simpl in He; [reflexivity|].
  bind_step He items Ei. bind_step He ents_r Er. inversion He; subst ents. clear He.
  assert (Htag : map entry_comp (map (fun it => (fst it, cid c, snd it)) items)
                 = map fst items) by (rewrite map_map; reflexivity).
  unfold Entry in *. rewrite map_app, Htag.
  destruct (solver_items_shape c items Ei) as [[Hn ->]|(n & Hn & Hlen & _ & _)];
    simpl; rewrite Hn.
  - now rewrite (IH _ eq_refl).
  - rewrite <- Hlen, <- (length_map fst items), skipn_app, skipn_all, Nat.sub_diag.
    simpl. now rewrite (IH _ eq_refl).
Qed.

Section IdempotenceProofs.
Variable parse : string -> list float.

Lemma sources_stepped (ex ex1 : list Component) :
  Forall2 (stepped parse) ex ex1 -> sources ex1 = sources ex.
Proof.
  unfold sources. induction 1 as [|c c1 l l1 Hs _ IH]; simpl; [reflexivity|].
  rewrite (stepped_socket parse _ _ Hs). unfold stepped in Hs.
  destruct (is_socket c); [now rewrite Hs, IH|exact IH].
Qed.

Lemma Forall2_stepped_shape (ex ex1 : list Component) :
  Forall2 (stepped parse) ex ex1 -> Forall2 same_shape ex ex1.
Proof.
  induction 1; constructor; auto. now apply (stepped_shape parse).
Qed.

Lemma Forall2_evolved_shape (l l' : list Component) :
  Forall2 (evolved parse) l l' -> Forall2 same_shape l l'.
Proof.
  induction 1; constructor; auto. now apply (evolved_shape parse).
Qed.

Lemma Forall2_stepped_settled (ex ex1 : list Component) :
  Forall2 (stepped parse) ex ex1 -> Forall (settled parse) ex1.
Proof.
  induction 1; constructor; auto. now apply (stepped_settled parse) with (c := x).
Qed.

(** The stages of a solve, with the solver list as the stamping left it. *)
Lemma solve_expanded_cases (comps : list Component) (ground : Point) (e : Expansion)
      (res : SolveResult) (exf : list Component) :
  solve_expanded parse comps ground e = Ok (res, exf) ->
  let nidx := node_numbering ground (expanded e) in
  let vs := sources (expanded e) in
  (List.length nidx + List.length vs = 0 /\
   res = mkSolveResult true [] [] [] false [] [] /\ exf = expanded e) \/
  (List.length nidx + List.length vs <> 0 /\
   exists A bv,
     mna_system parse nidx vs (expanded e) = Ok (A, bv, exf) /\
     Forall2 (stepped parse) (expanded e) exf /\
     ((solve_linear A bv = Ok None /\
       res = mkSolveResult false [] [] [WarnSingular] true [] []) \/
      (exists sol sci flags cbi,
         solve_linear A bv = Ok (Some sol) /\
         solver_currents parse (node_voltages ground nidx sol) sol
                         (List.length nidx) vs exf 0 [] = Ok (sci, exf) /\
         branch_loop parse (solver_parent e) (solver_label e) sci exf [] []
           = Ok (flags, cbi, exf) /\
         res = report comps vs (node_voltages ground nidx sol) sci flags cbi))).
Proof.
  intros H nidx vs. unfold solve_expanded in H. cbv zeta in H. fold nidx vs in H.
  destruct (Nat.eqb_spec (List.length nidx + List.length vs) 0) as [E0|E0].
  - left. inversion H. auto.
  - right. split; [exact E0|].
    bind_step H r Em. destruct r as [[A bv] ex1].
    assert (Hst : Forall2 (stepped parse) (expanded e) ex1).
    { unfold mna_system in Em. bind_step Em r Es. destruct r as [A1 ex1'].
      destruct (stamp_sources _ _ _ _ _) as [A2 bv2]. inversion Em; subst.
      eapply stamp_components_stepped; eauto. }
    pose proof (Forall2_stepped_settled _ _ Hst) as Hset.
    bind_step H osol El. destruct osol as [sol|].
    + bind_step H r Ec. destruct r as [sci ex2].
      pose proof (solver_currents_settled parse _ _ _ _ _ _ _ _ _ Hset Ec) as ->.
      bind_step H r Eb. destruct r as [[flags cbi] ex3].
      pose proof (branch_loop_settled parse _ _ _ _ _ _ _ _ _ Hset Eb) as ->.
      inversion H; subst. exists A, bv. repeat split; auto.
      right. exists sol, sci, flags, cbi. auto.
    + inversion H; subst. exists A, bv. repeat split; auto.
Qed.

End IdempotenceProofs.

Section TwiceProofs.
Variable parse : string -> list float.

(** C6: a solve that returns leaves the circuit in a state on which a
    second solve returns the same result (voltages, currents, branch
    currents, flags and warnings) and changes nothing more. *)
Theorem solve_circuit_idempotent (cir : Circuit) (res : SolveResult) (cir' : Circuit) :
  solve_circuit parse cir = Ok (res, cir') ->
  solve_circuit parse cir' = Ok (res, cir').
Proof.
  intros Hs.
  destruct (solve_circuit_inv parse _ _ _ Hs) as (e & exf & He & Hx & ->).
  rewrite expand_all_register in He. bind_step He ents Ee. inversion He as [He']. clear He.
  assert (Hexp : expanded e = map entry_comp ents)
    by (subst e; now rewrite register_expanded).
  destruct (solve_expanded_cases parse _ _ _ _ _ Hx)
    as [(HN & -> & ->)|(HN & A & bv & Hmna & Hst & Hres)].
  - (* the empty system: nothing was touched *)
    assert (Hsame : mkCircuit (rebuild (components cir) (expanded e)) = cir)
      by (rewrite Hexp, (rebuild_unchanged _ _ Ee); now destruct cir).
    rewrite Hsame in *. exact Hs.
  - rewrite Hexp in Hst.
    destruct (rebuild_expansion parse _ _ _ Ee Hst) as (ents' & Ee' & Hc' & Hk' & Hev & Hrr).
    pose proof (Forall2_evolved_shape parse _ _ Hev) as Hshape.
    destruct (register_maps (mkExpansion [] [] []) (mkExpansion [] [] []) ents ents'
                eq_refl eq_refl Hk') as [Hpar Hlab].
    rewrite He' in Hpar, Hlab.
    set (e' := register (mkExpansion [] [] []) ents') in *.
    assert (Hexp' : expanded e' = exf)
      by (unfold e'; rewrite register_expanded; exact Hc').
    rewrite <- Hexp in Hst.
    pose proof (Forall2_stepped_shape parse _ _ Hst) as Hsh.
    unfold solve_circuit. cbn [components].
    rewrite expand_all_register, Ee'. cbn [bind]. fold e'.
    rewrite (find_ground_shape _ _ Hshape).
    unfold solve_expanded. cbv zeta. rewrite Hexp'.
    unfold node_numbering in *. rewrite (sorted_nodes_shape _ _ Hsh).
    rewrite (sources_stepped parse _ _ Hst).
    destruct (Nat.eqb_spec (List.length (index_nodes (sorted_nodes (expanded e))
                (find_ground (dict_values (components cir))) 0)
              + List.length (sources (expanded e))) 0) as [E0|_]; [contradiction|].
    assert (Hmna' : mna_system parse
                      (index_nodes (sorted_nodes (expanded e))
                         (find_ground (dict_values (components cir))) 0)
                      (sources (expanded e)) exf = Ok (A, bv, exf)).
    { unfold mna_system in *. bind_step Hmna r Es. destruct r as [A1 ex1].
      destruct (stamp_sources _ _ _ _ (A1, _)) as [A2 bv2] eqn:Ess.
      inversion Hmna; subst A2 bv2 ex1.
      rewrite (stamp_components_again parse _ _ _ _ _ Es). cbn [bind].
      rewrite Ess. reflexivity. }
    rewrite Hmna'. cbn [bind].
    destruct Hres as [(Hlin & ->)|(sol & sci & flags & cbi & Hlin & Hcur & Hbr & ->)].
    + rewrite Hlin. cbn [bind]. now rewrite Hrr.
    + rewrite Hlin. cbn [bind]. rewrite Hcur. cbn [bind].
      rewrite Hpar, Hlab, Hbr. cbn [bind].
      rewrite (report_shape _ _ _ _ _ _ _ Hshape). now rewrite Hrr.
Qed.

End TwiceProofs.

(* ------------------------------------------------------------------ *)
(** ** Currents per solver component and per branch *)

Lemma py_div_ok (x y q : float) : py_div x y = Ok q -> q = (x / y)%float.
Proof.
  unfold py_div. destruct (y =? 0)%float; [discriminate|]. now inversion 1.
Qed.

Lemma sget_in_nodup {V} (d : dict string V) (k : string) (v : V) :
  NoDup (map fst d) -> In (k, v) d -> sget d k = Some v.
Proof.
  unfold sget. induction d as [|[k' v'] d IH]; simpl; intros Hnd Hin; [contradiction|].
  inversion Hnd as [|? ? Hnotin Hnd']; subst.
  destruct Hin as [Heq|Hin].
  - inversion Heq; subst. now rewrite String.eqb_refl.
  - destruct (String.eqb_spec k' k) as [->|Hne].
    + exfalso. apply Hnotin. apply in_map_iff. exists (k, v). auto.
    + auto.
Qed.

(** The branch mapping after [cbi.setdefault(p, {})[l] = v]. *)
Lemma branch_set_get (cbi : dict string (dict string float)) (p l p' l' : string)
      (v : float) :
  sget (sget_or (sset cbi p (sset (sget_or cbi p []) l v)) p' []) l'
  = if String.eqb p' p && String.eqb l' l then Some v
    else sget (sget_or cbi p' []) l'.
Proof.
  unfold sget_or, dict_get_or. fold (@sget (dict string float)).
  destruct (String.eqb_spec p' p) as [->|Hp]; simpl.
  - rewrite sget_sset_same.
    destruct (String.eqb_spec l' l) as [->|Hl].
    + apply sget_sset_same.
    + now rewrite sget_sset_other.
  - now rewrite sget_sset_other.
Qed.

Section CurrentProofs.
Variable parse : string -> list float.
Local Abbreviation eff := (effective_resistance parse).

Lemma solver_currents_other (nv : dict Point float) (sol : list float) (n : nat)
      (vs ex ex' : list Component) (k0 : nat) (sci0 sci : dict string float) (k : string) :
  solver_currents parse nv sol n vs ex k0 sci0 = Ok (sci, ex') ->
  ~ In k (map cid ex) ->
  sget sci k = sget sci0 k.
Proof.
  revert k0 sci0 sci ex'. induction ex as [|c ex IH]; intros k0 sci0 sci ex' H Hn;
    simpl in H.
  - now inversion H.
  - simpl in Hn.
    assert (Hk : k <> cid c) by (intros ->; apply Hn; now left).
    assert (Hn' : ~ In k (map cid ex)) by (intros Hi; apply Hn; now right).
    destruct (is_socket c).
    + bind_step H r E. destruct r as [sci1 rest]. inversion H; subst.
      rewrite (IH _ _ _ _ E Hn'). now apply sget_sset_other.
    + bind_step H r E. destruct r as [[R|] c1].
      * bind_step H cur Ecur. bind_step H r' E'. destruct r' as [sci1 rest].
        inversion H; subst. rewrite (IH _ _ _ _ E' Hn'). now apply sget_sset_other.
      * bind_step H r' E'. destruct r' as [sci1 rest].
        inversion H; subst. rewrite (IH _ _ _ _ E' Hn'). now apply sget_sset_other.
Qed.

(** Each non-source solver component is recorded with its Ohm current. *)
Lemma solver_currents_value (nv : dict Point float) (sol : list float) (n : nat)
      (vs ex ex' : list Component) (k0 : nat) (sci0 sci : dict string float) :
  solver_currents parse nv sol n vs ex k0 sci0 = Ok (sci, ex') ->
  NoDup (map cid ex) ->
  forall c, In c ex -> is_socket c = false ->
  exists R c', eff c = Ok (R, c') /\ sget sci (cid c) = Some (ohm_current nv c R).
Proof.
  revert k0 sci0 sci ex'. induction ex as [|c0 ex IH]; intros k0 sci0 sci ex' H Hnd c Hin Hs;
    simpl in H; [contradiction|].
  inversion Hnd as [|? ? Hnotin Hnd']; subst.
  destruct Hin as [->|Hin].
  - rewrite Hs in H. bind_step H r E. destruct r as [[R|] c1].
    + bind_step H cur Ecur. bind_step H r' E'. destruct r' as [sci1 rest].
      inversion H; subst. exists (Some R), c1. split; [first [exact E|reflexivity]|].
      rewrite (solver_currents_other _ _ _ _ _ _ _ _ _ _ E' Hnotin).
      rewrite sget_sset_same. simpl. now rewrite (py_div_ok _ _ _ Ecur).
    + bind_step H r' E'. destruct r' as [sci1 rest].
      inversion H; subst. exists None, c1. split; [first [exact E|reflexivity]|].
      rewrite (solver_currents_other _ _ _ _ _ _ _ _ _ _ E' Hnotin).
      now rewrite sget_sset_same.
  - destruct (is_socket c0).
    + bind_step H r E. destruct r as [sci1 rest]. inversion H; subst. eauto.
    + bind_step H r E. destruct r as [[R|] c1].
      * bind_step H cur Ecur. bind_step H r' E'. destruct r' as [sci1 rest].
        inversion H; subst. eauto.
      * bind_step H r' E'. destruct r' as [sci1 rest].
        inversion H; subst. eauto.
Qed.

(** The same for a component whose identifier no other solver component
    bears. *)
Lemma solver_currents_value_at (nv : dict Point float) (sol : list float) (n : nat)
      (vs ex ex' : list Component) (k0 : nat) (sci0 sci : dict string float)
      (c : Component) :
  solver_currents parse nv sol n vs ex k0 sci0 = Ok (sci, ex') ->
  (forall c2, In c2 ex -> cid c2 = cid c -> c2 = c) ->
  In c ex -> is_socket c = false ->
  exists R c', eff c = Ok (R, c') /\ sget sci (cid c) = Some (ohm_current nv c R).
Proof.
  revert k0 sci0 sci ex'. induction ex as [|c0 ex IH]; intros k0 sci0 sci ex' H Hown Hin Hs;
    simpl in H; [contradiction|].
  destruct (in_dec string_dec (cid c) (map cid ex)) as [Hlater|Hnotin].
  - (* a later component bears the identifier: it is [c] *)
    apply in_map_iff in Hlater. destruct Hlater as (c2 & Hid & Hin2).
    assert (c2 = c) by (apply Hown; [now right|exact Hid]). subst c2.
    assert (Hown' : forall c2, In c2 ex -> cid c2 = cid c -> c2 = c)
      by (intros c2 H2; apply Hown; now right).
    destruct (is_socket c0).
    + bind_step H r E. destruct r as [sci1 rest]. inversion H; subst. eauto.
    + bind_step H r E. destruct r as [[R|] c1].
      * bind_step H cur Ecur. bind_step H r' E'. destruct r' as [sci1 rest].
        inversion H; subst. eauto.
      * bind_step H r' E'. destruct r' as [sci1 rest].
        inversion H; subst. eauto.
  - destruct Hin as [->|Hin]; [|exfalso; apply Hnotin; now apply in_map].
    rewrite Hs in H. bind_step H r E. destruct r as [[R|] c1].
    + bind_step H cur Ecur. bind_step H r' E'. destruct r' as [sci1 rest].
      inversion H; subst. exists (Some R), c1. split; [first [exact E|reflexivity]|].
      rewrite (solver_currents_other _ _ _ _ _ _ _ _ _ _ E' Hnotin).
      rewrite sget_sset_same. simpl. now rewrite (py_div_ok _ _ _ Ecur).
    + bind_step H r' E'. destruct r' as [sci1 rest].
      inversion H; subst. exists None, c1. split; [first [exact E|reflexivity]|].
      rewrite (solver_currents_other _ _ _ _ _ _ _ _ _ _ E' Hnotin).
      now rewrite sget_sset_same.
Qed.

(** One turn of the branch loop hands the rest of the loop the branch
    mapping with this item's entry set. *)
Lemma branch_loop_step (scid parent : string) (items : list (string * string))
      (labels : dict string string) (sci : dict string float) (ex : list Component)
      (flags0 : dict string string) (cbi0 : dict string (dict string float)) r :
  branch_loop parse ((scid, parent) :: items) labels sci ex flags0 cbi0 = Ok r ->
  exists ex1 flags1,
    branch_loop parse items labels sci ex1 flags1
      (sset cbi0 parent
            (sset (sget_or cbi0 parent []) (sget_or labels scid "main")
                  (sget_or sci scid 0%float))) = Ok r.
Proof.
  simpl. intros H.
  destruct (find_cid ex scid) as [i|]; [|eauto].
  destruct (nth_error ex i) as [sc|]; [|eauto].
  destruct (is_socket sc); [eauto|].
  bind_step H q E. destruct q as [[R|] sc']; eauto.
Qed.

Lemma branch_loop_cbi (items : list (string * string)) (labels : dict string string)
      (sci : dict string float) (ex ex' : list Component)
      (flags0 flags : dict string string) (cbi0 cbi : dict string (dict string float)) :
  branch_loop parse items labels sci ex flags0 cbi0 = Ok (flags, cbi, ex') ->
  NoDup (map (fun it => (snd it, sget_or labels (fst it) "main")) items) ->
  (forall it, In it items ->
     sget (sget_or cbi (snd it) []) (sget_or labels (fst it) "main")
     = Some (sget_or sci (fst it) 0%float)) /\
  (forall p l, ~ In (p, l) (map (fun it => (snd it, sget_or labels (fst it) "main")) items) ->
     sget (sget_or cbi p []) l = sget (sget_or cbi0 p []) l).
Proof.
  revert ex flags0 cbi0. induction items as [|[scid parent] items IH];
    intros ex flags0 cbi0 H Hnd.
  - simpl in H. inversion H; subst. split; [intros it []|auto].
  - apply branch_loop_step in H. destruct H as (ex1 & flags1 & H).
    inversion Hnd as [|? ? Hnotin Hnd']; subst.
    destruct (IH _ _ _ H Hnd') as [Hin Hout]. split.
    + intros it [<-|Hit]; [|auto]. cbn [fst snd] in *.
      rewrite (Hout _ _ Hnotin), branch_set_get, !String.eqb_refl. reflexivity.
    + intros p l Hpl. simpl in Hpl.
      rewrite Hout by (intros Hi; apply Hpl; now right).
      rewrite branch_set_get.
      destruct (String.eqb_spec p parent) as [->|Hp]; [|reflexivity].
      destruct (String.eqb_spec l (sget_or labels scid "main")) as [->|Hl]; [|reflexivity].
      exfalso. apply Hpl. now left.
Qed.

End CurrentProofs.

(* ------------------------------------------------------------------ *)
(** ** Identifiers of the solver components *)

Lemma register_fresh (e0 : Expansion) (ents : list Entry) :
  NoDup (map fst (solver_parent e0) ++ map (fun t => cid (entry_comp t)) ents) ->
  map fst (solver_label e0) = map fst (solver_parent e0) ->
  solver_parent (register e0 ents)
  = solver_parent e0 ++ map (fun t => (cid (entry_comp t), entry_parent t)) ents /\
  solver_label (register e0 ents)
  = solver_label e0 ++ map (fun t => (cid (entry_comp t), entry_label t)) ents.
Proof.
  revert e0. induction ents as [|t ents IH]; intros e0 Hnd Hk; simpl.
  - now rewrite !app_nil_r.
  - assert (Hfresh : ~ In (cid (entry_comp t)) (map fst (solver_parent e0))).
    { simpl in Hnd. apply NoDup_remove_2 in Hnd. intros Hi. apply Hnd.
      apply in_or_app. now left. }
    assert (Hp : solver_parent (add_solver e0 (entry_comp t) (entry_parent t) (entry_label t))
                 = solver_parent e0 ++ [(cid (entry_comp t), entry_parent t)])
      by (simpl; now apply sset_fresh).
    assert (Hl : solver_label (add_solver e0 (entry_comp t) (entry_parent t) (entry_label t))
                 = solver_label e0 ++ [(cid (entry_comp t), entry_label t)])
      by (simpl; apply sset_fresh; now rewrite Hk).
    unfold register in *. simpl.
    destruct (IH (add_solver e0 (entry_comp t) (entry_parent t) (entry_label t))) as [Hp' Hl'].
    + rewrite Hp, map_app. simpl. rewrite <- app_assoc. exact Hnd.
    + rewrite Hp, Hl, !map_app, Hk. reflexivity.
    + rewrite Hp', Hl', Hp, Hl, <- !app_assoc. auto.
Qed.

Lemma expansion_entries_ids (comps : list Component) (ents : list Entry) :
  expansion_entries comps = Ok ents ->
  Forall (fun t => cid (entry_comp t) = solver_id (entry_parent t) (entry_label t)) ents.
Proof.
  revert ents. induction comps as [|c comps IH]; intros ents H; simpl in H.
  - inversion H. constructor.
  - bind_step H items Ei. bind_step H ents_r Er. inversion H; subst ents. clear H.
    apply Forall_app. split; [|now apply IH].
    apply Forall_forall. intros t Ht. apply in_map_iff in Ht. destruct Ht as (it & <- & Hit).
    unfold entry_comp, entry_parent, entry_label, solver_id. cbn [fst snd].
    destruct (solver_items_shape c items Ei) as [[_ ->]|(n & _ & _ & _ & Hall)].
    + destruct Hit as [<-|[]]. reflexivity.
    + rewrite Forall_forall in Hall. destruct (Hall it Hit) as (_ & Hl & Hc).
      apply String.eqb_neq in Hl. now rewrite Hl.
Qed.

(** Distinct solver identifiers make distinct (parent, label) pairs. *)
Lemma entry_branches_distinct (ents : list Entry) :
  Forall (fun t => cid (entry_comp t) = solver_id (entry_parent t) (entry_label t)) ents ->
  NoDup (map (fun t => cid (entry_comp t)) ents) ->
  NoDup (map (fun t => (entry_parent t, entry_label t)) ents).
Proof.
  intros Hall Hnd.
  apply (NoDup_map_inv (fun pl => solver_id (fst pl) (snd pl))).
  rewrite map_map. cbn [fst snd].
  replace (map (fun t => solver_id (entry_parent t) (entry_label t)) ents)
    with (map (fun t => cid (entry_comp t)) ents); [exact Hnd|].
  apply map_ext_in. intros t Ht. rewrite Forall_forall in Hall. auto.
Qed.

(** Whatever identifiers the entries bear, the two mappings of the
    expansion keep their keys distinct, hold every identifier
    registered, and hold under each a parent and a label that make it. *)
Lemma register_ids (ents : list Entry) (e0 : Expansion) :
  Forall (fun t => cid (entry_comp t) = solver_id (entry_parent t) (entry_label t)) ents ->
  NoDup (map fst (solver_parent e0)) ->
  (forall sid p, sget (solver_parent e0) sid = Some p ->
     exists l, sget (solver_label e0) sid = Some l /\ solver_id p l = sid) ->
  NoDup (map fst (solver_parent (register e0 ents))) /\
  (forall sid p, sget (solver_parent (register e0 ents)) sid = Some p ->
     exists l, sget (solver_label (register e0 ents)) sid = Some l /\ solver_id p l = sid) /\
  (forall sid, sget (solver_parent e0) sid <> None \/
               In sid (map (fun t => cid (entry_comp t)) ents) ->
     sget (solver_parent (register e0 ents)) sid <> None).
Proof.
  revert e0. induction ents as [|t ents IH]; intros e0 Hids Hnd Hpl.
  - cbn. repeat split; auto. intros sid [H|[]]. exact H.
  - inversion Hids as [|? ? Ht Hids']; subst.
    set (e1 := add_solver e0 (entry_comp t) (entry_parent t) (entry_label t)).
    assert (Hnd1 : NoDup (map fst (solver_parent e1))) by (cbn; now apply sset_nodup).
    assert (Hpl1 : forall sid p, sget (solver_parent e1) sid = Some p ->
                     exists l, sget (solver_label e1) sid = Some l /\ solver_id p l = sid).
    { intros sid p. cbn [e1 add_solver solver_parent solver_label].
      destruct (String.eqb_spec (cid (entry_comp t)) sid) as [<-|Hne].
      - rewrite !sget_sset_same. intros H. injection H as <-.
        exists (entry_label t). split; [reflexivity|]. now symmetry.
      - rewrite !sget_sset_other by congruence. apply Hpl. }
    destruct (IH e1 Hids' Hnd1 Hpl1) as (J1 & J2 & J3).
    change (register e0 (t :: ents)) with (register e1 ents).
    repeat split; [exact J1|exact J2|].
    intros sid H. apply J3. cbn [e1 add_solver solver_parent].
    destruct (String.eqb_spec (cid (entry_comp t)) sid) as [<-|Hne].
    + left. rewrite sget_sset_same. discriminate.
    + rewrite sget_sset_other by congruence.
      destruct H as [H|[H|H]]; [now left|congruence|now right].
Qed.

Section OhmProofs.
Variable parse : string -> list float.
Local Abbreviation eff := (effective_resistance parse).

(** C1, as the code has it: after a successful solve of a system that is
    not empty, every non-source solver component of the circuit whose
    identifier no other solver component bears is reported with the
    current Ohm's law gives it from the solved endpoint voltages,
    [(Va - Vb) / R], or with exactly 0 when it is open. *)
Theorem ohms_law_reported (cir : Circuit) (res : SolveResult) (cir' : Circuit)
        (e' : Expansion) (c : Component) (R : option float) (c'' : Component) :
  solve_circuit parse cir = Ok (res, cir') ->
  ok res = true ->
  system_size cir <> Ok 0 ->
  solver_components cir' = Ok e' ->
  In c (expanded e') ->
  (forall c2, In c2 (expanded e') -> cid c2 = cid c -> c2 = c) ->
  is_socket c = false ->
  eff c = Ok (R, c'') ->
  reported_current res e' c = Some (ohm_current (node_v res) c R).
Proof.
  intros Hs Hok Hsize He' Hin Hown Hsock Heff.
  destruct (solve_circuit_inv parse _ _ _ Hs) as (e & exf & He & Hx & ->).
  assert (Hsz : system_size cir
                = Ok (List.length (node_numbering (find_ground (dict_values (components cir)))
                                                  (expanded e)) +
                      List.length (sources (expanded e))))
    by (unfold system_size; now rewrite He).
  rewrite expand_all_register in He. bind_step He ents Ee. inversion He as [Hreg]. clear He.
  assert (Hexp : expanded e = map entry_comp ents)
    by (subst e; now rewrite register_expanded).
  destruct (solve_expanded_cases parse _ _ _ _ _ Hx)
    as [(HN & _)|(HN & A & bv & Hmna & Hst & Hres)].
  { exfalso. apply Hsize. rewrite Hsz. cbv zeta in HN. now rewrite HN. }
  destruct Hres as [(_ & ->)|(sol & sci & flags & cbi & Hlin & Hcur & Hbr & ->)];
    [discriminate Hok|].
  rewrite Hexp in Hst.
  destruct (rebuild_expansion parse _ _ _ Ee Hst) as (ents' & Ee' & Hc' & Hk' & _ & _).
  unfold solver_components in He'. cbn [components] in He'.
  rewrite expand_all_register, Ee' in He'. cbn [bind] in He'. inversion He' as [Hreg']. clear He'.
  destruct (register_maps (mkExpansion [] [] []) (mkExpansion [] [] []) ents ents'
              eq_refl eq_refl Hk') as [Hpar Hlab].
  rewrite Hreg, Hreg' in Hpar, Hlab.
  assert (Hexp' : expanded e' = exf)
    by (rewrite <- Hreg', register_expanded; exact Hc').
  rewrite Hexp' in Hown, Hin.
  (* the current recorded for [c] *)
  destruct (solver_currents_value_at parse _ _ _ _ _ _ _ _ _ c Hcur Hown Hin Hsock)
    as (R0 & c0 & Heff0 & Hsci).
  rewrite Heff in Heff0. inversion Heff0; subst R0 c0. clear Heff0.
  (* the two mappings of the expansion *)
  destruct (register_ids ents' (mkExpansion [] [] [])
              (expansion_entries_ids _ _ Ee') (NoDup_nil _)) as (J1 & J2 & J3).
  { intros sid p H. discriminate H. }
  rewrite Hreg' in J1, J2, J3.
  destruct (sget (solver_parent e') (cid c)) as [p|] eqn:Hgp.
  2:{ exfalso. apply (J3 (cid c)); [|exact Hgp]. right.
      rewrite <- (map_map entry_comp cid), Hc'. now apply in_map. }
  destruct (J2 _ _ Hgp) as (l & Hgl & Hid).
  unfold reported_current. rewrite ?Hreg'. rewrite Hgp, Hgl. cbn [comp_branch_i report].
  (* the branch loop wrote that current under (parent, label) *)
  rewrite <- Hpar, <- Hlab in Hbr.
  destruct (branch_loop_cbi parse _ _ _ _ _ _ _ _ _ Hbr) as [Hwritten _].
  { apply (NoDup_map_inv (fun pl => solver_id (fst pl) (snd pl))).
    rewrite map_map. cbn [fst snd].
    replace (map (fun it => solver_id (snd it) (sget_or (solver_label e') (fst it) "main"))
                 (solver_parent e'))
      with (map fst (solver_parent e')); [exact J1|].
    apply map_ext_in. intros [sid' p'] Hit. cbn [fst snd].
    destruct (J2 _ _ (sget_in_nodup _ _ _ J1 Hit)) as (l' & Hl' & Hid').
    unfold sget_or, dict_get_or. fold (@sget string). rewrite Hl'. now symmetry. }
  specialize (Hwritten (cid c, p) (sget_in _ _ _ Hgp)).
  cbn [fst snd] in Hwritten.
  unfold sget_or at 2 in Hwritten. unfold dict_get_or in Hwritten.
  fold (@sget string) in Hwritten. rewrite Hgl in Hwritten.
  rewrite Hwritten.
  unfold sget_or, dict_get_or. fold (@sget float). rewrite Hsci. reflexivity.
Qed.

End OhmProofs.

Lemma ohms_law_reported_witness :
  exists res cir' e' c,
    solve_circuit parse_unsigned_list rheostat_loop = Ok (res, cir') /\
    solver_components cir' = Ok e' /\
    In c (expanded e') /\ cid c = "rh" /\
    reported_current res e' c = Some (ohm_current (node_v res) c (Some 100%float)).
Proof.
  eexists _, _, _, _.
  split; [vm_compute; reflexivity|].
  split; [vm_compute; reflexivity|].
  split; [right; left; reflexivity|].
  split; [reflexivity|].
  eapply (ohms_law_reported parse_unsigned_list rheostat_loop).
  - vm_compute. reflexivity.
  - reflexivity.
  - intros H. vm_compute in H. discriminate.
  - vm_compute. reflexivity.
  - right. left. reflexivity.
  - intros c2 [<-|[<-|[<-|[]]]] Hid; try reflexivity; discriminate Hid.
  - reflexivity.
  - vm_compute. reflexivity.
Defined.

(** C1 as stated fails in two ways. On the empty system (here a resistor
    with both ends on the ground node) the solve succeeds and reports no
    current at all. And when a component bears the identifier of a
    surrogate (here the resistor ["k:t0"] beside the switch ["k"]), the
    two share one entry of [solver_parent] and of the solver currents:
    the closed switch carries 0.1 A and is reported with the 0.2 A of the
    resistor. *)
Lemma ohms_law_counterexample :
  (exists res cir' e' c,
     solve_circuit parse_unsigned_list grounded_resistor = Ok (res, cir') /\
     ok res = true /\
     solver_components cir' = Ok e' /\
     In c (expanded e') /\ is_socket c = false /\
     effective_resistance parse_unsigned_list c = Ok (Some 100%float, c) /\
     reported_current res e' c = None) /\
  (exists res cir' e' c I,
     solve_circuit parse_unsigned_list colliding_ids = Ok (res, cir') /\
     ok res = true /\
     system_size colliding_ids = Ok 3 /\
     solver_components cir' = Ok e' /\
     In c (expanded e') /\ is_socket c = false /\ ctype c = "switch_spst" /\
     effective_resistance parse_unsigned_list c = Ok (Some R_NEAR_SHORT, c) /\
     reported_current res e' c = Some I /\
     (I =? ohm_current (node_v res) c (Some R_NEAR_SHORT))%float = false).
Proof.
  split.
  - eexists _, _, _, _. split; [vm_compute; reflexivity|].
    split; [reflexivity|]. split; [vm_compute; reflexivity|].
    split; [left; reflexivity|]. repeat split; vm_compute; reflexivity.
  - eexists _, _, _, _, _. split; [vm_compute; reflexivity|].
    split; [reflexivity|]. split; [vm_compute; reflexivity|].
    split; [vm_compute; reflexivity|].
    split; [right; left; reflexivity|].
    split; [reflexivity|]. split; [reflexivity|].
    split; [vm_compute; reflexivity|].
    split; [vm_compute; reflexivity|]. vm_compute. reflexivity.
Qed.

Lemma solve_circuit_idempotent_witness :
  exists res cir',
    solve_circuit parse_unsigned_list rheostat_loop = Ok (res, cir') /\
    component_prop rheostat_loop "rh" "R" = Some 500%float /\
    component_prop cir' "rh" "R" = Some 100%float /\
    solve_circuit parse_unsigned_list cir' = Ok (res, cir').
Proof.
  eexists _, _.
  split; [vm_compute; reflexivity|].
  split; [reflexivity|].
  split; [reflexivity|].
  apply (solve_circuit_idempotent parse_unsigned_list rheostat_loop). vm_compute. reflexivity.
Defined.

(* ------------------------------------------------------------------ *)
(** ** What a solve and a measurement do to one component *)

Lemma rebuild_keys (d : dict string Component) (ex : list Component) :
  map fst (rebuild d ex) = map fst d.
Proof.
  revert ex. induction d as [|[k c] d IH]; intros ex; simpl; [reflexivity|].
  destruct (surrogate_count c); simpl; [now rewrite IH|].
  destruct ex; simpl; now rewrite IH.
Qed.

Lemma sget_Forall2 (R : Component -> Component -> Prop) (d d' : dict string Component)
      (k : string) (c : Component) :
  map fst d' = map fst d ->
  Forall2 R (dict_values d) (dict_values d') ->
  sget d k = Some c ->
  exists c', sget d' k = Some c' /\ R c c'.
Proof.
  unfold sget, dict_values. revert d'.
  induction d as [|[k0 c0] d IH]; intros [|[k0' c0'] d'] Hk HR Hg; simpl in *;
    try discriminate.
  inversion Hk; subst. inversion HR; subst.
  destruct (String.eqb k0 k).
  - inversion Hg; subst. eauto.
  - eauto.
Qed.

Lemma sget_replace_component (cir : Circuit) (k0 k : string) (c0 : Component) :
  sget (components (replace_component cir k0 c0)) k
  = if k0 =? k then option_map (fun _ => c0) (sget (components cir) k)
    else sget (components cir) k.
Proof.
  unfold replace_component, sget. simpl. induction (components cir) as [|[k1 c1] d IH]; simpl.
  - now destruct (k0 =? k).
  - destruct (String.eqb_spec k1 k0) as [->|Hne]; simpl.
    + destruct (String.eqb_spec k0 k) as [->|Hk]; [reflexivity|]. rewrite IH.
      destruct (String.eqb_spec k0 k); [contradiction|reflexivity].
    + destruct (String.eqb_spec k1 k) as [->|Hk].
      * destruct (String.eqb_spec k0 k) as [->|]; [contradiction|reflexivity].
      * exact IH.
Qed.

Section ComponentProofs.
Variable parse : string -> list float.
Local Abbreviation eff := (effective_resistance parse).

Lemma stepped_resolved (c c' : Component) : stepped parse c c' -> resolved parse c c'.
Proof.
  unfold stepped, resolved. destruct (is_socket c); [now left|now right].
Qed.

Lemma evolved_resolved (c c' : Component) : evolved parse c c' -> resolved parse c c'.
Proof.
  unfold evolved. destruct (surrogate_count c); [now left|apply stepped_resolved].
Qed.


Lemma solve_circuit_component (cir : Circuit) (res : SolveResult) (cir' : Circuit)
      (k : string) (c : Component) :
  solve_circuit parse cir = Ok (res, cir') ->
  sget (components cir) k = Some c ->
  exists c', sget (components cir') k = Some c' /\ resolved parse c c'.
Proof.
  intros Hs Hg.
  destruct (solve_circuit_inv parse _ _ _ Hs) as (e & exf & He & Hx & ->).
  rewrite expand_all_register in He. bind_step He ents Ee. inversion He as [Hreg]. clear He.
  assert (Hexp : expanded e = map entry_comp ents)
    by (subst e; now rewrite register_expanded).
  cbn [components].
  destruct (solve_expanded_cases parse _ _ _ _ _ Hx)
    as [(_ & _ & ->)|(_ & A & bv & _ & Hst & _)].
  - rewrite Hexp, (rebuild_unchanged _ _ Ee). exists c. split; [exact Hg|now left].
  - rewrite Hexp in Hst.
    destruct (rebuild_expansion parse _ _ _ Ee Hst) as (_ & _ & _ & _ & Hev & _).
    destruct (sget_Forall2 (evolved parse) _ _ k c (rebuild_keys _ _) Hev Hg) as (c' & Hg' & Hc').
    exists c'. split; [exact Hg'|now apply evolved_resolved].
Qed.

Lemma goal_measure_component (res : SolveResult) (cir cir' : Circuit) (spec : MeasureSpec)
      (mv : option float) (k : string) (c : Component) :
  _goal_measure parse res cir spec = Ok (mv, cir') ->
  sget (components cir) k = Some c ->
  exists c', sget (components cir') k = Some c' /\ resolved parse c c'.
Proof.
  unfold _goal_measure. intros H Hg.
  assert (Hsame : exists c', sget (components cir) k = Some c' /\ resolved parse c c')
    by (exists c; split; [exact Hg|now left]).
  destruct (_ =? "node").
  { destruct (m_node spec); inversion H; subst; exact Hsame. }
  destruct (m_cid spec) as [k0|]; [|inversion H; subst; exact Hsame].
  match type of H with
  | match ?o with _ => _ end = _ => destruct o
  end; [inversion H; subst; exact Hsame|].
  destruct (sget (components cir) k0) as [comp|] eqn:Hk0; [|inversion H; subst; exact Hsame].
  unfold component_metrics in H. bind_step H r E. destruct r as [m comp'].
  bind_step E q Eqq. destruct q as [R comp''].
  assert (comp'' = comp') by (destruct R; inversion E; reflexivity). subst comp''.
  assert (Hc : sget (components (replace_component cir k0 comp')) k
               = if k0 =? k then Some comp' else Some c).
  { rewrite sget_replace_component. destruct (k0 =? k); now rewrite Hg. }
  assert (Hout : cir' = replace_component cir k0 comp')
    by (destruct (sget m _); inversion H; reflexivity).
  subst cir'. rewrite Hc.
  destruct (String.eqb_spec k0 k) as [->|Hne].
  - exists comp'. split; [reflexivity|]. right. exists R.
    rewrite Hk0 in Hg. inversion Hg; subst. exact Eqq.
  - exists c. split; [reflexivity|now left].
Qed.


End ComponentProofs.

(* ------------------------------------------------------------------ *)
(** ** Goal seek: what every evaluation keeps *)

Lemma fset_miss (cache : Cache) (x : float) (r : option (float * float)) :
  fget cache x = None -> fset cache x r = cache ++ [(x, r)].
Proof.
  unfold fget, fset. induction cache as [|[x' r'] cache IH]; simpl; [reflexivity|].
  destruct (x' =? x)%float; [discriminate|]. intros H. now rewrite IH.
Qed.


Lemma sget_set_component_prop (cir : Circuit) (k name : string) (x : float) (c : Component) :
  sget (components cir) k = Some c ->
  sget (components (set_component_prop cir k name x)) k = Some (set_prop c name x).
Proof.
  intros H. unfold set_component_prop. rewrite H, sget_replace_component.
  now rewrite String.eqb_refl, H.
Qed.

Ltac split_let H :=
  match type of H with
  | context [match ?t with pair _ _ => _ end] => destruct t
  end.

Section GoalSeekProofs.
Variable parse : string -> list float.
Variable rq : GoalSeekRequest.

(** An evaluation that misses the memo solves the circuit with the
    property set to the point, possibly measures, and appends the point to
    the memo. *)
Lemma eval_err_miss (x : float) (cir cir' : Circuit) (cache cache' : Cache) r :
  fget cache x = None ->
  eval_err parse rq x (cir, cache) = Ok (r, (cir', cache')) ->
  exists res cir2,
    solve_circuit parse (set_component_prop cir (var_cid rq) (var_prop rq) x)
      = Ok (res, cir2) /\
    (cir' = cir2 \/ exists mv, _goal_measure parse res cir2 (measure rq) = Ok (mv, cir')) /\
    cache' = cache ++ [(x, r)].
Proof.
  intros Hmiss H. unfold eval_err in H. rewrite Hmiss in H.
  bind_step H q Es. destruct q as [res cir2]. exists res, cir2. split; [reflexivity|].
  destruct (negb (ok res)).
  { inversion H; subst. rewrite fset_miss by exact Hmiss. auto. }
  destruct (_ && _).
  { inversion H; subst. rewrite fset_miss by exact Hmiss. auto. }
  bind_step H q Em. destruct q as [mv cir3].
  destruct mv as [mvf|].
  - destruct (negb (isfinite mvf)).
    { inversion H; subst. rewrite fset_miss by exact Hmiss. eauto. }
    destruct (negb (isfinite _)).
    { inversion H; subst. rewrite fset_miss by exact Hmiss. eauto. }
    inversion H; subst. rewrite fset_miss by exact Hmiss. eauto.
  - inversion H; subst. rewrite fset_miss by exact Hmiss. eauto.
Qed.

Lemma eval_err_hit (x : float) (st st' : Circuit * Cache) r r0 :
  fget (snd st) x = Some r0 ->
  eval_err parse rq x st = Ok (r, st') ->
  st' = st.
Proof.
  intros Hhit H. unfold eval_err in H. destruct st as [cir cache]. simpl in Hhit.
  rewrite Hhit in H. now inversion H.
Qed.

Lemma eval_err_present (x : float) (st st' : Circuit * Cache) r :
  variable_present rq st ->
  eval_err parse rq x st = Ok (r, st') ->
  variable_present rq st'.
Proof.
  intros [c Hc] H. destruct st as [cir cache], st' as [cir' cache']. simpl in Hc.
  destruct (fget cache x) as [r0|] eqn:Hf.
  - apply (eval_err_hit x (cir, cache) _ r r0 Hf) in H. inversion H; subst. now exists c.
  - destruct (eval_err_miss _ _ _ _ _ _ Hf H) as (res & cir2 & Hs & Hm & _).
    pose proof (sget_set_component_prop cir _ (var_prop rq) x c Hc) as H1.
    destruct (solve_circuit_component parse _ _ _ _ _ Hs H1) as (c2 & H2 & _).
    destruct Hm as [->|[mv Hm]].
    + now exists c2.
    + destruct (goal_measure_component parse _ _ _ _ _ _ _ Hm H2) as (c3 & H3 & _).
      now exists c3.
Qed.




(** The loop returns a result only through its two [out.ok = True] exits. *)
Lemma seek_loop_returned_ok (use_bisect : bool) (lo' hi' : float) (its : list nat)
      (s : Seek) (st st' : Circuit * Cache) (out : GoalSeekResult) :
  seek_loop parse rq use_bisect lo' hi' its s st = Ok (Returned out, st') ->
  gs_ok out = true.
Proof.
  revert s st. induction its as [|it its IH]; intros s st H; simpl in H.
  - inversion H.
  - destruct use_bisect.
    + bind_step H q E. destruct q as [[[fm mm]|] st1].
      * destruct (is_done _ _ _); [now inversion H|].
        repeat split_let H. eauto.
      * inversion H.
    + destruct (_ =? 0)%float; [inversion H|].
      bind_step H q E. destruct q as [[[y2 m2]|] st1].
      * destruct (is_done _ _ _); [now inversion H|]. eauto.
      * inversion H.
Qed.

Section Invariant.
Variable Inv : Circuit * Cache -> Prop.
Hypothesis Inv_eval : forall x st st' r,
    Inv st -> eval_err parse rq x st = Ok (r, st') -> Inv st'.

Lemma bracket_loop_inv (turns : nat) (bk : Bracket) (st st' : Circuit * Cache) r :
  Inv st ->
  bracket_loop parse rq turns bk st = Ok (r, st') ->
  Inv st'.
Proof.
  revert bk st. induction turns as [|turns IH]; intros bk st Hi H; simpl in H.
  - inversion H; subst; exact Hi.
  - destruct (straddles _ _); [inversion H; subst; exact Hi|].
    split_let H.
    bind_step H q1 E1. destruct q1 as [r_lo st1].
    bind_step H q2 E2. destruct q2 as [r_hi st2].
    repeat split_let H.
    eapply IH; [|exact H]. eauto.
Qed.

Lemma seek_loop_inv (use_bisect : bool) (lo' hi' : float) (its : list nat) (s : Seek)
      (st st' : Circuit * Cache) ex :
  Inv st ->
  seek_loop parse rq use_bisect lo' hi' its s st = Ok (ex, st') ->
  Inv st'.
Proof.
  revert s st. induction its as [|it its IH]; intros s st Hi H; simpl in H.
  - inversion H; subst; exact Hi.
  - destruct use_bisect.
    + bind_step H q E. destruct q as [[[fm mm]|] st1].
      * destruct (is_done _ _ _); [inversion H; subst; eauto|].
        repeat split_let H.
        eapply IH; [|exact H]. eauto.
      * inversion H; subst; eauto.
    + destruct (_ =? 0)%float; [inversion H; subst; exact Hi|].
      bind_step H q E. destruct q as [[[y2 m2]|] st1].
      * destruct (is_done _ _ _); [inversion H; subst; eauto|].
        eapply IH; [|exact H]. eauto.
      * inversion H; subst; eauto.
Qed.

(** How a goal seek ends: before any evaluation, leaving the circuit as
    it is; or after evaluations, either returning from the loop with
    [ok = True] or writing the saved value back. *)
Lemma goal_seek_run_cases (cir : Circuit) (out : GoalSeekResult) (st' : Circuit * Cache) :
  Inv (cir, []) ->
  goal_seek_run parse rq cir = Ok (out, st') ->
  (gs_ok out = false /\ st' = (cir, [])) \/
  (exists comp st1,
      sget (components cir) (var_cid rq) = Some comp /\ Inv st1 /\
      ((gs_ok out = true /\ st' = st1) \/
       (gs_ok out = false /\
        st' = (set_component_prop (fst st1) (var_cid rq) (var_prop rq)
                 (match sget (props comp) (var_prop rq) with
                  | Some v => v
                  | None => 0%float
                  end),
               snd st1)))).
Proof.
  intros Hi H. unfold goal_seek_run in H.
  destruct (sget (components cir) (var_cid rq)) as [comp|]; [|inversion H; auto].
  destruct (lo rq =? hi rq)%float; [inversion H; auto|].
  right. exists comp.
  split_let H.
  bind_step H q1 E1. destruct q1 as [r_lo st1].
  pose proof (Inv_eval _ _ _ _ Hi E1) as Hi1.
  bind_step H q2 E2. destruct q2 as [r_hi st2].
  pose proof (Inv_eval _ _ _ _ Hi1 E2) as Hi2.
  bind_step H q3 E3. destruct q3 as [[[[lo' hi'] r_lo'] r_hi'] st3].
  assert (Hi3 : Inv st3).
  { match type of E3 with (if ?t then _ else _) = _ => destruct t end.
    - bind_step E3 q E. destruct q as [r_mid st_mid].
      pose proof (Inv_eval _ _ _ _ Hi2 E) as Him.
      destruct r_mid, r_lo, r_hi; inversion E3; subst; exact Him.
    - inversion E3; subst; exact Hi2. }
  destruct r_lo' as [[e_lo m_lo]|], r_hi' as [[e_hi m_hi]|];
    try (inversion H; subst; exists st3; split; [reflexivity|]; split; [exact Hi3|];
         right; split; reflexivity).
  bind_step H q4 E4. destruct q4 as [found st4].
  assert (Hi4 : Inv st4).
  { match type of E4 with (if ?t then _ else _) = _ => destruct t end.
    - eapply bracket_loop_inv; eauto.
    - inversion E4; subst; exact Hi3. }
  repeat split_let H.
  bind_step H q5 E5. destruct q5 as [ex st5].
  pose proof (seek_loop_inv _ _ _ _ _ _ _ _ Hi4 E5) as Hi5.
  exists st5. split; [reflexivity|]. split; [exact Hi5|].
  destruct ex as [out0|fail_reason s].
  - left. inversion H; subst. split; [|reflexivity].
    eapply seek_loop_returned_ok; eauto.
  - right. inversion H; subst. split; reflexivity.
Qed.

End Invariant.

End GoalSeekProofs.

Section GoalSeekTheorems.
Variable parse : string -> list float.
Variable rq : GoalSeekRequest.

Lemma goal_seek_parameter_run (cir : Circuit) (out : GoalSeekResult) (cir' : Circuit) :
  goal_seek_parameter parse rq cir = Ok (out, cir') ->
  exists cache, goal_seek_run parse rq cir = Ok (out, (cir', cache)).
Proof.
  unfold goal_seek_parameter. intros H. bind_step H q E. destruct q as [o [c ch]].
  inversion H; subst. now exists ch.
Qed.

(** C3, as the code has it: when a goal seek on a component that has the
    variable property returns [ok = false], the property holds after the
    call the value it held before. *)
Theorem goal_seek_failure_restores (cir : Circuit) (out : GoalSeekResult)
        (cir' : Circuit) (v : float) :
  goal_seek_parameter parse rq cir = Ok (out, cir') ->
  gs_ok out = false ->
  component_prop cir (var_cid rq) (var_prop rq) = Some v ->
  component_prop cir' (var_cid rq) (var_prop rq) = Some v.
Proof.
  intros H Hok Hv. apply goal_seek_parameter_run in H. destruct H as [cache H].
  unfold component_prop in Hv.
  destruct (sget (components cir) (var_cid rq)) as [comp|] eqn:Hc; [|discriminate].
  assert (Hi : variable_present rq (cir, [])) by (exists comp; exact Hc).
  destruct (goal_seek_run_cases parse rq (variable_present rq)
              (eval_err_present parse rq) cir out (cir', cache) Hi H)
    as [(_ & Hst)|(comp0 & st1 & Hc0 & [c1 Hc1] & [(Hok' & _)|(_ & Hst)])].
  - inversion Hst; subst. unfold component_prop. now rewrite Hc.
  - congruence.
  - inversion Hst; subst. rewrite Hc in Hc0. inversion Hc0; subst comp0.
    rewrite Hv. unfold component_prop.
    rewrite (sget_set_component_prop _ _ _ _ _ Hc1). apply sget_sset_same.
Qed.


End GoalSeekTheorems.

Lemma goal_seek_failure_restores_witness :
  exists out cir',
    goal_seek_parameter parse_unsigned_list seek_out_of_reach resistor_loop
      = Ok (out, cir') /\
    gs_ok out = false /\
    component_prop cir' "r" "R" = Some 50%float.
Proof.
  eexists _, _. split; [vm_compute; reflexivity|]. split; [reflexivity|].
  eapply (goal_seek_failure_restores parse_unsigned_list seek_out_of_reach resistor_loop).
  - vm_compute. reflexivity.
  - reflexivity.
  - vm_compute. reflexivity.
Defined.

(** C3 as stated fails when the property is absent before the call: the
    failed goal seek leaves it present, with the value 0. *)
Lemma goal_seek_failure_counterexample :
  exists out cir',
    goal_seek_parameter parse_unsigned_list seek_out_of_reach bare_resistor_loop
      = Ok (out, cir') /\
    gs_ok out = false /\
    component_prop bare_resistor_loop "r" "R" = None /\
    component_prop cir' "r" "R" = Some 0%float.
Proof.
  eexists _, _. split; [vm_compute; reflexivity|].
  split; [reflexivity|]. split; vm_compute; reflexivity.
Qed.



(** The memo of [eval_err] can also answer the winning iterate without
    writing the property: here the secant step lands on the lower bound,
    which was evaluated first, and the property stays at the upper bound. *)
Example goal_seek_memo_hit_keeps_older_point :
  exists out cir',
    goal_seek_parameter parse_unsigned_list seek_at_lower_bound resistor_loop
      = Ok (out, cir') /\
    gs_ok out = true /\
    gs_value out = 1%float /\
    component_prop cir' "r" "R" = Some 2%float.
Proof.
  eexists _, _. split; [vm_compute; reflexivity|].
  split; [reflexivity|]. split; [reflexivity|]. vm_compute. reflexivity.
Qed.

(* ================================================================== *)
(** * Further properties of the code *)

(** ** Zero against a positive bound *)

Lemma eqb_zero_inv (x : float) :
  (x =? 0)%float = true -> exists s, Prim2SF x = S754_zero s.
Proof.
  rewrite FloatAxioms.eqb_spec. change (Prim2SF 0) with (S754_zero false).
  unfold SFeqb, SFcompare.
  destruct (Prim2SF x) as [s| s| |s m e]; try discriminate; eauto.
  all: destruct s; discriminate.
Qed.

Lemma not_below_nonzero (x c : float) :
  (0 <? c)%float = true -> (x <? c)%float = false -> (x =? 0)%float = false.
Proof.
  intros Hc Hx. destruct (x =? 0)%float eqn:E; [|reflexivity].
  apply eqb_zero_inv in E. destruct E as [s E].
  rewrite ltb_spec in Hc, Hx. rewrite E in Hx.
  change (Prim2SF 0) with (S754_zero false) in Hc.
  unfold SFltb, SFcompare in *. rewrite Hx in Hc. discriminate.
Qed.

Lemma not_leb_nonzero (x c : float) :
  (0 <? c)%float = true -> (x <=? c)%float = false -> (x =? 0)%float = false.
Proof.
  intros Hc Hx. destruct (x =? 0)%float eqn:E; [|reflexivity].
  apply eqb_zero_inv in E. destruct E as [s E].
  rewrite ltb_spec in Hc. rewrite FloatAxioms.leb_spec in Hx. rewrite E in Hx.
  change (Prim2SF 0) with (S754_zero false) in Hc.
  unfold SFltb, SFleb, SFcompare in *.
  destruct (Prim2SF c) as [s'| s'| |s' m e]; try discriminate;
    destruct s'; discriminate.
Qed.

Lemma abs_zero_below (x c : float) :
  (0 <? c)%float = true -> (x =? 0)%float = true -> (abs x <? c)%float = true.
Proof.
  intros Hc E. apply eqb_zero_inv in E. destruct E as [s E].
  rewrite ltb_spec in *. rewrite abs_spec, E. exact Hc.
Qed.

(** [max(x, c)] is never below a bound that [c] reaches. *)
Lemma pymax_not_below (x c lo : float) :
  (lo <? c)%float = true \/ lo = c ->
  (pymax x c <? lo)%float = false.
Proof.
  intros H. unfold pymax. destruct (x <? c)%float eqn:E.
  - destruct H as [H|H]; [apply ltb_asym; exact H|subst; apply ltb_irrefl].
  - destruct (x <? lo)%float eqn:E2; [|reflexivity].
    destruct H as [H|H].
    + rewrite (ltb_trans _ _ _ E2 H) in E. discriminate.
    + subst. congruence.
Qed.

Lemma pymax_nonzero (x c : float) :
  (0 <? c)%float = true -> (pymax x c =? 0)%float = false.
Proof.
  intros Hc. apply (not_below_nonzero _ c Hc), pymax_not_below. now right.
Qed.

(* ================================================================== *)
(** ** Resistances: floors and exceptions *)

Lemma bulb_resistance_ok (Vr Wr : float) :
  exists r, bulb_resistance Vr Wr = Ok r /\ (r <? 1e-6)%float = false.
Proof.
  unfold bulb_resistance. destruct (Wr <=? 1e-12)%float eqn:E.
  - eexists; split; [reflexivity|]. vm_compute. reflexivity.
  - unfold py_div. rewrite (not_leb_nonzero Wr 1e-12 eq_refl E). cbn [bind].
    eexists; split; [reflexivity|]. apply pymax_not_below. now right.
Qed.

Section ResistanceProofs.
Variable parse : string -> list float.

Lemma meter_effective_resistance_floor (c : Component) (r : float) :
  meter_effective_resistance parse c = Ok r -> (r <? R_NEAR_SHORT)%float = false.
Proof.
  unfold meter_effective_resistance. intros H.
  repeat match type of H with
         | (if ?t then _ else _) = _ => destruct t
         | match ?t with Some _ => _ | None => _ end = _ => destruct t
         end;
    bind_inv H;
    repeat match type of H with
           | (if ?t then _ else _) = _ => destruct t
           end;
    bind_inv H;
    injection H as <-;
    first [ apply pymax_not_below; now right | vm_compute; reflexivity ].
Qed.

Lemma effective_resistance_not_below (c c' : Component) (R : float) :
  effective_resistance parse c = Ok (Some R, c') -> (R <? R_NEAR_SHORT)%float = false.
Proof.
  unfold effective_resistance. intros H.
  repeat match type of H with
         | (if ?t then _ else _) = _ => destruct t
         end.
  - injection H as <- _. apply ltb_irrefl.
  - injection H as <- _. apply pymax_not_below. now left.
  - destruct (bulb_resistance_ok (prop c "Vr" 6) (prop c "Wr" 3)) as [r [E Hr]].
    rewrite E in H. cbn [bind] in H. injection H as <- _.
    destruct (r <? R_NEAR_SHORT)%float eqn:E2; [|reflexivity].
    rewrite (ltb_trans r R_NEAR_SHORT 1e-6 E2 eq_refl) in Hr. discriminate.
  - destruct (if (_ <? _)%float then _ else _).
    injection H as <- _. apply pymax_not_below. now left.
  - bind_step H r E. injection H as <- _. exact (meter_effective_resistance_floor _ _ E).
  - bind_step H r E. injection H as <- _. exact (meter_effective_resistance_floor _ _ E).
  - bind_step H r E. injection H as <- _. exact (meter_effective_resistance_floor _ _ E).
  - bind_step H r E. destruct (r =? 1)%Z; [|discriminate].
    injection H as <- _. apply ltb_irrefl.
  - bind_step H r E. destruct (r =? 1)%Z; [|discriminate].
    injection H as <- _. apply ltb_irrefl.
  - discriminate.
Qed.

(** X1: whatever resistance [effective_resistance] returns is not below
    [R_NEAR_SHORT], so the conductance [1.0 / R] of the stamps never
    divides by zero. *)
Theorem effective_resistance_floor (c c' : Component) (R : float) :
  effective_resistance parse c = Ok (Some R, c') ->
  (R <? R_NEAR_SHORT)%float = false /\ py_div 1 R = Ok (1 / R)%float.
Proof.
  intros H. pose proof (effective_resistance_not_below _ _ _ H) as HR.
  split; [exact HR|]. unfold py_div.
  now rewrite (not_below_nonzero R R_NEAR_SHORT eq_refl HR).
Qed.

Lemma meter_returns (c : Component) :
  ctype c <> "galvanometer" -> exists r, meter_effective_resistance parse c = Ok r.
Proof.
  intros Hg. unfold meter_effective_resistance.
  destruct (ctype c =? "ammeter").
  { destruct (meter_full_scale parse c); [|eauto].
    unfold py_div. rewrite (pymax_nonzero _ 1e-15 eq_refl). cbn [bind]. eauto. }
  destruct (ctype c =? "voltmeter").
  { destruct (meter_full_scale parse c); eauto. }
  destruct (ctype c =? "galvanometer") eqn:E; [|eauto].
  apply String.eqb_eq in E. contradiction.
Qed.

(** X2: [effective_resistance] raises for no kind other than the
    galvanometer (division by zero) and the two kinds whose position is
    read with [int()], [switch_spst] and [button_momentary]: for every
    other component it returns. *)
Theorem effective_resistance_returns (c : Component) :
  ctype c <> "galvanometer" -> ctype c <> "switch_spst" ->
  ctype c <> "button_momentary" ->
  exists R c', effective_resistance parse c = Ok (R, c').
Proof.
  intros Hg Hs Hb. unfold effective_resistance.
  repeat match goal with
         | |- context [ctype c =? ?s] =>
             let E := fresh "E" in
             destruct (ctype c =? s) eqn:E;
             [try (apply String.eqb_eq in E; contradiction)|clear E]
         end; eauto.
  - destruct (bulb_resistance_ok (prop c "Vr" 6) (prop c "Wr" 3)) as [r [Er _]].
    rewrite Er. cbn [bind]. eauto.
  - destruct (if (_ <? _)%float then _ else _). eauto.
  - destruct (meter_returns c Hg) as [r E']. rewrite E'. cbn [bind]. eauto.
  - destruct (meter_returns c Hg) as [r E']. rewrite E'. cbn [bind]. eauto.
Qed.

End ResistanceProofs.

(** X3: [bulb_resistance] never raises: the division is guarded by the
    test on [Wr]; it returns 1e12 for a rated power of at most 1e-12 and
    nothing below 1e-6 otherwise. *)
Theorem bulb_resistance_guarded (Vr Wr : float) :
  exists r,
    bulb_resistance Vr Wr = Ok r /\
    (r <? 1e-6)%float = false /\
    ((Wr <=? 1e-12)%float = true -> r = 1e12%float) /\
    ((Wr <=? 1e-12)%float = false -> r = pymax (Vr * Vr / Wr) 1e-6).
Proof.
  destruct (bulb_resistance_ok Vr Wr) as [r [E Hr]].
  exists r. split; [exact E|]. split; [exact Hr|].
  unfold bulb_resistance in E. split; intros H; rewrite H in E.
  - now injection E.
  - unfold py_div in E. rewrite (not_leb_nonzero Wr 1e-12 eq_refl H) in E.
    now injection E.
Qed.

Lemma effective_resistance_floor_witness :
  effective_resistance parse_unsigned_list sample_rheostat
    = Ok (Some 100%float, set_prop sample_rheostat "R" 100%float) /\
  (100 <? R_NEAR_SHORT)%float = false /\ py_div 1 100 = Ok (1 / 100)%float.
Proof.
  split; [vm_compute; reflexivity|].
  apply (effective_resistance_floor parse_unsigned_list sample_rheostat
           (set_prop sample_rheostat "R" 100%float) 100%float).
  vm_compute. reflexivity.
Defined.

Lemma effective_resistance_returns_witness :
  exists R c', effective_resistance parse_unsigned_list sample_rheostat = Ok (R, c').
Proof.
  apply (effective_resistance_returns parse_unsigned_list sample_rheostat);
    discriminate.
Defined.

(* ================================================================== *)
(** ** The linear solver never raises *)

Lemma upd_length {X : Type} (l : list X) (i : nat) (f : X -> X) :
  List.length (upd l i f) = List.length l.
Proof.
  revert i. induction l as [|x l IH]; intros [|i]; cbn; auto.
Qed.

Lemma nth_upd {X : Type} (l : list X) (i k : nat) (f : X -> X) (d : X) :
  nth k (upd l i f) d
  = if Nat.eqb k i && Nat.ltb i (List.length l) then f (nth k l d) else nth k l d.
Proof.
  revert i k. induction l as [|x l IH]; intros i k.
  - cbn. destruct i, k; cbn; try reflexivity.
    now rewrite Bool.andb_false_r.
  - destruct i as [|i], k as [|k]; cbn [upd nth]; try reflexivity.
    rewrite IH. reflexivity.
Qed.

Lemma swap_length {X : Type} (d : X) (l : list X) (i j : nat) :
  List.length (swap d l i j) = List.length l.
Proof. unfold swap. now rewrite !upd_length. Qed.

Lemma nth_swap_first {X : Type} (d : X) (l : list X) (i j : nat) :
  i <= j -> nth i (swap d l i j) d = nth j l d.
Proof.
  intros Hij. unfold swap. rewrite nth_upd, upd_length.
  destruct (Nat.eqb i j && Nat.ltb j (List.length l)) eqn:E.
  - apply andb_prop in E. destruct E as [E _]. apply Nat.eqb_eq in E. now subst.
  - rewrite nth_upd, Nat.eqb_refl. cbn [andb].
    destruct (Nat.ltb i (List.length l)) eqn:E2; [reflexivity|].
    apply Nat.ltb_ge in E2. rewrite !nth_overflow by lia. reflexivity.
Qed.

Lemma eliminate_length (n col : nat) (st : matrix * list float) :
  List.length (snd (eliminate n col st)) = List.length (snd st).
Proof.
  unfold eliminate. generalize (seq 0 n) as rows. intros rows. revert st.
  induction rows as [|r rows IH]; intros [M x]; [reflexivity|].
  cbn [fold_left]. destruct (Nat.eqb r col); [apply IH|].
  destruct (abs (mget M r col) <? eps)%float; [apply IH|].
  rewrite IH. cbn [snd]. apply upd_length.
Qed.

(** One column: the pivot passed the test against [eps], so its inverse
    is computed without a division by zero. *)
Lemma elim_column_returns (n col : nat) (st : matrix * list float) :
  col < n ->
  exists r, elim_column n col st = Ok r /\
            forall st', r = Some st' -> List.length (snd st') = List.length (snd st).
Proof.
  intros Hcol. destruct st as [M x]. unfold elim_column.
  pose proof (find_pivot_candidate M n col Hcol) as [Hrange Hbest].
  destruct (find_pivot M n col) as [pivot best]. cbn [fst snd] in *.
  destruct (best <? eps)%float eqn:Eb.
  { eexists; split; [reflexivity|]. discriminate. }
  assert (Hpiv : (mget (if Nat.eqb pivot col then M else swap [] M col pivot) col col
                  =? 0)%float = false).
  { assert (Hm : mget (if Nat.eqb pivot col then M else swap [] M col pivot) col col
                 = mget M pivot col).
    { destruct (Nat.eqb pivot col) eqn:E.
      - apply Nat.eqb_eq in E. now subst.
      - unfold mget. rewrite nth_swap_first by lia. reflexivity. }
    rewrite Hm. destruct (mget M pivot col =? 0)%float eqn:E0; [|reflexivity].
    rewrite Hbest, (abs_zero_below _ eps eq_refl E0) in Eb. discriminate. }
  destruct (Nat.eqb pivot col) eqn:E; unfold py_div; rewrite Hpiv; cbn [bind];
    (eexists; split; [reflexivity|]);
    intros st' Hst; injection Hst as <-;
    rewrite eliminate_length; cbn [snd];
    rewrite ?upd_length, ?swap_length; reflexivity.
Qed.

Lemma elim_columns_returns (n : nat) (cols : list nat) (st : matrix * list float) :
  Forall (fun col => col < n) cols ->
  exists r, elim_columns n cols st = Ok r /\
            forall st', r = Some st' -> List.length (snd st') = List.length (snd st).
Proof.
  intros Hcols. revert st. induction Hcols as [|col cols Hcol _ IH]; intros st.
  - eexists; split; [reflexivity|]. intros st' H. now injection H as <-.
  - cbn [elim_columns].
    destruct (elim_column_returns n col st Hcol) as [r [E Hr]]. rewrite E. cbn [bind].
    destruct r as [st1|].
    + destruct (IH st1) as [r2 [E2 Hr2]]. exists r2. split; [exact E2|].
      intros st' H. rewrite (Hr2 _ H). now apply Hr.
    + eexists; split; [reflexivity|]. discriminate.
Qed.

Lemma solve_linear_ok (A : matrix) (bv : list float) :
  exists r, solve_linear A bv = Ok r /\
            forall x, r = Some x -> List.length x = List.length bv.
Proof.
  unfold solve_linear.
  destruct (elim_columns_returns (List.length A) (seq 0 (List.length A)) (A, bv))
    as [r [E Hr]].
  { apply Forall_forall. intros col H. apply in_seq in H. lia. }
  rewrite E. cbn [bind]. eexists; split; [reflexivity|].
  intros x Hx. destruct r as [st'|]; [|discriminate].
  cbn in Hx. injection Hx as <-. exact (Hr st' eq_refl).
Qed.

(** X4: [solve_linear] never raises on a square system: every pivot it
    inverts passed the test against 1e-12, so [1.0 / piv] does not divide
    by zero; it returns [None] or a vector as long as the right-hand
    side. *)
Theorem solve_linear_returns (A : matrix) (bv : list float) :
  Forall (fun row => List.length row = List.length A) A ->
  List.length bv = List.length A ->
  exists r, solve_linear A bv = Ok r /\
            forall x, r = Some x -> List.length x = List.length A.
Proof.
  intros _ Hb. destruct (solve_linear_ok A bv) as [r [E Hr]].
  exists r. split; [exact E|]. intros x Hx. rewrite <- Hb. now apply Hr.
Qed.

Lemma solve_linear_returns_witness :
  exists r, solve_linear [[2; 1]; [1; 3]]%float [3; 5]%float = Ok r /\
            forall x, r = Some x -> List.length x = 2.
Proof.
  apply (solve_linear_returns [[2; 1]; [1; 3]]%float [3; 5]%float).
  - repeat constructor.
  - reflexivity.
Defined.

(* ================================================================== *)
(** ** Where [solve_circuit] can raise *)

Section ReturnProofs.
Variable parse : string -> list float.

Lemma settled_resolves (c : Component) : settled parse c -> resolves parse c.
Proof. intros [R H]. now exists R, c. Qed.

Lemma py_div_resistance (x R : float) (c c' : Component) :
  effective_resistance parse c = Ok (Some R, c') -> py_div x R = Ok (x / R)%float.
Proof.
  intros H. unfold py_div.
  now rewrite (not_below_nonzero R R_NEAR_SHORT eq_refl
                 (effective_resistance_not_below parse _ _ _ H)).
Qed.

Lemma stamp_components_returns (nidx : dict Point nat) (ex : list Component) (A : matrix) :
  Forall (resolves parse) ex ->
  exists A' ex1, stamp_components parse nidx ex A = Ok (A', ex1).
Proof.
  intros Hex. revert A. induction Hex as [|c ex Hc _ IH]; intros A.
  - cbn. eauto.
  - cbn [stamp_components]. destruct (is_socket c).
    + destruct (IH A) as [A' [ex1 E]]. rewrite E. cbn [bind]. eauto.
    + destruct Hc as [R [c' Hc]]. rewrite Hc. cbn [bind].
      destruct R as [R|].
      * rewrite (py_div_resistance 1 R _ _ Hc). cbn [bind].
        match goal with
        | |- context [stamp_components parse nidx ex ?M] =>
            destruct (IH M) as [A' [ex1 E]]; rewrite E
        end. cbn [bind]. eauto.
      * destruct (IH A) as [A' [ex1 E]]. rewrite E. cbn [bind]. eauto.
Qed.

Lemma solver_currents_returns (nv : dict Point float) (sol : list float) (n : nat)
      (vs ex : list Component) (k0 : nat) (sci0 : dict string float) :
  Forall (settled parse) ex ->
  exists sci, solver_currents parse nv sol n vs ex k0 sci0 = Ok (sci, ex).
Proof.
  intros Hex. revert k0 sci0. induction Hex as [|c ex Hc _ IH]; intros k0 sci0.
  - cbn. eauto.
  - cbn [solver_currents]. destruct (is_socket c).
    + match goal with
      | |- context [solver_currents parse nv sol n vs ex ?k ?s] =>
          destruct (IH k s) as [sci E]; rewrite E
      end. cbn [bind]. eauto.
    + destruct Hc as [R Hc]. rewrite Hc. cbn [bind]. destruct R as [R|].
      * rewrite (py_div_resistance _ R _ _ Hc). cbn [bind].
        match goal with
        | |- context [solver_currents parse nv sol n vs ex ?k ?s] =>
            destruct (IH k s) as [sci E]; rewrite E
        end. cbn [bind]. eauto.
      * match goal with
        | |- context [solver_currents parse nv sol n vs ex ?k ?s] =>
            destruct (IH k s) as [sci E]; rewrite E
        end. cbn [bind]. eauto.
Qed.

Lemma branch_loop_returns (items : list (string * string)) (labels : dict string string)
      (sci : dict string float) (ex : list Component)
      (flags0 : dict string string) (cbi0 : dict string (dict string float)) :
  Forall (settled parse) ex ->
  exists flags cbi, branch_loop parse items labels sci ex flags0 cbi0 = Ok (flags, cbi, ex).
Proof.
  intros Hex. revert flags0 cbi0.
  induction items as [|[scid parent] items IH]; intros flags0 cbi0.
  - cbn. eauto.
  - cbn [branch_loop]. destruct (find_cid ex scid) as [i|] eqn:Ef; [|apply IH].
    destruct (find_cid_nth _ _ _ Ef) as [sc [Hn [_ Hin]]]. rewrite Hn.
    destruct (is_socket sc); [apply IH|].
    pose proof (proj1 (Forall_forall _ _) Hex sc Hin) as [R Hsc].
    rewrite Hsc. cbn [bind]. rewrite (upd_same _ _ _ Hn).
    destruct R; apply IH.
Qed.

Lemma solve_expanded_returns (comps : list Component) (ground : Point) (e : Expansion) :
  Forall (resolves parse) (expanded e) ->
  exists res exf, solve_expanded parse comps ground e = Ok (res, exf).
Proof.
  intros Hex. unfold solve_expanded.
  destruct (Nat.eqb _ 0); [eauto|]. unfold mna_system.
  match goal with
  | |- context [stamp_components parse ?ni ?ex ?A] =>
      destruct (stamp_components_returns ni ex A Hex) as [A' [ex1 E]];
      pose proof (Forall2_stepped_settled parse _ _
                    (stamp_components_stepped parse _ _ _ _ _ E)) as Hset;
      rewrite E
  end.
  cbn [bind]. destruct (stamp_sources _ _ _ _ _) as [A2 bvec]. cbn [bind].
  destruct (solve_linear_ok A2 bvec) as [r [El _]]. rewrite El. cbn [bind].
  destruct r as [sol|]; [|eauto].
  match goal with
  | |- context [solver_currents parse ?nv ?s ?n ?vs ex1 ?k ?s0] =>
      destruct (solver_currents_returns nv s n vs ex1 k s0 Hset) as [sci Es]; rewrite Es
  end.
  cbn [bind].
  match goal with
  | |- context [branch_loop parse ?it ?lb sci ex1 ?f ?c] =>
      destruct (branch_loop_returns it lb sci ex1 f c Hset) as [flags [cbi Eb]]; rewrite Eb
  end.
  cbn [bind]. eauto.
Qed.

(** X5: [solve_circuit] raises nowhere but in the switch expansion and
    in [effective_resistance]: when the expansion returns and every
    solver component has its resistance resolved without an exception,
    the call returns; the conductances [1.0 / R], the pivots of the
    linear solve and the currents [(Va - Vb) / R] divide by no zero. *)
Theorem solve_circuit_returns (cir : Circuit) (e : Expansion) :
  solver_components cir = Ok e ->
  Forall (resolves parse) (expanded e) ->
  exists res cir', solve_circuit parse cir = Ok (res, cir').
Proof.
  intros He Hex. unfold solve_circuit. unfold solver_components in He.
  rewrite He. cbn [bind].
  destruct (solve_expanded_returns (dict_values (components cir))
              (find_ground (dict_values (components cir))) e Hex) as [res [exf E]].
  rewrite E. cbn [bind]. eauto.
Qed.

End ReturnProofs.

Lemma solve_circuit_returns_witness :
  exists res cir', solve_circuit parse_unsigned_list rheostat_loop = Ok (res, cir').
Proof.
  eapply (solve_circuit_returns parse_unsigned_list rheostat_loop).
  - vm_compute. reflexivity.
  - repeat constructor; eexists _, _; vm_compute; reflexivity.
Defined.

(* ================================================================== *)
(** ** The two outcomes of a solve, and what it writes *)

Lemma source_overcurrent_warnings (vs : list Component) (sci ci : dict string float)
      (wf : list Warning * dict string string) :
  ~ In WarnSingular (fst wf) ->
  ~ In WarnSingular (fst (source_overcurrent vs sci ci wf)).
Proof.
  unfold source_overcurrent. revert wf.
  induction vs as [|c vs IH]; intros wf Hw; [exact Hw|].
  cbn [fold_left]. apply IH.
  destruct (_ <? _)%float; [|exact Hw].
  cbn [fst]. intros Hin. apply in_app_or in Hin.
  destruct Hin as [Hin|[Hin|[]]]; [now apply Hw|discriminate].
Qed.

Lemma report_not_singular (comps vs : list Component) nv sci flags cbi :
  ok (report comps vs nv sci flags cbi) = true /\
  singular (report comps vs nv sci flags cbi) = false /\
  ~ In WarnSingular (warnings (report comps vs nv sci flags cbi)).
Proof.
  unfold report. cbn [ok singular warnings]. split; [reflexivity|]. split; [reflexivity|].
  pose proof (source_overcurrent_warnings vs sci (component_currents comps sci cbi)
                ([], flags) (fun H => H)) as Hw.
  destruct (quiet_loop _ _); [|exact Hw].
  intros Hin. apply in_app_or in Hin.
  destruct Hin as [Hin|[Hin|[]]]; [now apply Hw|discriminate].
Qed.

Section OutcomeProofs.
Variable parse : string -> list float.

Lemma solve_circuit_failed (cir : Circuit) (res : SolveResult) (cir' : Circuit) :
  solve_circuit parse cir = Ok (res, cir') -> ok res = false -> res = singular_result.
Proof.
  intros Hs Hok.
  destruct (solve_circuit_inv parse _ _ _ Hs) as (e & exf & _ & Hx & _).
  destruct (solve_expanded_cases parse _ _ _ _ _ Hx)
    as [(_ & -> & _)|(_ & A & bv & _ & _ & [(_ & ->)|(sol & sci & flags & cbi & _ & _ & _ & ->)])];
    [discriminate Hok|reflexivity|discriminate Hok].
Qed.

(** X6: [solve_circuit] has two outcomes. A result with [ok=false] is the
    singular result: [singular=true], the singular-matrix warning alone,
    and every mapping empty. A result with [ok=true] has [singular=false]
    and carries no singular-matrix warning. *)
Theorem solve_circuit_outcomes (cir : Circuit) (res : SolveResult) (cir' : Circuit) :
  solve_circuit parse cir = Ok (res, cir') ->
  (ok res = false /\ res = singular_result) \/
  (ok res = true /\ singular res = false /\ ~ In WarnSingular (warnings res)).
Proof.
  intros Hs. destruct (ok res) eqn:Hok.
  - right. split; [reflexivity|].
    destruct (solve_circuit_inv parse _ _ _ Hs) as (e & exf & _ & Hx & _).
    destruct (solve_expanded_ok parse _ _ _ _ _ Hx Hok)
      as [(_ & -> & _)|(_ & A & bv & ex1 & sol & sci & ex2 & flags & cbi & _ & _ & _ & _ & ->)].
    + cbn. split; auto.
    + apply report_not_singular.
  - left. split; [reflexivity|]. exact (solve_circuit_failed _ _ _ Hs Hok).
Qed.

Lemma resolved_clamp_written (c c' : Component) :
  resolved parse c c' -> clamp_written c c'.
Proof.
  intros [->|[R H]]; [now left|].
  destruct (eff_cases parse _ _ _ H) as [->|(Hr & -> & _)]; [now left|now right].
Qed.

Lemma clamp_written_shape (c c' : Component) : clamp_written c c' -> same_shape c c'.
Proof.
  intros [->|[_ ->]]; repeat split.
Qed.

(** The circuit a solve leaves: the same keys, and component by
    component the same value or a clamped rheostat. *)
Lemma solve_circuit_clamps (cir : Circuit) (res : SolveResult) (cir' : Circuit) :
  solve_circuit parse cir = Ok (res, cir') ->
  dict_keys (components cir') = dict_keys (components cir) /\
  Forall2 clamp_written (dict_values (components cir)) (dict_values (components cir')).
Proof.
  intros Hs.
  destruct (solve_circuit_inv parse _ _ _ Hs) as (e & exf & He & Hx & ->).
  rewrite expand_all_register in He. bind_step He ents Ee. inversion He as [Hreg]. clear He.
  assert (Hexp : expanded e = map entry_comp ents)
    by (subst e; now rewrite register_expanded).
  cbn [components]. split; [apply rebuild_keys|].
  destruct (solve_expanded_cases parse _ _ _ _ _ Hx)
    as [(_ & _ & ->)|(_ & A & bv & _ & Hst & _)].
  - rewrite Hexp, (rebuild_unchanged _ _ Ee).
    generalize (dict_values (components cir)) as l.
    intros l. induction l; constructor; [now left|assumption].
  - rewrite Hexp in Hst.
    destruct (rebuild_expansion parse _ _ _ Ee Hst) as (_ & _ & _ & _ & Hev & _).
    eapply Forall2_impl; [|exact Hev].
    intros c c' H. now apply resolved_clamp_written, evolved_resolved.
Qed.

Lemma well_keyed_shape (d d' : dict string Component) :
  dict_keys d' = dict_keys d ->
  Forall2 same_shape (dict_values d) (dict_values d') ->
  well_keyed (mkCircuit d) -> well_keyed (mkCircuit d').
Proof.
  unfold well_keyed, dict_keys, dict_values. cbn [components].
  intros Hk Hv [Hnd Hc]. split; [now rewrite Hk|].
  revert d' Hk Hv. induction Hc as [|[k c] d Hkc _ IH]; intros [|[k' c'] d'] Hk Hv;
    cbn in *; try discriminate; constructor.
  - inversion Hk; subst. inversion Hv; subst.
    match goal with H : same_shape _ _ |- _ => destruct H as [H _] end.
    cbn in *. congruence.
  - inversion Hk; subst. inversion Hv; subst. inversion Hnd; subst. now apply IH.
Qed.

(** X7: [solve_circuit] writes nothing into the circuit but the clamped
    [R] of its rheostats: the keys stay as they are, in order, and every
    component is left as it was or is a rheostat whose [R] now holds the
    clamped value. A circuit keyed by its components' identifiers stays
    so. *)
Theorem solve_circuit_writes_only_clamps (cir : Circuit) (res : SolveResult)
        (cir' : Circuit) :
  solve_circuit parse cir = Ok (res, cir') ->
  dict_keys (components cir') = dict_keys (components cir) /\
  Forall2 clamp_written (dict_values (components cir)) (dict_values (components cir')) /\
  (well_keyed cir -> well_keyed cir').
Proof.
  intros Hs. destruct (solve_circuit_clamps _ _ _ Hs) as [Hk Hv].
  split; [exact Hk|]. split; [exact Hv|].
  destruct cir as [d], cir' as [d']. apply (well_keyed_shape d d' Hk).
  eapply Forall2_impl; [|exact Hv]. apply clamp_written_shape.
Qed.

End OutcomeProofs.

Lemma solve_circuit_outcomes_witness :
  exists res cir',
    solve_circuit parse_unsigned_list conflicting_sources = Ok (res, cir') /\
    ((ok res = false /\ res = singular_result) \/
     (ok res = true /\ singular res = false /\ ~ In WarnSingular (warnings res))).
Proof.
  eexists _, _. split; [vm_compute; reflexivity|].
  eapply (solve_circuit_outcomes parse_unsigned_list conflicting_sources).
  vm_compute. reflexivity.
Defined.

Lemma solve_circuit_writes_only_clamps_witness :
  exists res cir',
    solve_circuit parse_unsigned_list rheostat_loop = Ok (res, cir') /\
    dict_keys (components cir') = dict_keys (components rheostat_loop) /\
    Forall2 clamp_written (dict_values (components rheostat_loop))
            (dict_values (components cir')) /\
    (well_keyed rheostat_loop -> well_keyed cir').
Proof.
  eexists _, _. split; [vm_compute; reflexivity|].
  eapply (solve_circuit_writes_only_clamps parse_unsigned_list rheostat_loop).
  vm_compute. reflexivity.
Defined.

(* ================================================================== *)
(** ** Node voltages *)

Lemma point_eqb_eq (p q : Point) : point_eqb p q = true <-> p = q.
Proof.
  unfold point_eqb. destruct p as [x y], q as [x' y']. cbn [fst snd].
  rewrite Bool.andb_true_iff, !Z.eqb_eq. split; [intros [-> ->]; reflexivity|].
  intros H. now inversion H.
Qed.

Lemma point_eqb_refl (p : Point) : point_eqb p p = true.
Proof. now apply point_eqb_eq. Qed.

Lemma pget_pset_same {V : Type} (d : dict Point V) (k : Point) (v : V) :
  pget (pset d k v) k = Some v.
Proof.
  unfold pget, pset. induction d as [|[k' v'] d IH]; cbn.
  - now rewrite point_eqb_refl.
  - destruct (point_eqb k' k) eqn:E; cbn; rewrite E; [reflexivity|exact IH].
Qed.

Lemma pget_pset_other {V : Type} (d : dict Point V) (k k' : Point) (v : V) :
  k' <> k -> pget (pset d k v) k' = pget d k'.
Proof.
  intros Hne. unfold pget, pset. induction d as [|[k0 v0] d IH]; cbn.
  - destruct (point_eqb k k') eqn:E; [|reflexivity].
    apply point_eqb_eq in E. congruence.
  - destruct (point_eqb k0 k) eqn:E; cbn.
    + apply point_eqb_eq in E. subst k0.
      destruct (point_eqb k k') eqn:E2; [|reflexivity].
      apply point_eqb_eq in E2. congruence.
    + destruct (point_eqb k0 k'); [reflexivity|exact IH].
Qed.

Lemma insert_node_in (p q : Point) (l : list Point) :
  In q (insert_node p l) <-> q = p \/ In q l.
Proof.
  induction l as [|r l IH]; cbn.
  - intuition.
  - destruct (point_eqb p r) eqn:E.
    + apply point_eqb_eq in E. subst r. cbn. intuition.
    + destruct (point_ltb p r); cbn; [intuition|]. rewrite IH. intuition.
Qed.

Lemma sorted_nodes_in (ex : list Component) (c : Component) :
  In c ex -> In (a c) (sorted_nodes ex) /\ In (b c) (sorted_nodes ex).
Proof.
  unfold sorted_nodes.
  assert (Hkeep : forall ex s q, In q s ->
            In q (fold_left (fun s c => insert_node (b c) (insert_node (a c) s)) ex s)).
  { intros ex0. induction ex0 as [|c0 ex0 IH]; intros s q Hq; [exact Hq|].
    cbn [fold_left]. apply IH. rewrite !insert_node_in. auto. }
  generalize (@nil Point) as s. induction ex as [|c0 ex IH]; intros s Hin; [destruct Hin|].
  cbn [fold_left]. destruct Hin as [->|Hin]; [|now apply IH].
  split; apply Hkeep; rewrite !insert_node_in; auto.
Qed.

Lemma index_nodes_in (nodes : list Point) (ground : Point) (idx : nat) (p : Point) :
  In p (map fst (index_nodes nodes ground idx)) <-> In p nodes /\ p <> ground.
Proof.
  revert idx. induction nodes as [|n nodes IH]; intros idx; cbn.
  - intuition.
  - destruct (point_eqb n ground) eqn:E.
    + apply point_eqb_eq in E. subst n. rewrite IH. intuition. congruence.
    + assert (n <> ground) by (intros ->; rewrite point_eqb_refl in E; discriminate).
      cbn. rewrite IH. intuition. subst. auto.
Qed.

Lemma node_voltages_at (nidx : dict Point nat) (sol : list float)
      (nv0 : dict Point float) (p : Point) :
  let nv := fold_left (fun nv ni => pset nv (fst ni) (vget sol (snd ni))) nidx nv0 in
  (~ In p (map fst nidx) -> pget nv p = pget nv0 p) /\
  (In p (map fst nidx) \/ pget nv0 p <> None -> pget nv p <> None).
Proof.
  revert nv0. induction nidx as [|[q i] nidx IH]; intros nv0; cbn.
  - split; [reflexivity|]. intros [[]|H]; exact H.
  - specialize (IH (pset nv0 q (vget sol i))). cbn in IH. destruct IH as [IH1 IH2].
    split.
    + intros Hn. rewrite IH1 by tauto. apply pget_pset_other. intros ->. tauto.
    + intros H. apply IH2.
      destruct (point_eqb q p) eqn:E.
      * apply point_eqb_eq in E. subst q. right. rewrite pget_pset_same. discriminate.
      * assert (p <> q) by (intros ->; rewrite point_eqb_refl in E; discriminate).
        rewrite pget_pset_other by assumption.
        destruct H as [[Hq|H]|H]; [congruence|now left|now right].
Qed.

(** The size of the system of a circuit, from its expansion. *)
Lemma system_size_expanded (cir : Circuit) (e : Expansion) :
  solver_components cir = Ok e ->
  system_size cir
  = Ok (List.length (node_numbering (find_ground (dict_values (components cir))) (expanded e)) +
        List.length (sources (expanded e))).
Proof. intros He. unfold solver_components in He. unfold system_size. now rewrite He. Qed.

Section VoltageProofs.
Variable parse : string -> list float.

(** X8: on a successful solve of a circuit whose system is not empty
    (it has a non-ground node or a source) the ground node reads 0 V
    exactly, and both endpoints of every solver component have an entry
    in [node_v]. *)
Theorem ground_pinned_nodes_covered (cir : Circuit) (res : SolveResult) (cir' : Circuit)
        (e : Expansion) :
  solve_circuit parse cir = Ok (res, cir') ->
  ok res = true ->
  system_size cir <> Ok 0 ->
  solver_components cir = Ok e ->
  pget (node_v res) (find_ground (dict_values (components cir))) = Some 0%float /\
  forall sc, In sc (expanded e) ->
    pget (node_v res) (a sc) <> None /\ pget (node_v res) (b sc) <> None.
Proof.
  intros Hs Hok Hsize He.
  destruct (solve_circuit_inv parse _ _ _ Hs) as (e0 & exf & He0 & Hx & _).
  pose proof (system_size_expanded _ _ He) as Hsz.
  unfold solver_components in He. rewrite He in He0. inversion He0; subst e0. clear He0.
  destruct (solve_expanded_ok parse _ _ _ _ _ Hx Hok)
    as [(HN & _)|(_ & A & bv & ex1 & sol & sci & ex2 & flags & cbi & _ & _ & _ & _ & ->)].
  { exfalso. apply Hsize. rewrite Hsz. now rewrite HN. }
  set (ground := find_ground (dict_values (components cir))).
  unfold report. cbn [node_v]. unfold node_voltages, node_numbering.
  match goal with
  | |- context [fold_left ?f ?ni ?n0] =>
      pose proof (fun p => node_voltages_at ni sol n0 p) as Hnv
  end.
  cbn zeta in Hnv. split.
  - rewrite (proj1 (Hnv ground)).
    + cbn. now rewrite point_eqb_refl.
    + rewrite index_nodes_in. tauto.
  - intros sc Hsc. destruct (sorted_nodes_in _ _ Hsc) as [Ha Hb].
    assert (Hp : forall p, In p (sorted_nodes (expanded e)) ->
                 In p (map fst (index_nodes (sorted_nodes (expanded e)) ground 0)) \/
                 pget [(ground, 0%float)] p <> None).
    { intros p Hp. destruct (point_eqb ground p) eqn:E.
      - right. unfold pget. cbn. rewrite E. discriminate.
      - left. rewrite index_nodes_in. split; [exact Hp|].
        intros ->. rewrite point_eqb_refl in E. discriminate. }
    split; apply (proj2 (Hnv _)); apply Hp; assumption.
Qed.

End VoltageProofs.

Lemma ground_pinned_nodes_covered_witness :
  exists res cir' e,
    solve_circuit parse_unsigned_list rheostat_loop = Ok (res, cir') /\
    solver_components rheostat_loop = Ok e /\
    pget (node_v res) (find_ground (dict_values (components rheostat_loop)))
      = Some 0%float /\
    forall sc, In sc (expanded e) ->
      pget (node_v res) (a sc) <> None /\ pget (node_v res) (b sc) <> None.
Proof.
  eexists _, _, _. split; [vm_compute; reflexivity|]. split; [vm_compute; reflexivity|].
  eapply (ground_pinned_nodes_covered parse_unsigned_list rheostat_loop).
  - vm_compute. reflexivity.
  - reflexivity.
  - intros H. vm_compute in H. discriminate.
  - vm_compute. reflexivity.
Defined.

(* ================================================================== *)
(** ** Reported currents, flags and warnings *)

Lemma component_currents_fold (comps : list Component) (sci : dict string float)
      (cbi : dict string (dict string float)) :
  component_currents comps sci cbi
  = fold_left (fun ci oc => sset ci (cid oc) (component_current sci cbi oc)) comps [].
Proof.
  unfold component_currents. generalize (@nil (string * float)) as ci.
  induction comps as [|oc comps IH]; intros ci; [reflexivity|].
  cbn [fold_left]. rewrite IH. f_equal. unfold component_current.
  destruct (is_socket oc); [reflexivity|].
  destruct (sget cbi (cid oc)) as [[|kv br]|]; try reflexivity.
  destruct (sget (kv :: br) "main"); reflexivity.
Qed.

Lemma fold_sset_fresh {V : Type} (f : Component -> V) (comps : list Component)
      (ci : dict string V) :
  NoDup (map fst ci ++ map cid comps) ->
  fold_left (fun ci oc => sset ci (cid oc) (f oc)) comps ci
  = ci ++ map (fun oc => (cid oc, f oc)) comps.
Proof.
  revert ci. induction comps as [|oc comps IH]; intros ci Hnd; cbn.
  - now rewrite app_nil_r.
  - assert (Hfresh : ~ In (cid oc) (map fst ci)).
    { intros Hin. apply NoDup_remove_2 in Hnd. apply Hnd.
      apply in_or_app. now left. }
    rewrite (sset_fresh _ _ _ Hfresh), IH.
    + now rewrite <- app_assoc.
    + rewrite map_app. cbn. rewrite <- app_assoc. exact Hnd.
Qed.

Lemma component_currents_distinct (comps : list Component) (sci : dict string float)
      (cbi : dict string (dict string float)) :
  NoDup (map cid comps) ->
  component_currents comps sci cbi
  = map (fun oc => (cid oc, component_current sci cbi oc)) comps.
Proof.
  intros Hnd. rewrite component_currents_fold.
  now rewrite (fold_sset_fresh (component_current sci cbi) comps []).
Qed.

Lemma well_keyed_cids (cir : Circuit) :
  well_keyed cir ->
  map cid (dict_values (components cir)) = dict_keys (components cir) /\
  NoDup (map cid (dict_values (components cir))).
Proof.
  intros [Hnd Hc]. unfold dict_values, dict_keys in *.
  assert (H : map cid (map snd (components cir)) = map fst (components cir)).
  { clear Hnd. induction Hc as [|kc d Hkc _ IH]; cbn; [reflexivity|]. now rewrite Hkc, IH. }
  split; [exact H|]. now rewrite H.
Qed.

Section ReportProofs.
Variable parse : string -> list float.

(** The shape of a successful result: the empty one of a system without
    nodes and sources, or the report of the post-processing. *)
Lemma solve_circuit_report (cir : Circuit) (res : SolveResult) (cir' : Circuit) :
  solve_circuit parse cir = Ok (res, cir') ->
  ok res = true ->
  (res = mkSolveResult true [] [] [] false [] [] /\ circuit_sockets cir = []) \/
  exists nv sci flags cbi,
    res = report (dict_values (components cir)) (circuit_sockets cir) nv sci flags cbi.
Proof.
  intros Hs Hok.
  destruct (solve_circuit_inv parse _ _ _ Hs) as (e & exf & He & Hx & _).
  pose proof (expand_all_sources _ _ _ He) as Hsrc. cbn in Hsrc.
  destruct (solve_expanded_ok parse _ _ _ _ _ Hx Hok)
    as [(HN & -> & _)|(_ & A & bv & ex1 & sol & sci & ex2 & flags & cbi & _ & _ & _ & _ & ->)];
    [left|right].
  - split; [reflexivity|]. unfold circuit_sockets. rewrite Hsrc in HN.
    destruct (filter is_socket _); [reflexivity|]. cbn in HN. lia.
  - rewrite Hsrc. unfold circuit_sockets. eauto.
Qed.

(** The result of a successful solve of a system that is not empty is
    the report of the post-processing. *)
Lemma solve_circuit_report_nonempty (cir : Circuit) (res : SolveResult) (cir' : Circuit) :
  solve_circuit parse cir = Ok (res, cir') ->
  ok res = true ->
  system_size cir <> Ok 0 ->
  exists nv sci flags cbi,
    res = report (dict_values (components cir)) (circuit_sockets cir) nv sci flags cbi.
Proof.
  intros Hs Hok Hsize.
  destruct (solve_circuit_inv parse _ _ _ Hs) as (e & exf & He & Hx & _).
  pose proof (system_size_expanded _ _ He) as Hsz.
  pose proof (expand_all_sources _ _ _ He) as Hsrc. cbn in Hsrc.
  destruct (solve_expanded_ok parse _ _ _ _ _ Hx Hok)
    as [(HN & _)|(_ & A & bv & ex1 & sol & sci & ex2 & flags & cbi & _ & _ & _ & _ & ->)].
  - exfalso. apply Hsize. rewrite Hsz. now rewrite HN.
  - rewrite Hsrc. unfold circuit_sockets. eauto.
Qed.

(** X9: after a successful solve of a circuit keyed by its components'
    identifiers whose system is not empty (it has a non-ground node or a
    source), [comp_i] has one entry per component, in the order of the
    circuit. *)
Theorem comp_i_covers_circuit (cir : Circuit) (res : SolveResult) (cir' : Circuit) :
  solve_circuit parse cir = Ok (res, cir') ->
  ok res = true ->
  system_size cir <> Ok 0 ->
  well_keyed cir ->
  dict_keys (comp_i res) = dict_keys (components cir).
Proof.
  intros Hs Hok Hsize Hwk.
  destruct (solve_circuit_report_nonempty _ _ _ Hs Hok Hsize)
    as (nv & sci & flags & cbi & ->).
  destruct (well_keyed_cids _ Hwk) as [Hk Hnd].
  rewrite report_comp_i, (component_currents_distinct _ _ _ Hnd).
  unfold dict_keys. rewrite map_map. cbn [fst]. exact Hk.
Qed.

Lemma source_overcurrent_grows (vs : list Component) (sci ci : dict string float)
      (wf : list Warning * dict string string) (w : Warning) (k : string) :
  (In w (fst wf) -> In w (fst (source_overcurrent vs sci ci wf))) /\
  (sget (snd wf) k = Some "source_overcurrent" ->
   sget (snd (source_overcurrent vs sci ci wf)) k = Some "source_overcurrent").
Proof.
  unfold source_overcurrent. revert wf.
  induction vs as [|c vs IH]; intros wf; [split; auto|].
  cbn [fold_left]. split; intros H; apply IH; destruct (_ <? _)%float; auto; cbn [fst snd].
  - apply in_or_app. now left.
  - destruct (String.eqb_spec k (cid c)) as [->|Hne].
    + apply sget_sset_same.
    + now rewrite sget_sset_other.
Qed.

Lemma source_overcurrent_hit (vs : list Component) (sci ci : dict string float)
      (wf : list Warning * dict string string) (c : Component) :
  In c vs ->
  (prop c "Iwarn" 5 <? abs (sget_or sci (cid c) (sget_or ci (cid c) 0)))%float = true ->
  In (WarnSourceOvercurrent (display_name c)
        (abs (sget_or sci (cid c) (sget_or ci (cid c) 0%float))))
     (fst (source_overcurrent vs sci ci wf)) /\
  sget (snd (source_overcurrent vs sci ci wf)) (cid c) = Some "source_overcurrent".
Proof.
  revert wf. induction vs as [|c0 vs IH]; intros wf Hin Hover; [destruct Hin|].
  destruct Hin as [->|Hin]; [|apply IH; assumption].
  change (source_overcurrent (c :: vs) sci ci wf)
    with (source_overcurrent vs sci ci
            (if (prop c "Iwarn" 5 <? abs (sget_or sci (cid c) (sget_or ci (cid c) 0)))%float
             then (fst wf ++ [WarnSourceOvercurrent (display_name c)
                                (abs (sget_or sci (cid c) (sget_or ci (cid c) 0%float)))],
                   sset (snd wf) (cid c) "source_overcurrent")
             else wf)).
  rewrite Hover. split.
  - apply (proj1 (source_overcurrent_grows vs sci ci _ _ (cid c))). cbn [fst].
    apply in_or_app. right. now left.
  - apply (proj2 (source_overcurrent_grows vs sci ci _ WarnSingular (cid c))). cbn [snd].
    apply sget_sset_same.
Qed.

Lemma flag_overcurrent_keeps (comps : list Component) (ci : dict string float)
      (thr : float) (flags : dict string string) (k v : string) :
  sget flags k = Some v -> sget (flag_overcurrent comps ci thr flags) k = Some v.
Proof.
  unfold flag_overcurrent. revert flags.
  induction comps as [|c comps IH]; intros flags H; [exact H|].
  cbn [fold_left]. apply IH.
  unfold smem, dict_mem. fold (@sget string).
  destruct (sget flags (cid c)) eqn:E; [exact H|].
  destruct (is_socket c); [exact H|].
  destruct (_ <? _)%float; [|exact H].
  rewrite sget_sset_other; [exact H|]. intros ->. congruence.
Qed.

Lemma sget_map_distinct {V : Type} (f : Component -> V) (comps : list Component)
      (c : Component) :
  NoDup (map cid comps) -> In c comps ->
  sget (map (fun oc => (cid oc, f oc)) comps) (cid c) = Some (f c).
Proof.
  intros Hnd Hin. apply sget_in_nodup.
  - now rewrite map_map.
  - apply in_map_iff. now exists c.
Qed.

(** X10: after a successful solve of a circuit keyed by its components'
    identifiers, a socket whose reported current exceeds its [Iwarn] in
    magnitude is flagged [source_overcurrent] and has its overcurrent
    warning, with its display name and [abs(I)], in the warnings. *)
Theorem source_overcurrent_reported (cir : Circuit) (res : SolveResult) (cir' : Circuit)
        (c : Component) :
  solve_circuit parse cir = Ok (res, cir') ->
  ok res = true ->
  well_keyed cir ->
  In c (circuit_sockets cir) ->
  (prop c "Iwarn" 5 <? abs (sget_or (comp_i res) (cid c) 0))%float = true ->
  sget (comp_flags res) (cid c) = Some "source_overcurrent" /\
  In (WarnSourceOvercurrent (display_name c) (abs (sget_or (comp_i res) (cid c) 0%float)))
     (warnings res).
Proof.
  intros Hs Hok Hwk Hc Hover.
  destruct (solve_circuit_report _ _ _ Hs Hok) as [[_ Hnone]|(nv & sci & flags & cbi & ->)].
  { rewrite Hnone in Hc. destruct Hc. }
  destruct (well_keyed_cids _ Hwk) as [_ Hnd].
  assert (Hin : In c (dict_values (components cir)))
    by (unfold circuit_sockets in Hc; now apply filter_In in Hc).
  assert (Hsock : is_socket c = true)
    by (unfold circuit_sockets in Hc; now apply filter_In in Hc).
  rewrite report_comp_i, (component_currents_distinct _ _ _ Hnd) in Hover |- *.
  set (ci := map (fun oc => (cid oc, component_current sci cbi oc))
                 (dict_values (components cir))) in *.
  assert (Hci : sget ci (cid c) = Some (sget_or sci (cid c) 0%float)).
  { unfold ci. rewrite (sget_map_distinct _ _ _ Hnd Hin).
    unfold component_current. now rewrite Hsock. }
  assert (HI : sget_or sci (cid c) (sget_or ci (cid c) 0%float) = sget_or ci (cid c) 0%float).
  { unfold sget_or, dict_get_or. unfold sget in Hci. rewrite Hci.
    unfold sget_or, dict_get_or. now destruct (dict_get String.eqb sci (cid c)). }
  rewrite <- HI in Hover |- *.
  destruct (source_overcurrent_hit _ sci ci ([], flags) c Hc Hover) as [Hw Hf].
  unfold report. cbn [comp_flags warnings].
  rewrite (component_currents_distinct _ _ _ Hnd). fold ci.
  split.
  - destruct (max_source_iwarn _); [|exact Hf].
    destruct (existsb _ _); [|exact Hf]. now apply flag_overcurrent_keeps.
  - destruct (quiet_loop _ _); [|exact Hw]. apply in_or_app. now left.
Qed.

Lemma source_overcurrent_no_quiet (vs : list Component) (sci ci : dict string float)
      (wf : list Warning * dict string string) :
  ~ In WarnQuietLoop (fst wf) ->
  ~ In WarnQuietLoop (fst (source_overcurrent vs sci ci wf)).
Proof.
  unfold source_overcurrent. revert wf.
  induction vs as [|c vs IH]; intros wf Hw; [exact Hw|].
  cbn [fold_left]. apply IH.
  destruct (_ <? _)%float; [|exact Hw].
  cbn [fst]. intros Hin. apply in_app_or in Hin.
  destruct Hin as [Hin|[Hin|[]]]; [now apply Hw|discriminate].
Qed.

(** X11: the likely-open-loop warning is emitted for no other reason: when
    a result carries it, the circuit has a socket and every socket is
    reported with [|I| < 1e-6]. *)
Theorem quiet_warning_only_when_quiet (cir : Circuit) (res : SolveResult) (cir' : Circuit) :
  solve_circuit parse cir = Ok (res, cir') ->
  In WarnQuietLoop (warnings res) ->
  circuit_sockets cir <> [] /\
  forall c, In c (circuit_sockets cir) ->
            (abs (sget_or (comp_i res) (cid c) 0) <? 1e-6)%float = true.
Proof.
  intros Hs Hw.
  assert (Hok : ok res = true).
  { destruct (ok res) eqn:E; [reflexivity|].
    rewrite (solve_circuit_failed parse _ _ _ Hs E) in Hw.
    cbn in Hw. destruct Hw as [Hw|[]]. discriminate. }
  destruct (solve_circuit_report _ _ _ Hs Hok) as [[-> _]|(nv & sci & flags & cbi & ->)];
    [destruct Hw|].
  rewrite report_comp_i. unfold report in Hw. cbn [warnings] in Hw.
  destruct (quiet_loop _ _) eqn:Eq.
  - unfold quiet_loop in Eq. destruct (circuit_sockets cir) as [|c0 vs] eqn:Ev;
      [discriminate|].
    split; [discriminate|]. intros c Hc.
    rewrite forallb_forall in Eq. now apply Eq.
  - exfalso. revert Hw. now apply source_overcurrent_no_quiet.
Qed.

End ReportProofs.

Ltac distinct_strings :=
  repeat (apply NoDup_cons; [cbn; intuition discriminate|]); apply NoDup_nil.

Ltac keyed_by_ids :=
  split; [cbn; distinct_strings|repeat constructor].

Lemma comp_i_covers_circuit_witness :
  exists res cir',
    solve_circuit parse_unsigned_list rheostat_loop = Ok (res, cir') /\
    dict_keys (comp_i res) = dict_keys (components rheostat_loop).
Proof.
  eexists _, _. split; [vm_compute; reflexivity|].
  eapply (comp_i_covers_circuit parse_unsigned_list rheostat_loop).
  - vm_compute. reflexivity.
  - reflexivity.
  - intros H. vm_compute in H. discriminate.
  - keyed_by_ids.
Defined.

Lemma source_overcurrent_reported_witness :
  exists res cir',
    solve_circuit parse_unsigned_list overdriven_loop = Ok (res, cir') /\
    sget (comp_flags res) (cid overdriven_socket) = Some "source_overcurrent" /\
    In (WarnSourceOvercurrent (display_name overdriven_socket)
          (abs (sget_or (comp_i res) (cid overdriven_socket) 0%float)))
       (warnings res).
Proof.
  eexists _, _. split; [vm_compute; reflexivity|].
  eapply (source_overcurrent_reported parse_unsigned_list overdriven_loop).
  - vm_compute. reflexivity.
  - reflexivity.
  - keyed_by_ids.
  - left. reflexivity.
  - vm_compute. reflexivity.
Defined.

Lemma quiet_warning_only_when_quiet_witness :
  exists res cir',
    solve_circuit parse_unsigned_list open_loop = Ok (res, cir') /\
    circuit_sockets open_loop <> [] /\
    forall c, In c (circuit_sockets open_loop) ->
              (abs (sget_or (comp_i res) (cid c) 0) <? 1e-6)%float = true.
Proof.
  eexists _, _. split; [vm_compute; reflexivity|].
  eapply (quiet_warning_only_when_quiet parse_unsigned_list open_loop).
  - vm_compute. reflexivity.
  - vm_compute. left. reflexivity.
Defined.

(* ================================================================== *)
(** ** The switch expansion *)

Lemma expansion_entries_origin (comps : list Component) (ents : list Entry) :
  expansion_entries comps = Ok ents ->
  Forall (fun t => exists c, In c comps /\ entry_parent t = cid c /\
                     ((entry_comp t = c /\ entry_label t = "main") \/
                      surrogate_of c (entry_comp t, entry_label t))) ents.
Proof.
  revert ents. induction comps as [|c comps IH]; intros ents H; cbn in H.
  - injection H as <-. constructor.
  - bind_step H items Ei. bind_step H rest Er. injection H as <-.
    apply Forall_app. split.
    + destruct (solver_items_shape _ _ Ei) as [[_ ->]|(n & _ & _ & _ & Hs)].
      * repeat constructor. exists c. cbn. auto.
      * apply Forall_map. eapply Forall_impl; [|exact Hs].
        intros [sc lab] Hsur. exists c. cbn. split; [now left|]. split; [reflexivity|].
        now right.
    + eapply Forall_impl; [|exact (IH _ eq_refl)].
      intros t (c0 & Hin & Hrest). exists c0. split; [now right|exact Hrest].
Qed.

Lemma sset_values {V : Type} (P : V -> Prop) (d : dict string V) (k : string) (v : V) :
  Forall (fun kv => P (snd kv)) d -> P v -> Forall (fun kv => P (snd kv)) (sset d k v).
Proof.
  intros Hd Hv. unfold sset. induction Hd as [|[k' v'] d Hkv Hd IH]; cbn.
  - repeat constructor. exact Hv.
  - destruct (String.eqb k' k); constructor; auto.
Qed.

Lemma register_parents (P : string -> Prop) (e0 : Expansion) (ents : list Entry) :
  Forall (fun kp => P (snd kp)) (solver_parent e0) ->
  Forall (fun t => P (entry_parent t)) ents ->
  Forall (fun kp => P (snd kp)) (solver_parent (register e0 ents)).
Proof.
  intros H0 He. revert e0 H0. unfold register.
  induction He as [|t ents Ht _ IH]; intros e0 H0; [exact H0|].
  cbn [fold_left]. apply IH. cbn [add_solver solver_parent]. now apply sset_values.
Qed.

(** X12: the switch expansion creates and drops no source, and every
    solver component is a component of the circuit itself or a
    [switch_spst] surrogate whose identifier is its parent's identifier,
    a colon and a branch label; every parent on record is the identifier
    of a component of the circuit. *)
Theorem expansion_shape (cir : Circuit) (e : Expansion) :
  solver_components cir = Ok e ->
  sources (expanded e) = circuit_sockets cir /\
  Forall (fun sc => In sc (dict_values (components cir)) \/
                    exists c lab, In c (dict_values (components cir)) /\
                                  surrogate_of c (sc, lab))
         (expanded e) /\
  Forall (fun kp => exists c, In c (dict_values (components cir)) /\ cid c = snd kp)
         (solver_parent e).
Proof.
  unfold solver_components. intros He.
  split; [exact (expand_all_sources _ _ _ He)|].
  rewrite expand_all_register in He. bind_step He ents Ee. injection He as <-.
  pose proof (expansion_entries_origin _ _ Ee) as Ho.
  split.
  - rewrite register_expanded. cbn [expanded app]. apply Forall_map.
    eapply Forall_impl; [|exact Ho].
    intros t (c & Hin & _ & [[-> _]|Hs]); [now left|right; eauto].
  - apply (register_parents
             (fun p => exists c, In c (dict_values (components cir)) /\ cid c = p)).
    + constructor.
    + eapply Forall_impl; [|exact Ho]. intros t (c & Hin & Hp & _). eauto.
Qed.

Lemma expansion_shape_witness :
  exists e,
    solver_components rheostat_loop = Ok e /\
    sources (expanded e) = circuit_sockets rheostat_loop /\
    Forall (fun sc => In sc (dict_values (components rheostat_loop)) \/
                      exists c lab, In c (dict_values (components rheostat_loop)) /\
                                    surrogate_of c (sc, lab))
           (expanded e) /\
    Forall (fun kp => exists c, In c (dict_values (components rheostat_loop)) /\
                                cid c = snd kp)
           (solver_parent e).
Proof.
  eexists. split; [vm_compute; reflexivity|].
  apply (expansion_shape rheostat_loop). vm_compute. reflexivity.
Defined.

(* ================================================================== *)
(** ** Loading, and the invariant of the container *)

Lemma sset_keyed (d : dict string Component) (c : Component) :
  Forall (fun kc => cid (snd kc) = fst kc) d ->
  Forall (fun kc => cid (snd kc) = fst kc) (sset d (cid c) c).
Proof.
  unfold sset. induction 1 as [|[k' c'] d Hkc Hd IH]; cbn.
  - repeat constructor.
  - destruct (String.eqb_spec k' (cid c)) as [->|Hne]; constructor; auto.
Qed.

Lemma load_items_well_keyed (items : list json) (d d' : dict string Component) :
  well_keyed (mkCircuit d) ->
  load_items items d = Some d' ->
  well_keyed (mkCircuit d').
Proof.
  revert d. induction items as [|it items IH]; intros d Hd H; cbn in H.
  - now injection H as <-.
  - destruct (comp_of_json it) as [c|]; [|discriminate].
    apply (IH _ (conj (sset_nodup _ _ _ (proj1 Hd)) (sset_keyed _ _ (proj2 Hd))) H).
Qed.

Lemma well_keyed_empty : well_keyed (mkCircuit []).
Proof. split; constructor. Qed.

Lemma apply_json_snapshot (cir0 cir : Circuit) :
  well_keyed cir -> apply_json cir0 (to_json cir) = Some cir.
Proof.
  intros [Hnd Hk]. unfold apply_json, to_json. cbn.
  unfold dict_values. rewrite (load_items_values (components cir) [] Hnd Hk).
  now destruct cir.
Qed.

(** X13: [from_json] keys every component by its own identifier, without
    repetition, whatever the input (a repeated identifier keeps its first
    position and its last value); the circuit it builds therefore
    survives the round trip through [to_json]. *)
Theorem from_json_well_keyed (obj : json) (cir : Circuit) :
  from_json obj = Some cir ->
  well_keyed cir /\ from_json (to_json cir) = Some cir.
Proof.
  unfold from_json at 1. intros H.
  destruct (json_components obj) as [items|]; [|discriminate].
  destruct (load_items items []) as [d|] eqn:E; [|discriminate].
  injection H as <-.
  pose proof (load_items_well_keyed _ _ _ well_keyed_empty E) as Hwk.
  split; [exact Hwk|]. exact (apply_json_snapshot (mkCircuit []) _ Hwk).
Qed.

Lemma from_json_well_keyed_witness :
  from_json repeated_id_snapshot = Some lone_resistor_changed /\
  well_keyed lone_resistor_changed /\
  from_json (to_json lone_resistor_changed) = Some lone_resistor_changed.
Proof.
  split; [vm_compute; reflexivity|].
  apply (from_json_well_keyed repeated_id_snapshot lone_resistor_changed).
  vm_compute. reflexivity.
Defined.

Lemma sget_sset {V : Type} (d : dict string V) (k k' : string) (v : V) :
  sget (sset d k v) k' = if k =? k' then Some v else sget d k'.
Proof.
  destruct (String.eqb_spec k k') as [->|Hne].
  - apply sget_sset_same.
  - apply sget_sset_other. congruence.
Qed.

(** X14: [add] keeps the container keyed by identifiers: the new component
    is found under the identifier returned, every other lookup is as
    before, and a circuit keyed by its identifiers stays so (also when
    the identifier was taken: the component under it is replaced). *)
Theorem add_keeps_well_keyed (cir : Circuit) (fresh kind : string) (pa pb : Point)
        (ps : dict string float) :
  let '(k, cir') := add cir fresh kind pa pb ps in
  k = fresh /\
  sget (components cir') k = Some (mkComponent fresh kind pa pb ps []) /\
  (forall k', k' <> k -> sget (components cir') k' = sget (components cir) k') /\
  (well_keyed cir -> well_keyed cir').
Proof.
  cbn. split; [reflexivity|]. split; [apply sget_sset_same|].
  split; [intros k' Hk'; now apply sget_sset_other|].
  intros [Hnd Hk]. split; cbn.
  - now apply sset_nodup.
  - exact (sset_keyed _ (mkComponent fresh kind pa pb ps []) Hk).
Qed.

(* ================================================================== *)
(** ** The snapshot history *)

Lemma slice_from_newest (X : Type) (l : list X) (n : Z) :
  (0 < n)%Z -> slice_from l (- n) = newest (Z.to_nat n) l.
Proof.
  intros Hn. unfold slice_from, newest.
  assert (E : (- n <? 0)%Z = true) by (apply Z.ltb_lt; lia).
  rewrite E. f_equal. lia.
Qed.

Lemma newest_all (X : Type) (l : list X) (n : nat) :
  List.length l <= n -> newest n l = l.
Proof.
  intros H. unfold newest. replace (List.length l - n) with 0 by lia. reflexivity.
Qed.

Lemma newest_length (X : Type) (l : list X) (n : nat) :
  List.length (newest n l) <= n.
Proof. unfold newest. rewrite length_skipn. lia. Qed.

(** X15: with a positive [max_len], [record] leaves [max_len] as it is;
    when it does not push it leaves the history as it is; when it
    pushes, the undo stack becomes the newest [max_len] snapshots of
    the old stack followed by the new snapshot, the older ones being
    dropped; so a stack within the bound stays within it. *)
Theorem record_respects_max_len (s : Shared.Store) (h : Shared.CircuitHistory)
        (cir : Shared.LiveCircuit) :
  (0 < Shared.max_len h)%Z ->
  Shared.max_len (Shared.record s h cir) = Shared.max_len h /\
  (pushes s h cir = false -> Shared.record s h cir = h) /\
  (pushes s h cir = true ->
   Shared.undo_stack (Shared.record s h cir)
   = newest (Z.to_nat (Shared.max_len h)) (Shared.undo_stack h ++ [Shared.to_json cir])) /\
  ((Z.of_nat (List.length (Shared.undo_stack h)) <= Shared.max_len h)%Z ->
   (Z.of_nat (List.length (Shared.undo_stack (Shared.record s h cir)))
    <= Shared.max_len h)%Z).
Proof.
  intros Hpos.
  assert (Hpush : pushes s h cir = true ->
                  Shared.undo_stack (Shared.record s h cir)
                  = newest (Z.to_nat (Shared.max_len h))
                           (Shared.undo_stack h ++ [Shared.to_json cir])).
  { intros H. rewrite (record_pushed s h cir H). cbn [Shared.undo_stack].
    destruct (_ >? _)%Z eqn:E.
    - now apply slice_from_newest.
    - symmetry. apply newest_all. rewrite Z.gtb_ltb in E. apply Z.ltb_ge in E. lia. }
  split; [|split; [apply record_unchanged|split; [exact Hpush|]]].
  - destruct (pushes s h cir) eqn:H.
    + now rewrite (record_pushed s h cir H).
    + now rewrite (record_unchanged s h cir H).
  - intros Hlen. destruct (pushes s h cir) eqn:H.
    + rewrite (Hpush eq_refl).
      pose proof (newest_length _ (Shared.undo_stack h ++ [Shared.to_json cir])
                                (Z.to_nat (Shared.max_len h))). lia.
    + now rewrite (record_unchanged s h cir H).
Qed.

(** X16: with [max_len = 0] the bound does not bind: the slice
    [undo_stack[-0:]] is the whole list, so a [record] that pushes keeps
    every snapshot recorded so far. *)
Theorem record_zero_max_len_keeps_all (s : Shared.Store) (h : Shared.CircuitHistory)
        (cir : Shared.LiveCircuit) :
  Shared.max_len h = 0%Z ->
  pushes s h cir = true ->
  Shared.undo_stack (Shared.record s h cir)
  = Shared.undo_stack h ++ [Shared.to_json cir].
Proof.
  intros Hz H. rewrite (record_pushed s h cir H). cbn [Shared.undo_stack].
  rewrite Hz. destruct (_ >? _)%Z; [|reflexivity].
  unfold slice_from. cbn. rewrite length_app. cbn.
  replace (Z.min 0 (Z.of_nat (List.length (Shared.undo_stack h) + 1))) with 0%Z by lia.
  reflexivity.
Qed.

Lemma can_undo_last (h : CircuitHistory) :
  can_undo h = true ->
  undo_stack h = removelast (undo_stack h) ++ [last (undo_stack h) (JList [])] /\
  removelast (undo_stack h) <> [].
Proof.
  unfold can_undo. intros H. apply Nat.leb_le in H.
  destruct (undo_stack h) as [|x [|y l]] eqn:E; cbn in H; try lia.
  split; [apply app_removelast_last; discriminate|]. cbn. discriminate.
Qed.

(** X17: [redo] undoes [undo]: after a successful [undo], [redo] returns
    [True], puts both stacks back as they were and loads the snapshot
    that was on top of the undo stack. *)
Theorem redo_after_undo (h h1 : CircuitHistory) (cir cir1 cir2 : Circuit) :
  undo h cir = Some (true, h1, cir1) ->
  apply_json cir1 (last (undo_stack h) (JList [])) = Some cir2 ->
  redo h1 cir1 = Some (true, h, cir2).
Proof.
  unfold undo. intros Hu Hj.
  destruct (can_undo h) eqn:Ec; cbn [negb] in Hu; [|discriminate].
  destruct (apply_json cir _) as [c1|]; [|discriminate].
  cbn in Hu. injection Hu as <- <-.
  destruct (can_undo_last h Ec) as [Hlast _].
  unfold redo, can_redo. cbn [redo_stack undo_stack max_len].
  rewrite length_app. cbn [List.length].
  replace (Nat.ltb 0 (List.length (redo_stack h) + 1)) with true
    by (symmetry; apply Nat.ltb_lt; lia).
  cbn [negb]. rewrite last_last, removelast_last, <- Hlast.
  rewrite Hj. cbn. now destruct h.
Qed.

(** X18: [undo] and [redo] only move snapshots between the two stacks:
    their total number and [max_len] are conserved, and [undo] never
    takes the last snapshot off the undo stack. *)
Theorem undo_redo_conserve (h h1 : CircuitHistory) (cir cir1 : Circuit) (done : bool) :
  undo h cir = Some (done, h1, cir1) \/ redo h cir = Some (done, h1, cir1) ->
  List.length (undo_stack h1) + List.length (redo_stack h1)
    = List.length (undo_stack h) + List.length (redo_stack h) /\
  max_len h1 = max_len h /\
  (undo_stack h <> [] -> undo_stack h1 <> []).
Proof.
  intros [H|H].
  - unfold undo in H. destruct (can_undo h) eqn:Ec; cbn [negb] in H.
    + destruct (apply_json cir _); [|discriminate]. cbn in H. injection H as _ <- _.
      destruct (can_undo_last h Ec) as [Hlast Hne].
      cbn [undo_stack redo_stack max_len]. split; [|auto].
      apply (f_equal (@List.length json)) in Hlast.
      rewrite length_app in Hlast |- *. cbn in Hlast |- *. lia.
    + injection H as _ <- _. auto.
  - unfold redo in H. destruct (can_redo h) eqn:Ec; cbn [negb] in H.
    + destruct (apply_json cir _); [|discriminate]. cbn in H. injection H as _ <- _.
      cbn [undo_stack redo_stack max_len]. split; [|split; [reflexivity|]].
      * unfold can_redo in Ec. apply Nat.ltb_lt in Ec.
        assert (Hr : redo_stack h <> []) by (destruct (redo_stack h); [cbn in Ec; lia|discriminate]).
        pose proof (f_equal (@List.length json) (app_removelast_last (JList []) Hr)) as Hl.
        rewrite length_app in Hl |- *. cbn in Hl |- *. lia.
      * intros _. destruct (undo_stack h); discriminate.
    + injection H as _ <- _. auto.
Qed.

Lemma record_respects_max_len_witness :
  Shared.undo_stack
    (Shared.record pair_store
       (Shared.mkHistory 2 [Shared.to_json lone_live; Shared.to_json pair_live] [])
       lone_live)
  = [Shared.to_json pair_live; Shared.to_json lone_live].
Proof.
  destruct (record_respects_max_len pair_store
              (Shared.mkHistory 2 [Shared.to_json lone_live; Shared.to_json pair_live] [])
              lone_live eq_refl) as (_ & _ & Hpush & _).
  rewrite Hpush; [reflexivity|]. vm_compute. reflexivity.
Defined.

Lemma record_zero_max_len_keeps_all_witness :
  Shared.undo_stack
    (Shared.record pair_store (Shared.mkHistory 0 [Shared.to_json lone_live] []) pair_live)
  = [Shared.to_json lone_live; Shared.to_json pair_live].
Proof.
  apply (record_zero_max_len_keeps_all pair_store
           (Shared.mkHistory 0 [Shared.to_json lone_live] []) pair_live).
  - reflexivity.
  - vm_compute. reflexivity.
Defined.

Lemma redo_after_undo_witness :
  let h := mkHistory 200 [to_json lone_resistor; to_json lone_resistor_changed] [] in
  exists h1,
    undo h lone_resistor_changed = Some (true, h1, lone_resistor) /\
    redo h1 lone_resistor = Some (true, h, lone_resistor_changed).
Proof.
  eexists. split; [vm_compute; reflexivity|].
  apply (redo_after_undo
           (mkHistory 200 [to_json lone_resistor; to_json lone_resistor_changed] [])
           _ lone_resistor_changed).
  - vm_compute. reflexivity.
  - vm_compute. reflexivity.
Defined.

Lemma undo_redo_conserve_witness :
  let h := mkHistory 200 [to_json lone_resistor; to_json lone_resistor_changed] [] in
  exists h1,
    undo h lone_resistor_changed = Some (true, h1, lone_resistor) /\
    List.length (undo_stack h1) + List.length (redo_stack h1) = 2 /\
    max_len h1 = 200%Z /\
    (undo_stack h <> [] -> undo_stack h1 <> []).
Proof.
  eexists. split; [vm_compute; reflexivity|].
  apply (undo_redo_conserve
           (mkHistory 200 [to_json lone_resistor; to_json lone_resistor_changed] [])
           _ lone_resistor_changed lone_resistor true).
  left. vm_compute. reflexivity.
Defined.

(* ================================================================== *)
(** ** Deleting and finding by position *)

Lemma sget_sdel_same {V : Type} (d : dict string V) (k : string) : sget (sdel d k) k = None.
Proof.
  unfold sget, sdel. induction d as [|[k' v] d IH]; cbn; [reflexivity|].
  destruct (String.eqb k' k) eqn:E; cbn; [exact IH|]. now rewrite E.
Qed.

Lemma sget_sdel_other {V : Type} (d : dict string V) (k k' : string) :
  k' <> k -> sget (sdel d k) k' = sget d k'.
Proof.
  intros Hne. unfold sget, sdel. induction d as [|[k0 v] d IH]; cbn; [reflexivity|].
  destruct (String.eqb_spec k0 k) as [->|Hk]; cbn.
  - destruct (String.eqb_spec k k'); [congruence|exact IH].
  - destruct (String.eqb k0 k'); [reflexivity|exact IH].
Qed.

Lemma sdel_well_keyed (d : dict string Component) (k : string) :
  well_keyed (mkCircuit d) -> well_keyed (mkCircuit (sdel d k)).
Proof.
  unfold well_keyed, dict_keys, sdel. cbn [components]. intros [Hnd Hk]. split.
  - clear Hk. induction d as [|[k0 c] d IH]; cbn in *; [constructor|].
    inversion Hnd as [|? ? Hn Hnd']; subst.
    destruct (negb (k0 =? k)); cbn; [|now apply IH].
    constructor; [|now apply IH].
    intros Hin. apply Hn. apply in_map_iff in Hin. destruct Hin as ([k1 c1] & <- & Hin).
    apply filter_In in Hin. apply in_map_iff. exists (k1, c1). tauto.
  - apply Forall_forall. intros kc Hin. apply filter_In in Hin.
    exact (proj1 (Forall_forall _ _) Hk kc (proj1 Hin)).
Qed.

Lemma delete_scan_hit (items : dict string Component) (p : Point) (k : string) :
  delete_scan items p = Ok (Some k) ->
  exists c, In (k, c) items /\
            (a c = p \/ b c = p \/ midpoint_hit c p = Ok true).
Proof.
  induction items as [|[k0 c0] items IH]; cbn; intros H; [discriminate|].
  destruct (point_eqb (a c0) p) eqn:Ea.
  { cbn in H. injection H as <-. apply point_eqb_eq in Ea. eauto. }
  destruct (point_eqb (b c0) p) eqn:Eb.
  { cbn in H. injection H as <-. apply point_eqb_eq in Eb. eauto 6. }
  cbn [orb] in H. bind_step H hit Eh. destruct hit.
  - injection H as <-. eauto 6.
  - destruct (IH H) as (c & Hin & Hc). eauto.
Qed.

Lemma delete_scan_miss (items : dict string Component) (p : Point) :
  delete_scan items p = Ok None ->
  Forall (fun kc => a (snd kc) <> p /\ b (snd kc) <> p /\
                    midpoint_hit (snd kc) p = Ok false) items.
Proof.
  induction items as [|[k0 c0] items IH]; cbn; intros H; [constructor|].
  destruct (point_eqb (a c0) p) eqn:Ea; [discriminate|].
  destruct (point_eqb (b c0) p) eqn:Eb; [discriminate|].
  cbn [orb] in H. bind_step H hit Eh. destruct hit; [discriminate|].
  constructor; [|now apply IH]. cbn.
  repeat split; try assumption; intros <-; rewrite point_eqb_refl in *; discriminate.
Qed.

(** X19: [delete_at] removes at most one component. When it returns an
    identifier, that key was in the circuit, its component touches the
    point with an endpoint or with its rounded midpoint, the key is gone
    afterwards and every other lookup is unchanged; when it returns
    [None], no component touches the point and the circuit is left as it
    was. A circuit keyed by its identifiers stays so. *)
Theorem delete_at_removes_one (cir : Circuit) (p : Point) (r : option string)
        (cir' : Circuit) :
  delete_at cir p = Ok (r, cir') ->
  match r with
  | Some k =>
      (exists c, In (k, c) (components cir) /\
                 (a c = p \/ b c = p \/ midpoint_hit c p = Ok true)) /\
      sget (components cir') k = None /\
      (forall k', k' <> k -> sget (components cir') k' = sget (components cir) k')
  | None =>
      cir' = cir /\
      Forall (fun c => a c <> p /\ b c <> p /\ midpoint_hit c p = Ok false)
             (dict_values (components cir))
  end /\
  (well_keyed cir -> well_keyed cir').
Proof.
  unfold delete_at. intros H. bind_step H s Es. destruct s as [k|]; injection H as <- <-.
  - split; [|destruct cir; apply sdel_well_keyed].
    split; [exact (delete_scan_hit _ _ _ Es)|]. cbn [components].
    split; [apply sget_sdel_same|]. intros k' Hk'. now apply sget_sdel_other.
  - split; [|auto]. split; [reflexivity|].
    unfold dict_values. apply Forall_map. exact (delete_scan_miss _ _ Es).
Qed.

Lemma delete_at_removes_one_witness :
  exists cir',
    delete_at open_loop (4, 0)%Z = Ok (Some "r", cir') /\
    sget (components cir') "r" = None /\
    (forall k', k' <> "r" -> sget (components cir') k' = sget (components open_loop) k').
Proof.
  eexists. split; [vm_compute; reflexivity|].
  refine (proj2 (proj1 (delete_at_removes_one open_loop (4, 0)%Z (Some "r") _ _))).
  vm_compute. reflexivity.
Defined.

(** What the scan of [find_near] has established: the distance in hand is
    the start value or the distance of a point of [best], and no point
    seen so far is closer. *)
Lemma near_points_scan (c : Component) (p : Point) (pts : list Point)
      (st : option Component * Z) :
  let st' := fold_left
               (fun (st : option Component * Z) (q : Point) =>
                  if (manhattan q p <? snd st)%Z then (Some c, manhattan q p) else st)
               pts st in
  (snd st' <= snd st)%Z /\
  (forall q, In q pts -> (snd st' <= manhattan q p)%Z) /\
  (st' = st \/ (fst st' = Some c /\ exists q, In q pts /\ snd st' = manhattan q p)).
Proof.
  revert st. induction pts as [|q0 pts IH]; intros st; cbn zeta; cbn [fold_left].
  - split; [lia|]. split; [intros q []|now left].
  - specialize (IH (if (manhattan q0 p <? snd st)%Z then (Some c, manhattan q0 p) else st)).
    cbn zeta in IH. destruct IH as (Hle & Hmin & Hbest).
    destruct (manhattan q0 p <? snd st)%Z eqn:E; cbn [snd fst] in *.
    + apply Z.ltb_lt in E. split; [lia|]. split.
      * intros q [<-|Hq]; [lia|now apply Hmin].
      * right. destruct Hbest as [->|(Hb & q & Hq & Hd)]; cbn [fst snd].
        -- split; [reflexivity|]. exists q0. split; [now left|reflexivity].
        -- split; [exact Hb|]. exists q. split; [now right|exact Hd].
    + apply Z.ltb_ge in E. split; [lia|]. split.
      * intros q [<-|Hq]; [lia|now apply Hmin].
      * destruct Hbest as [->|(Hb & q & Hq & Hd)]; [now left|right].
        split; [exact Hb|]. exists q. split; [now right|exact Hd].
Qed.

Lemma near_scan_spec (comps : list Component) (p : Point) (st : option Component * Z) :
  let st' := near_scan comps p st in
  (snd st' <= snd st)%Z /\
  (forall c q, In c comps -> In q (near_points c) -> (snd st' <= manhattan q p)%Z) /\
  (st' = st \/
   exists c q, fst st' = Some c /\ In c comps /\ In q (near_points c) /\
               snd st' = manhattan q p).
Proof.
  unfold near_scan. revert st. induction comps as [|c0 comps IH]; intros st;
    cbn zeta; cbn [fold_left].
  - split; [lia|]. split; [intros c q []|now left].
  - pose proof (near_points_scan c0 p (near_points c0) st) as H0. cbn zeta in H0.
    set (st0 := fold_left _ (near_points c0) st) in *.
    destruct H0 as (Hle0 & Hmin0 & Hbest0).
    specialize (IH st0). cbn zeta in IH. destruct IH as (Hle & Hmin & Hbest).
    split; [lia|]. split.
    + intros c q [<-|Hc] Hq; [specialize (Hmin0 q Hq); lia|now apply (Hmin c q)].
    + destruct Hbest as [->|(c & q & Hb & Hc & Hq & Hd)].
      * destruct Hbest0 as [->|(Hb & q & Hq & Hd)]; [now left|].
        right. exists c0, q. repeat split; auto. now left.
      * right. exists c, q. repeat split; auto. now right.
Qed.

(** X20: [find_near] returns a component of the circuit that has an
    endpoint or its floored midpoint within Manhattan distance 1 of the
    point, and no point of any component is closer than that one; it
    returns [None] exactly when every such point of every component is
    farther than 1. *)
Theorem find_near_nearest (cir : Circuit) (p : Point) :
  match find_near cir p with
  | Some c =>
      In c (dict_values (components cir)) /\
      exists q, In q (near_points c) /\ (manhattan q p <= 1)%Z /\
                forall c' q', In c' (dict_values (components cir)) ->
                              In q' (near_points c') ->
                              (manhattan q p <= manhattan q' p)%Z
  | None =>
      forall c' q', In c' (dict_values (components cir)) -> In q' (near_points c') ->
                    (1 < manhattan q' p)%Z
  end.
Proof.
  unfold find_near.
  pose proof (near_scan_spec (dict_values (components cir)) p (None, (10 ^ 9)%Z)) as H.
  cbn zeta in H. destruct (near_scan _ _ _) as [best bestd]. cbn [fst snd] in H.
  destruct H as (Hle & Hmin & Hbest).
  destruct (bestd <=? 1)%Z eqn:E.
  - destruct Hbest as [Heq|(c & q & -> & Hc & Hq & Hd)].
    + injection Heq as -> ->. vm_compute in E. discriminate.
    + apply Z.leb_le in E. split; [exact Hc|]. exists q. split; [exact Hq|].
      split; [lia|].
      intros c' q' Hc' Hq'. specialize (Hmin c' q' Hc' Hq'). lia.
  - apply Z.leb_gt in E.
    intros c' q' Hc' Hq'. specialize (Hmin c' q' Hc' Hq'). lia.
Qed.

(* ================================================================== *)
(** ** Meter ranges *)

Section MeterRangeProofs.
Variable parse : string -> list float.

Lemma meter_full_scale_nth (c : Component) (r : float) (rs : list float) :
  meter_ranges parse c = r :: rs ->
  exists i, i < S (List.length rs) /\
            meter_full_scale parse c = Some (nth i (r :: rs) 0%float) /\
            ((meter_range_index c <= 0)%Z -> i = 0) /\
            ((Z.of_nat (List.length rs) <= meter_range_index c)%Z -> i = List.length rs) /\
            ((0 <= meter_range_index c <= Z.of_nat (List.length rs))%Z ->
             i = Z.to_nat (meter_range_index c)).
Proof.
  intros Hr. unfold meter_full_scale. rewrite Hr. cbn [List.length].
  set (idx := meter_range_index c).
  set (i0 := if (idx <? 0)%Z then 0%Z else idx).
  set (i1 := if (i0 >=? Z.of_nat (S (List.length rs)))%Z
             then (Z.of_nat (S (List.length rs)) - 1)%Z else i0).
  exists (Z.to_nat i1).
  assert (H0 : (0 <= i0)%Z /\ (idx <= 0 -> i0 = 0)%Z /\ (0 <= idx -> i0 = idx)%Z).
  { unfold i0. destruct (idx <? 0)%Z eqn:E;
      [apply Z.ltb_lt in E|apply Z.ltb_ge in E]; lia. }
  assert (H1 : (0 <= i1 <= Z.of_nat (List.length rs))%Z /\
               (i0 <= Z.of_nat (List.length rs) -> i1 = i0)%Z /\
               (Z.of_nat (List.length rs) <= i0 -> i1 = Z.of_nat (List.length rs))%Z).
  { unfold i1. destruct (i0 >=? _)%Z eqn:E; rewrite Z.geb_leb in E;
      [apply Z.leb_le in E|apply Z.leb_gt in E]; lia. }
  split; [lia|]. split; [reflexivity|]. repeat split; intros; lia.
Qed.

(** X21: [meter_full_scale] is [None] exactly for a meter without ranges,
    and otherwise one of the ranges of the meter. *)
Theorem meter_full_scale_member (c : Component) :
  (meter_full_scale parse c = None <-> meter_ranges parse c = []) /\
  forall fs, meter_full_scale parse c = Some fs -> In fs (meter_ranges parse c).
Proof.
  destruct (meter_ranges parse c) as [|r rs] eqn:Hr.
  - unfold meter_full_scale. rewrite Hr. split; [tauto|discriminate].
  - destruct (meter_full_scale_nth c r rs Hr) as (i & Hi & -> & _).
    split; [split; discriminate|].
    intros fs H. assert (Hfs : fs = nth i (r :: rs) 0%float) by congruence.
    rewrite Hfs. apply (nth_In (r :: rs)). cbn [List.length]. lia.
Qed.

(** X22: the range index is clamped, not rejected: an index below zero
    selects the first range, an index past the end the last one, and a
    [range] property that [int()] cannot read (NaN or an infinity) counts
    as index 0. *)
Theorem meter_full_scale_clamps_index (c : Component) (r : float) (rs : list float) :
  meter_ranges parse c = r :: rs ->
  ((meter_range_index c <= 0)%Z -> meter_full_scale parse c = Some r) /\
  ((Z.of_nat (List.length rs) <= meter_range_index c)%Z ->
   meter_full_scale parse c = Some (last (r :: rs) r)) /\
  (forall x, sget (props c) "range" = Some x -> isfinite x = false ->
             meter_full_scale parse c = Some r).
Proof.
  intros Hr. destruct (meter_full_scale_nth c r rs Hr) as (i & Hi & -> & H0 & Hlast & _).
  split; [|split].
  - intros H. now rewrite (H0 H).
  - intros H. rewrite (Hlast H).
    assert (Hn : forall (l : list float) (d d' : float) x,
               nth (List.length l) (x :: l) d = last (x :: l) d').
    { induction l as [|y l IH]; intros d d' x; [reflexivity|].
      cbn [List.length]. change (nth (S (List.length l)) (x :: y :: l) d)
        with (nth (List.length l) (y :: l) d).
      rewrite (IH d d' y). reflexivity. }
    now rewrite (Hn rs 0%float r r).
  - intros x Hx Hfin. rewrite H0; [reflexivity|].
    unfold meter_range_index, int_prop. rewrite Hx. unfold py_int.
    unfold isfinite in Hfin. destruct (Prim2SF x); try discriminate; lia.
Qed.

(** X23: [meter_native_full_scale] is [None] exactly for a component
    that has no ranges and is no galvanometer; a galvanometer without
    ranges reads its [Ifs] property, 50e-6 by default. *)
Theorem meter_native_full_scale_none (c : Component) :
  (meter_native_full_scale parse c = None <->
   meter_ranges parse c = [] /\ ctype c <> "galvanometer") /\
  (meter_ranges parse c = [] -> ctype c = "galvanometer" ->
   meter_native_full_scale parse c = Some (prop c "Ifs" 50e-6)).
Proof.
  unfold meter_native_full_scale.
  destruct (meter_ranges parse c) as [|r rs] eqn:Hr.
  - assert (Hn : meter_full_scale parse c = None)
      by (unfold meter_full_scale; now rewrite Hr).
    rewrite Hn. destruct (String.eqb_spec (ctype c) "galvanometer") as [Hg|Hg].
    + split; [|reflexivity]. split; [discriminate|]. intros [_ H]. contradiction.
    + split; [tauto|]. intros _ H. contradiction.
  - destruct (meter_full_scale_nth c r rs Hr) as (i & _ & -> & _).
    split; [|discriminate]. split; [discriminate|]. intros [H _]. discriminate.
Qed.

End MeterRangeProofs.

Lemma meter_full_scale_clamps_index_witness :
  let m := mkComponent "a" "ammeter" (0, 0)%Z (4, 0)%Z [("range", 7%float)]
                       [("ranges_I", "1,3")] in
  meter_full_scale parse_unsigned_list m = Some 3%float.
Proof.
  cbn zeta.
  refine (proj1 (proj2 (meter_full_scale_clamps_index parse_unsigned_list
                          (mkComponent "a" "ammeter" (0, 0)%Z (4, 0)%Z
                                       [("range", 7%float)] [("ranges_I", "1,3")])
                          1%float [3%float] _)) _).
  - vm_compute. reflexivity.
  - vm_compute. discriminate.
Defined.

(* ================================================================== *)
(** ** The finiteness test *)

(** X24: [_is_finite] is false exactly on NaN and the two infinities: it
    agrees with [math.isfinite] on every float. *)
Theorem is_finite_agrees (x : float) : _is_finite x = isfinite x.
Proof.
  unfold _is_finite, isfinite.
  rewrite !FloatAxioms.eqb_spec.
  change (Prim2SF infinity) with (S754_infinity false).
  change (Prim2SF neg_infinity) with (S754_infinity true).
  unfold SFeqb, SFcompare.
  destruct (Prim2SF x) as [s|s| |s m e]; try (destruct s); cbn; try reflexivity.
  all: rewrite ?Z.compare_refl, ?Pos.compare_refl; cbn; try reflexivity.
  all: rewrite ?Pos.compare_cont_refl; reflexivity.
Qed.

(* ================================================================== *)
(** ** Goal seek: the memo, the result and the circuit *)

Lemma fget_in (cache : Cache) (x : float) (r : option (float * float)) :
  fget cache x = Some r -> exists x', In (x', r) cache.
Proof.
  unfold fget. induction cache as [|[k v] cache IH]; cbn; [discriminate|].
  destruct (PrimFloat.eqb k x).
  - intros H. injection H as <-. eauto.
  - intros H. destruct (IH H) as [x' Hx]. eauto.
Qed.

Lemma fget_app_miss (cache : Cache) (x : float) (r : option (float * float)) :
  fget cache x = None -> (x =? x)%float = true -> fget (cache ++ [(x, r)]) x = Some r.
Proof.
  unfold fget. intros Hm Hx. induction cache as [|[k v] cache IH]; cbn in *.
  - now rewrite Hx.
  - destruct (PrimFloat.eqb k x); [discriminate|]. now apply IH.
Qed.

Section SeekProofs.
Variable parse : string -> list float.
Variable rq : GoalSeekRequest.

(** An evaluation returns a sound pair and keeps the memo sound. *)
Lemma eval_err_sound (x : float) (st st' : Circuit * Cache) r :
  memo_sound rq st ->
  eval_err parse rq x st = Ok (r, st') ->
  memo_sound rq st' /\ sound_pair rq r.
Proof.
  intros Hm H. destruct st as [cir cache], st' as [cir' cache'].
  destruct (fget cache x) as [r0|] eqn:Hf.
  - pose proof (eval_err_hit parse rq x (cir, cache) _ r r0 Hf H) as Hst.
    injection Hst as -> ->. split; [exact Hm|].
    unfold eval_err in H. rewrite Hf in H. injection H as <-.
    destruct (fget_in _ _ _ Hf) as [x' Hin].
    exact (proj1 (Forall_forall _ _) Hm _ Hin).
  - assert (Hr : sound_pair rq r).
    { unfold eval_err in H. rewrite Hf in H.
      bind_step H q Es. destruct q as [res cir2].
      destruct (negb (ok res)); [now injection H as <-|].
      destruct (_ && _); [now injection H as <-|].
      bind_step H q Em. destruct q as [mv cir3].
      destruct mv as [mvf|]; [|now injection H as <-].
      destruct (isfinite mvf) eqn:E1; cbn [negb] in H; [|now injection H as <-].
      destruct (isfinite (mvf - target rq)) eqn:E2; cbn [negb] in H;
        [|now injection H as <-].
      injection H as <-. cbn. auto. }
    split; [|exact Hr].
    destruct (eval_err_miss parse rq _ _ _ _ _ _ Hf H) as (_ & _ & _ & _ & ->).
    unfold memo_sound. cbn [snd]. apply Forall_app. split; [exact Hm|].
    repeat constructor. exact Hr.
Qed.

(** X25: [eval_err] memoises: evaluating again at a point just evaluated (no
    NaN) returns the same pair and leaves the circuit and the memo as
    they are, without another solve. *)
Theorem eval_err_memoised (x : float) (st st1 : Circuit * Cache) r :
  (x =? x)%float = true ->
  eval_err parse rq x st = Ok (r, st1) ->
  eval_err parse rq x st1 = Ok (r, st1).
Proof.
  intros Hx H. destruct st as [cir cache], st1 as [cir1 cache1].
  destruct (fget cache x) as [r0|] eqn:Hf.
  - pose proof (eval_err_hit parse rq x (cir, cache) _ r r0 Hf H) as Hst.
    rewrite Hst in H |- *. exact H.
  - destruct (eval_err_miss parse rq _ _ _ _ _ _ Hf H) as (_ & _ & _ & _ & ->).
    unfold eval_err. now rewrite (fget_app_miss _ _ r Hf Hx).
Qed.


Lemma better_iterations (s : Seek) (x m y : float) :
  iterations (better s x m y) = iterations s.
Proof. unfold better. now destruct (_ <? _)%float. Qed.

Lemma better_history (s : Seek) (x m y : float) :
  history (better s x m y) = history s.
Proof. unfold better. now destruct (_ <? _)%float. Qed.

Lemma memo_sound_eval (x : float) (st st' : Circuit * Cache) r :
  memo_sound rq st -> eval_err parse rq x st = Ok (r, st') -> memo_sound rq st'.
Proof. intros Hm H. exact (proj1 (eval_err_sound x st st' r Hm H)). Qed.

(** The main loop ends within the iteration budget, and a result it
    returns meets the tolerance test. *)
Lemma seek_loop_exit (n : nat) (use_bisect : bool) (lo' hi' : float) (its : list nat)
      (s : Seek) (st st' : Circuit * Cache) (ex : LoopExit) :
  memo_sound rq st ->
  Forall (fun it => it < n) its ->
  iterations s <= n ->
  seek_loop parse rq use_bisect lo' hi' its s st = Ok (ex, st') ->
  seek_exit_ok rq n ex.
Proof.
  intros Hm Hits. revert s st Hm.
  induction Hits as [|it its Hit _ IH]; intros s st Hm Hs H; simpl in H.
  - injection H as <- _. exact Hs.
  - destruct use_bisect.
    + bind_step H q E. destruct q as [[[fm mm]|] st1].
      * destruct (eval_err_sound _ _ _ _ Hm E) as [Hm1 (He & Hfm & Hfe)].
        destruct (is_done _ _ _) eqn:Ed.
        -- injection H as <- _. unfold seek_exit_ok.
           cbn [gs_ok gs_error gs_achieved gs_target gs_message gs_value
                gs_history gs_iterations].
           rewrite !better_iterations, !better_history. cbn [iterations history].
           repeat split; auto; [|lia].
           apply in_or_app. right. now left.
        -- repeat split_let H.
           eapply IH; [exact Hm1| |exact H].
           cbn [iterations]. rewrite !better_iterations. cbn [iterations]. lia.
      * injection H as <- _. cbn. rewrite !better_iterations. cbn [iterations]. lia.
    + destruct (_ =? 0)%float.
      { injection H as <- _. cbn. rewrite !better_iterations. cbn [iterations]. lia. }
      bind_step H q E. destruct q as [[[y2 m2]|] st1].
      * destruct (eval_err_sound _ _ _ _ Hm E) as [Hm1 (He & Hfm & Hfe)].
        destruct (is_done _ _ _) eqn:Ed.
        -- injection H as <- _. unfold seek_exit_ok.
           cbn [gs_ok gs_error gs_achieved gs_target gs_message gs_value
                gs_history gs_iterations].
           rewrite !better_iterations, !better_history. cbn [iterations history].
           repeat split; auto; [|lia].
           apply in_or_app. right. now left.
        -- eapply IH; [exact Hm1| |exact H].
           cbn [iterations]. rewrite !better_iterations. cbn [iterations]. lia.
      * injection H as <- _. cbn. rewrite !better_iterations. cbn [iterations]. lia.
Qed.

(** How [goal_seek_run] ends: before the main loop, with no iteration
    counted, or through an exit of the main loop. *)
Lemma goal_seek_run_exit (cir : Circuit) (out : GoalSeekResult) (st' : Circuit * Cache) :
  goal_seek_run parse rq cir = Ok (out, st') ->
  (gs_ok out = false /\ gs_iterations out = 0) \/
  exists ex, seek_exit_ok rq (Z.to_nat (max_iter rq)) ex /\
             match ex with
             | Returned o => out = o
             | FellOut _ s => gs_ok out = false /\ gs_iterations out = iterations s
             end.
Proof.
  intros H. unfold goal_seek_run in H.
  destruct (sget (components cir) (var_cid rq)) as [comp|]; [|injection H as <- _; auto].
  destruct (lo rq =? hi rq)%float; [injection H as <- _; auto|].
  split_let H.
  assert (Hi : memo_sound rq (cir, [])) by constructor.
  bind_step H q1 E1. destruct q1 as [r_lo st1].
  pose proof (memo_sound_eval _ _ _ _ Hi E1) as Hi1.
  bind_step H q2 E2. destruct q2 as [r_hi st2].
  pose proof (memo_sound_eval _ _ _ _ Hi1 E2) as Hi2.
  bind_step H q3 E3. destruct q3 as [[[[lo' hi'] r_lo'] r_hi'] st3].
  assert (Hi3 : memo_sound rq st3).
  { match type of E3 with (if ?t then _ else _) = _ => destruct t end.
    - bind_step E3 q E. destruct q as [r_mid st_mid].
      pose proof (memo_sound_eval _ _ _ _ Hi2 E) as Him.
      destruct r_mid, r_lo, r_hi; inversion E3; subst; exact Him.
    - inversion E3; subst; exact Hi2. }
  destruct r_lo' as [[e_lo m_lo]|], r_hi' as [[e_hi m_hi]|];
    try (injection H as <- _; auto).
  bind_step H q4 E4. destruct q4 as [found st4].
  assert (Hi4 : memo_sound rq st4).
  { match type of E4 with (if ?t then _ else _) = _ => destruct t end.
    - exact (bracket_loop_inv parse rq (memo_sound rq) memo_sound_eval _ _ _ _ _ Hi3 E4).
    - inversion E4; subst; exact Hi3. }
  repeat split_let H.
  bind_step H q5 E5. destruct q5 as [ex st5].
  right. exists ex. split.
  - eapply (seek_loop_exit _ _ _ _ _ _ _ _ _ Hi4); [| |exact E5].
    + apply Forall_forall. intros it Hin. apply in_seq in Hin. lia.
    + cbn. lia.
  - destruct ex as [o|reason s]; injection H as <- _; auto.
Qed.

Lemma goal_seek_parameter_exit (cir : Circuit) (out : GoalSeekResult) (cir' : Circuit) :
  goal_seek_parameter parse rq cir = Ok (out, cir') ->
  (gs_ok out = false /\ gs_iterations out = 0) \/
  exists ex, seek_exit_ok rq (Z.to_nat (max_iter rq)) ex /\
             match ex with
             | Returned o => out = o
             | FellOut _ s => gs_ok out = false /\ gs_iterations out = iterations s
             end.
Proof.
  intros H. destruct (goal_seek_parameter_run parse rq _ _ _ H) as [cache Hr].
  exact (goal_seek_run_exit _ _ _ Hr).
Qed.

(** X26: a goal seek that returns [ok=true] has met its tolerance: the
    returned error passes the test [abs(err) <= max(tol_abs, tol_rel *
    max(1, abs(target), abs(achieved)))], it is the achieved value minus
    the target, the achieved value is finite, the message is ["ok"], and
    the winning point with its measured value is on the trajectory. *)
Theorem goal_seek_success_meets_tolerance (cir : Circuit) (out : GoalSeekResult)
        (cir' : Circuit) :
  goal_seek_parameter parse rq cir = Ok (out, cir') ->
  gs_ok out = true ->
  is_done rq (gs_error out) (gs_achieved out) = true /\
  gs_error out = (gs_achieved out - target rq)%float /\
  isfinite (gs_achieved out) = true /\
  gs_target out = target rq /\
  gs_message out = "ok" /\
  In (gs_value out, gs_achieved out) (gs_history out).
Proof.
  intros H Hok.
  destruct (goal_seek_parameter_exit _ _ _ H) as [[Hf _]|(ex & Hex & Hout)];
    [congruence|].
  destruct ex as [o|reason s]; [subst o|destruct Hout; congruence].
  destruct Hex as (_ & H1 & H2 & H3 & H4 & H5 & H6 & _). auto 10.
Qed.

(** X27: a goal seek never counts more iterations than [max_iter]
    allows, whichever way it ends. *)
Theorem goal_seek_iterations_bounded (cir : Circuit) (out : GoalSeekResult)
        (cir' : Circuit) :
  goal_seek_parameter parse rq cir = Ok (out, cir') ->
  gs_iterations out <= Z.to_nat (max_iter rq).
Proof.
  intros H.
  destruct (goal_seek_parameter_exit _ _ _ H) as [[_ H0]|(ex & Hex & Hout)]; [lia|].
  destruct ex as [o|reason s].
  - subst o. destruct Hex as (_ & _ & _ & _ & _ & _ & _ & Hn). exact Hn.
  - destruct Hout as [_ ->]. exact Hex.
Qed.

End SeekProofs.

Lemma eval_err_memoised_witness :
  exists r st1,
    eval_err parse_unsigned_list seek_series_current 50 (series_loop, []) = Ok (r, st1) /\
    eval_err parse_unsigned_list seek_series_current 50 st1 = Ok (r, st1).
Proof.
  eexists _, _. split; [vm_compute; reflexivity|].
  apply (eval_err_memoised parse_unsigned_list seek_series_current 50 (series_loop, [])).
  - reflexivity.
  - vm_compute. reflexivity.
Defined.

Lemma goal_seek_success_meets_tolerance_witness :
  exists out cir',
    goal_seek_parameter parse_unsigned_list seek_series_current series_loop
      = Ok (out, cir') /\
    is_done seek_series_current (gs_error out) (gs_achieved out) = true /\
    gs_error out = (gs_achieved out - target seek_series_current)%float /\
    isfinite (gs_achieved out) = true /\
    gs_target out = target seek_series_current /\
    gs_message out = "ok" /\
    In (gs_value out, gs_achieved out) (gs_history out).
Proof.
  eexists _, _. split; [vm_compute; reflexivity|].
  eapply (goal_seek_success_meets_tolerance parse_unsigned_list seek_series_current
            series_loop).
  - vm_compute. reflexivity.
  - reflexivity.
Defined.

Lemma goal_seek_iterations_bounded_witness :
  exists out cir',
    goal_seek_parameter parse_unsigned_list seek_out_of_reach resistor_loop
      = Ok (out, cir') /\
    gs_iterations out <= Z.to_nat (max_iter seek_out_of_reach).
Proof.
  eexists _, _. split; [vm_compute; reflexivity|].
  eapply (goal_seek_iterations_bounded parse_unsigned_list seek_out_of_reach
            resistor_loop).
  vm_compute. reflexivity.
Defined.

(* ------------------------------------------------------------------ *)
(** *** What a goal seek leaves of the circuit *)

Lemma same_shape_refl (c : Component) : same_shape c c.
Proof. repeat split. Qed.

Lemma same_shape_trans (c1 c2 c3 : Component) :
  same_shape c1 c2 -> same_shape c2 c3 -> same_shape c1 c3.
Proof.
  unfold same_shape. intros (H1 & H2 & H3 & H4 & H5) (H1' & H2' & H3' & H4' & H5').
  repeat split; congruence.
Qed.

Lemma same_layout_refl (cir : Circuit) : same_layout cir cir.
Proof.
  split; [reflexivity|]. generalize (dict_values (components cir)) as l.
  intros l. induction l; constructor; [apply same_shape_refl|assumption].
Qed.

Lemma Forall2_same_shape_trans (l1 l2 l3 : list Component) :
  Forall2 same_shape l1 l2 -> Forall2 same_shape l2 l3 -> Forall2 same_shape l1 l3.
Proof.
  intros H. revert l3. induction H as [|c1 c2 l1 l2 Hc _ IH]; intros l3 H';
    inversion H'; subst; constructor; [eapply same_shape_trans; eauto|now apply IH].
Qed.

Lemma same_layout_trans (c1 c2 c3 : Circuit) :
  same_layout c1 c2 -> same_layout c2 c3 -> same_layout c1 c3.
Proof.
  intros [Hk Hv] [Hk' Hv']. split; [congruence|].
  eapply Forall2_same_shape_trans; eauto.
Qed.

Lemma same_layout_well_keyed (cir cir' : Circuit) :
  same_layout cir cir' -> well_keyed cir -> well_keyed cir'.
Proof.
  intros [Hk Hv]. destruct cir as [d], cir' as [d']. now apply well_keyed_shape.
Qed.

(** [components[k] = c'] on a circuit with distinct keys touches the entry
    under [k] alone. *)
Lemma replace_component_layout (cir : Circuit) (k : string) (c c' : Component) :
  NoDup (dict_keys (components cir)) ->
  sget (components cir) k = Some c ->
  same_shape c c' ->
  same_layout cir (replace_component cir k c').
Proof.
  unfold same_layout, replace_component, dict_keys, dict_values, sget. cbn [components].
  intros Hnd Hg Hs. split.
  - rewrite map_map. apply map_ext. intros [k0 c0]. cbn. now destruct (k0 =? k).
  - induction (components cir) as [|[k0 c0] d IH]; cbn in *; [constructor|].
    inversion Hnd as [|? ? Hn Hnd']; subst.
    destruct (String.eqb_spec k0 k) as [->|Hne]; cbn.
    + injection Hg as ->. constructor; [exact Hs|].
      assert (Hid : map (fun kc : string * Component =>
                           if fst kc =? k then (fst kc, c') else kc) d = d).
      { clear IH Hnd Hnd'. induction d as [|[k1 c1] d IHd]; cbn; [reflexivity|].
        destruct (String.eqb_spec k1 k) as [->|Hk1].
        - exfalso. apply Hn. now left.
        - rewrite IHd; [reflexivity|]. intros Hin. apply Hn. now right. }
      rewrite Hid. clear. induction d; constructor; [apply same_shape_refl|assumption].
    + constructor; [apply same_shape_refl|]. now apply IH.
Qed.

Lemma set_prop_shape (c : Component) (name : string) (x : float) :
  same_shape c (set_prop c name x).
Proof. repeat split. Qed.

Lemma set_component_prop_layout (cir : Circuit) (k name : string) (x : float) :
  NoDup (dict_keys (components cir)) ->
  same_layout cir (set_component_prop cir k name x).
Proof.
  intros Hnd. unfold set_component_prop.
  destruct (sget (components cir) k) as [c|] eqn:E; [|apply same_layout_refl].
  exact (replace_component_layout _ _ _ _ Hnd E (set_prop_shape c name x)).
Qed.

Section LayoutProofs.
Variable parse : string -> list float.
Variable rq : GoalSeekRequest.

Lemma solve_circuit_layout (cir : Circuit) (res : SolveResult) (cir' : Circuit) :
  solve_circuit parse cir = Ok (res, cir') -> same_layout cir cir'.
Proof.
  intros Hs. destruct (solve_circuit_clamps parse _ _ _ Hs) as [Hk Hv].
  split; [exact Hk|]. eapply Forall2_impl; [|exact Hv]. apply clamp_written_shape.
Qed.

(** A measurement writes at most the resolved component back under its
    key. *)
Lemma goal_measure_writes (res : SolveResult) (cir cir' : Circuit) (spec : MeasureSpec)
      (mv : option float) :
  _goal_measure parse res cir spec = Ok (mv, cir') ->
  cir' = cir \/
  exists k comp R comp',
    sget (components cir) k = Some comp /\
    effective_resistance parse comp = Ok (R, comp') /\
    cir' = replace_component cir k comp'.
Proof.
  unfold _goal_measure. intros H.
  destruct (_ =? "node").
  { destruct (m_node spec); injection H as _ <-; now left. }
  destruct (m_cid spec) as [k0|]; [|injection H as _ <-; now left].
  match type of H with
  | match ?o with _ => _ end = _ => destruct o
  end; [injection H as _ <-; now left|].
  destruct (sget (components cir) k0) as [comp|] eqn:Hk0; [|injection H as _ <-; now left].
  unfold component_metrics in H. bind_step H r E. destruct r as [m comp'].
  bind_step E q Eqq. destruct q as [R comp''].
  assert (comp'' = comp') by (destruct R; inversion E; reflexivity). subst comp''.
  right. exists k0, comp, R, comp'. split; [exact Hk0|]. split; [exact Eqq|].
  destruct (sget m _); now injection H as _ <-.
Qed.

Lemma goal_measure_layout (res : SolveResult) (cir cir' : Circuit) (spec : MeasureSpec)
      (mv : option float) :
  NoDup (dict_keys (components cir)) ->
  _goal_measure parse res cir spec = Ok (mv, cir') ->
  same_layout cir cir'.
Proof.
  intros Hnd H.
  destruct (goal_measure_writes _ _ _ _ _ H) as [->|(k & comp & R & comp' & Hk & He & ->)];
    [apply same_layout_refl|].
  apply (replace_component_layout _ _ comp _ Hnd Hk).
  destruct (eff_fields parse _ _ _ He) as (H1 & H2 & H3 & H4 & H5).
  repeat split; assumption.
Qed.

Lemma eval_err_layout (cir0 : Circuit) (x : float) (st st' : Circuit * Cache) r :
  well_keyed cir0 ->
  same_layout cir0 (fst st) ->
  eval_err parse rq x st = Ok (r, st') ->
  same_layout cir0 (fst st').
Proof.
  intros Hwk Hl H. destruct st as [cir cache], st' as [cir' cache']. cbn [fst] in *.
  destruct (fget cache x) as [r0|] eqn:Hf.
  - pose proof (eval_err_hit parse rq x (cir, cache) _ r r0 Hf H) as Hst.
    injection Hst as -> _. exact Hl.
  - destruct (eval_err_miss parse rq _ _ _ _ _ _ Hf H) as (res & cir2 & Hs & Hm & _).
    pose proof (same_layout_well_keyed _ _ Hl Hwk) as Hwk1.
    pose proof (set_component_prop_layout cir (var_cid rq) (var_prop rq) x (proj1 Hwk1))
      as Hl1.
    pose proof (solve_circuit_layout _ _ _ Hs) as Hl2.
    pose proof (same_layout_trans _ _ _ Hl (same_layout_trans _ _ _ Hl1 Hl2)) as Hl02.
    destruct Hm as [->|[mv Hm]]; [exact Hl02|].
    eapply same_layout_trans; [exact Hl02|].
    apply (goal_measure_layout _ _ _ _ _ (proj1 (same_layout_well_keyed _ _ Hl02 Hwk)) Hm).
Qed.

(** X28: a goal seek changes property values and nothing else: on a
    circuit keyed by its identifiers it leaves the same keys in the same
    order, every component with its identifier, kind, endpoints and
    metadata, and a circuit that is still keyed by its identifiers. *)
Theorem goal_seek_keeps_layout (cir : Circuit) (out : GoalSeekResult) (cir' : Circuit) :
  well_keyed cir ->
  goal_seek_parameter parse rq cir = Ok (out, cir') ->
  dict_keys (components cir') = dict_keys (components cir) /\
  Forall2 same_shape (dict_values (components cir)) (dict_values (components cir')) /\
  well_keyed cir'.
Proof.
  intros Hwk H. destruct (goal_seek_parameter_run parse rq _ _ _ H) as [cache Hr].
  assert (Hl : same_layout cir cir').
  { destruct (goal_seek_run_cases parse rq (fun st => same_layout cir (fst st))
                (fun x st st' r => eval_err_layout cir x st st' r Hwk)
                cir out (cir', cache) (same_layout_refl cir) Hr)
      as [(_ & Hst)|(comp & st1 & _ & Hl1 & [(_ & Hst)|(_ & Hst)])].
    - injection Hst as ->. apply same_layout_refl.
    - subst st1. exact Hl1.
    - injection Hst as -> _. eapply same_layout_trans; [exact Hl1|].
      apply set_component_prop_layout.
      exact (proj1 (same_layout_well_keyed _ _ Hl1 Hwk)). }
  destruct Hl as [Hk Hv]. split; [exact Hk|]. split; [exact Hv|].
  exact (same_layout_well_keyed _ _ (conj Hk Hv) Hwk).
Qed.

End LayoutProofs.

Lemma goal_seek_keeps_layout_witness :
  exists out cir',
    goal_seek_parameter parse_unsigned_list seek_series_current series_loop
      = Ok (out, cir') /\
    dict_keys (components cir') = dict_keys (components series_loop) /\
    Forall2 same_shape (dict_values (components series_loop))
            (dict_values (components cir')) /\
    well_keyed cir'.
Proof.
  eexists _, _. split; [vm_compute; reflexivity|].
  eapply (goal_seek_keeps_layout parse_unsigned_list seek_series_current series_loop).
  - keyed_by_ids.
  - vm_compute. reflexivity.
Defined.

(* ================================================================== *)
(** ** Measuring a solved circuit *)

Lemma replace_component_same (cir : Circuit) (k : string) (c : Component) :
  NoDup (dict_keys (components cir)) ->
  sget (components cir) k = Some c ->
  replace_component cir k c = cir.
Proof.
  unfold replace_component, dict_keys, sget. destruct cir as [d]. cbn [components].
  intros Hnd Hg. f_equal. induction d as [|[k0 c0] d IH]; cbn in *; [reflexivity|].
  inversion Hnd as [|? ? Hn Hnd']; subst.
  destruct (String.eqb_spec k0 k) as [->|Hne].
  - injection Hg as ->. f_equal.
    clear IH Hnd Hnd'. induction d as [|[k1 c1] d IHd]; cbn; [reflexivity|].
    destruct (String.eqb_spec k1 k) as [->|Hk1].
    + exfalso. apply Hn. now left.
    + rewrite IHd; [reflexivity|]. intros Hin. apply Hn. now right.
  - f_equal. now apply IH.
Qed.

Lemma compound_not_rheostat (c : Component) (n : nat) :
  surrogate_count c = Some n -> ctype c <> "rheostat".
Proof.
  unfold surrogate_count. intros H Hr. rewrite Hr in H. discriminate.
Qed.

Section MeasureProofs.
Variable parse : string -> list float.

(** The components a solve of a non-empty system leaves are settled: a
    further resolution of their resistance changes nothing. *)
Lemma solve_circuit_settles (cir : Circuit) (res : SolveResult) (cir' : Circuit)
      (k : string) (c c' : Component) (R : option float) :
  solve_circuit parse cir = Ok (res, cir') ->
  node_v res <> [] ->
  sget (components cir') k = Some c ->
  effective_resistance parse c = Ok (R, c') ->
  c' = c.
Proof.
  intros Hs Hnv Hg He.
  destruct (solve_circuit_inv parse _ _ _ Hs) as (e & exf & Hexp & Hx & ->).
  rewrite expand_all_register in Hexp. bind_step Hexp ents Ee.
  inversion Hexp as [Hreg]. clear Hexp.
  assert (Hex : expanded e = map entry_comp ents)
    by (subst e; now rewrite register_expanded).
  destruct (solve_expanded_cases parse _ _ _ _ _ Hx)
    as [(_ & -> & _)|(_ & A & bv & _ & Hst & _)]; [now elim Hnv|].
  rewrite Hex in Hst.
  destruct (rebuild_expansion parse _ _ _ Ee Hst) as (_ & _ & _ & _ & Hev & _).
  cbn [components] in Hg.
  destruct (sget_Forall2 (fun c' c => evolved parse c c') _ _ k c
              (eq_sym (rebuild_keys _ _)) (Forall2_flip Hev) Hg) as (c0 & _ & Hc0).
  unfold evolved in Hc0. destruct (surrogate_count c0) as [n|] eqn:En.
  - subst c0. destruct (eff_cases parse _ _ _ He) as [->|(Hr & _)]; [reflexivity|].
    now elim (compound_not_rheostat _ _ En).
  - exact (settled_eff parse _ _ _ (stepped_settled parse _ _ Hc0) He).
Qed.

(** X29: measuring is read-only on a circuit just solved: after a solve of
    a non-empty system that returned node voltages, [_goal_measure]
    leaves the circuit exactly as the solve left it, whatever it
    measures. *)
Theorem goal_measure_reads_only (cir : Circuit) (res : SolveResult) (cir' cir'' : Circuit)
        (spec : MeasureSpec) (mv : option float) :
  well_keyed cir ->
  solve_circuit parse cir = Ok (res, cir') ->
  node_v res <> [] ->
  _goal_measure parse res cir' spec = Ok (mv, cir'') ->
  cir'' = cir'.
Proof.
  intros Hwk Hs Hnv Hm.
  destruct (goal_measure_writes parse _ _ _ _ _ Hm)
    as [->|(k & comp & R & comp' & Hk & He & ->)]; [reflexivity|].
  rewrite (solve_circuit_settles _ _ _ _ _ _ _ Hs Hnv Hk He).
  apply replace_component_same; [|exact Hk].
  exact (proj1 (same_layout_well_keyed _ _ (solve_circuit_layout parse _ _ _ Hs) Hwk)).
Qed.

End MeasureProofs.

Lemma goal_measure_reads_only_witness :
  exists res cir' mv cir'',
    solve_circuit parse_unsigned_list rheostat_loop = Ok (res, cir') /\
    _goal_measure parse_unsigned_list res cir' (measure_own_resistance "rh")
      = Ok (mv, cir'') /\
    cir'' = cir'.
Proof.
  eexists _, _, _, _. split; [vm_compute; reflexivity|].
  split; [vm_compute; reflexivity|].
  eapply (goal_measure_reads_only parse_unsigned_list rheostat_loop _ _ _
            (measure_own_resistance "rh")).
  - keyed_by_ids.
  - vm_compute. reflexivity.
  - vm_compute. discriminate.
  - vm_compute. reflexivity.
Defined.

(* ================================================================== *)
(** ** Ohm's law in [comp_i] *)

Lemma expansion_entries_passthrough (comps : list Component) (ents : list Entry)
      (oc : Component) :
  expansion_entries comps = Ok ents ->
  In oc comps -> surrogate_count oc = None ->
  In (oc, cid oc, "main") ents.
Proof.
  revert ents. induction comps as [|c comps IH]; intros ents H Hin Hn; [destruct Hin|].
  cbn in H. bind_step H items Ei. bind_step H rest Er. injection H as <-.
  apply in_or_app. destruct Hin as [->|Hin].
  - left. rewrite (solver_items_passthrough _ Hn) in Ei. injection Ei as <-.
    now left.
  - right. now apply IH.
Qed.

Lemma Forall2_in_left {X Y : Type} (R : X -> Y -> Prop) (l : list X) (l' : list Y) (x : X) :
  Forall2 R l l' -> In x l -> exists y, In y l' /\ R x y.
Proof.
  induction 1 as [|x0 y0 l l' Hxy _ IH]; intros Hin; [destruct Hin|].
  destruct Hin as [->|Hin].
  - exists y0. split; [now left|exact Hxy].
  - destruct (IH Hin) as (y & Hy & Hr). exists y. split; [now right|exact Hr].
Qed.

Lemma Forall2_stepped_cids (parse : string -> list float) (ex ex1 : list Component) :
  Forall2 (stepped parse) ex ex1 -> map cid ex1 = map cid ex.
Proof.
  induction 1 as [|c c1 ex ex1 Hc _ IH]; [reflexivity|].
  cbn. rewrite IH. f_equal. exact (proj1 (stepped_shape parse _ _ Hc)).
Qed.

Section CurrentLawProofs.
Variable parse : string -> list float.

(** X30: after a successful solve of a circuit keyed by its identifiers,
    with distinct solver identifiers, whose system is not empty (it has
    a non-ground node or a source), [comp_i] holds for every component
    that is neither a source nor a compound switch the current Ohm's law
    gives it: [(Va - Vb) / R] from the solved voltages of its endpoints
    and the resistance of the component as the solve leaves it, and 0
    when it is open. *)
Theorem comp_i_ohms_law (cir : Circuit) (res : SolveResult) (cir' : Circuit)
        (e : Expansion) (k : string) (oc : Component) :
  solve_circuit parse cir = Ok (res, cir') ->
  ok res = true ->
  system_size cir <> Ok 0 ->
  well_keyed cir ->
  solver_components cir = Ok e ->
  NoDup (map cid (expanded e)) ->
  sget (components cir) k = Some oc ->
  is_socket oc = false ->
  surrogate_count oc = None ->
  exists c' R,
    sget (components cir') k = Some c' /\
    effective_resistance parse c' = Ok (R, c') /\
    sget (comp_i res) k = Some (ohm_current (node_v res) c' R).
Proof.
  intros Hs Hok Hsize Hwk He Hnd Hk Hsock Hpass.
  destruct (solve_circuit_inv parse _ _ _ Hs) as (e0 & exf & He0 & Hx & ->).
  pose proof (system_size_expanded _ _ He) as Hsz.
  unfold solver_components in He. rewrite He in He0. injection He0 as <-.
  rewrite expand_all_register in He. bind_step He ents Ee. inversion He as [Hreg]. clear He.
  assert (Hexp : expanded e = map entry_comp ents)
    by (subst e; now rewrite register_expanded).
  destruct (solve_expanded_cases parse _ _ _ _ _ Hx)
    as [(HN & _)|(_ & A & bv & _ & Hst & Hres)].
  { exfalso. apply Hsize. rewrite Hsz. cbv zeta in HN. now rewrite HN. }
  destruct Hres as [(_ & ->)|(sol & sci & flags & cbi & _ & Hcur & Hbr & ->)];
    [discriminate Hok|].
  destruct (well_keyed_cids _ Hwk) as [Hkeys Hndc].
  (* the component under [k] *)
  assert (Hin : In oc (dict_values (components cir))).
  { unfold sget in Hk. unfold dict_values. clear - Hk.
    induction (components cir) as [|[k0 c0] d IH]; cbn in *; [discriminate|].
    destruct (String.eqb k0 k); [injection Hk as ->; now left|right; now apply IH]. }
  assert (Hcid : cid oc = k).
  { destruct Hwk as [_ Hc]. unfold sget in Hk. clear - Hk Hc.
    induction Hc as [|[k0 c0] d Hkc _ IH]; cbn in *; [discriminate|].
    destruct (String.eqb_spec k0 k) as [->|]; [injection Hk as ->; exact Hkc|now apply IH]. }
  (* its entry and its solver component *)
  pose proof (expansion_entries_passthrough _ _ _ Ee Hin Hpass) as Hent.
  rewrite Hexp in Hst, Hnd.
  assert (Hoc : In oc (map entry_comp ents))
    by (apply in_map_iff; exists (oc, cid oc, "main"); auto).
  destruct (Forall2_in_left _ _ _ _ Hst Hoc) as (c1 & Hc1 & Hstep).
  pose proof (stepped_shape parse _ _ Hstep) as (Hid1 & _).
  pose proof (stepped_socket parse _ _ Hstep) as Hs1. rewrite Hsock in Hs1.
  assert (Hndf : NoDup (map cid exf))
    by (rewrite (Forall2_stepped_cids parse _ _ Hst); exact Hnd).
  destruct (solver_currents_value parse _ _ _ _ _ _ _ _ _ Hcur Hndf c1 Hc1 Hs1)
    as (R & c1' & Heff1 & Hsci).
  pose proof (settled_eff parse _ _ _ (stepped_settled parse _ _ Hstep) Heff1) as ->.
  (* the component the solve leaves under [k] *)
  destruct (rebuild_expansion parse _ _ _ Ee Hst) as (_ & _ & _ & _ & Hev & _).
  destruct (sget_Forall2 (evolved parse) _ _ k oc (rebuild_keys _ _) Hev Hk)
    as (c' & Hk' & Hc').
  assert (c' = c1).
  { unfold evolved in Hc'. rewrite Hpass in Hc'. unfold stepped in Hc', Hstep.
    rewrite Hsock in Hc', Hstep. destruct Hc' as [R1 H1], Hstep as [R2 H2].
    rewrite H1 in H2. now injection H2. }
  subst c'. exists c1, R. cbn [components]. split; [exact Hk'|]. split; [exact Heff1|].
  (* the two mappings of the expansion *)
  assert (Hnd' : NoDup (map (fun t => cid (entry_comp t)) ents))
    by (rewrite <- (map_map entry_comp cid); exact Hnd).
  destruct (register_fresh (mkExpansion [] [] []) ents Hnd' eq_refl) as [Hp Hl].
  rewrite Hreg in Hp, Hl. cbn [solver_parent solver_label app] in Hp, Hl.
  assert (Hkeysf : forall (f : Entry -> string),
             NoDup (map fst (map (fun t => (cid (entry_comp t), f t)) ents)))
    by (intros f; rewrite map_map; exact Hnd').
  assert (Hgl : forall u, In u ents ->
                          sget (solver_label e) (cid (entry_comp u)) = Some (entry_label u)).
  { intros u Hu. rewrite Hl. apply sget_in_nodup; [apply Hkeysf|].
    apply in_map_iff. now exists u. }
  assert (Hitems : map (fun it => (snd it, sget_or (solver_label e) (fst it) "main"))
                       (solver_parent e)
                   = map (fun t => (entry_parent t, entry_label t)) ents).
  { rewrite Hp, map_map. apply map_ext_in. intros u Hu. cbn [fst snd].
    unfold sget_or, dict_get_or. fold (@sget string). now rewrite (Hgl u Hu). }
  destruct (branch_loop_cbi parse _ _ _ _ _ _ _ _ _ Hbr) as [Hwritten _].
  { rewrite Hitems. apply entry_branches_distinct; [|exact Hnd'].
    eapply expansion_entries_ids; eauto. }
  pose proof (Hgl _ Hent) as Hlab. unfold entry_comp, entry_label in Hlab.
  cbn [fst snd] in Hlab.
  assert (Hso : sget_or (solver_label e) (cid oc) "main" = "main").
  { unfold sget_or, dict_get_or. fold (@sget string). now rewrite Hlab. }
  specialize (Hwritten (cid oc, cid oc)). cbn [fst snd] in Hwritten.
  rewrite Hso in Hwritten.
  assert (Hmain : sget (sget_or cbi (cid oc) []) "main" = Some (sget_or sci (cid oc) 0%float)).
  { apply Hwritten. rewrite Hp. apply in_map_iff. exists (oc, cid oc, "main"). auto. }
  (* the entry of [comp_i] *)
  rewrite report_comp_i. cbn [node_v report].
  rewrite (component_currents_distinct _ _ _ Hndc), <- Hcid.
  rewrite (sget_map_distinct _ _ _ Hndc Hin). f_equal.
  unfold component_current. rewrite Hsock.
  unfold sget_or at 1 in Hmain. unfold dict_get_or in Hmain. fold (@sget (dict string float)) in Hmain.
  destruct (sget cbi (cid oc)) as [[|kv br]|]; try discriminate Hmain.
  rewrite Hmain. unfold sget_or, dict_get_or. fold (@sget float).
  rewrite <- Hid1, Hsci. reflexivity.
Qed.

End CurrentLawProofs.

Lemma comp_i_ohms_law_witness :
  exists res cir' c',
    solve_circuit parse_unsigned_list rheostat_loop = Ok (res, cir') /\
    sget (components cir') "rh" = Some c' /\
    exists c'' R,
      sget (components cir') "rh" = Some c'' /\
      effective_resistance parse_unsigned_list c'' = Ok (R, c'') /\
      sget (comp_i res) "rh" = Some (ohm_current (node_v res) c'' R).
Proof.
  eexists _, _, _. split; [vm_compute; reflexivity|]. split; [vm_compute; reflexivity|].
  eapply (comp_i_ohms_law parse_unsigned_list rheostat_loop _ _ _ "rh" sample_rheostat).
  - vm_compute. reflexivity.
  - reflexivity.
  - intros H. vm_compute in H. discriminate.
  - keyed_by_ids.
  - vm_compute. reflexivity.
  - cbn. distinct_strings.
  - reflexivity.
  - reflexivity.
  - reflexivity.
Defined.
